(** * Beat detection and chart generation (utils/audioAnalyzer.ts)

    A shallow embedding of [analyzeAudioAndGenerateChart].  JavaScript numbers
    are IEEE-754 binary64 values, so samples, times and thresholds are
    primitive [float]s with the kernel's round-to-nearest-even operations;
    array indices and lengths, which the code keeps integral, are [Z]. *)

From Stdlib Require Import String DecimalString.
From Stdlib Require DecimalNat DecimalFacts.
From Stdlib Require Import ZArith List Bool Lia Permutation.
From Stdlib Require Uint63.
From Stdlib Require Import Floats.
Import ListNotations.

Set Warnings "-inexact-float,-abstract-large-number".

Local Open Scope float_scope.

(** ** Types (types.ts) *)

(** Modelled from the spec: types.ts, which declares [HandType], is not
    among the sources; the hands are the two string literals the generator
    assigns, ["left"] and ["right"]. *)
Inductive HandType : Set := Left | Right.

(** Modelled from the spec: the [CutDirection] enum of types.ts, with the
    five members of the data model, which constants.ts enumerates too. *)
Inductive CutDirection : Set := UP | DOWN | LEFT | RIGHT | ANY.

(** Modelled from the spec: the declaration of [NoteData] in types.ts is not
    among the sources.  The fields are those of the Note of the data model,
    under the names the generator gives them; [hit] and [missed] (and
    [hitTime], which the game loop writes) are optional properties, since
    the object literal of the generator is a [NoteData] without them.
    [None] is a property the object does not have, which JavaScript reads as
    [undefined]. *)
Record NoteData : Set := mkNote {
  id : string;
  time : float;
  lineIndex : Z;
  lineLayer : Z;
  type : HandType;
  cutDirection : CutDirection;
  hit : option bool;
  missed : option bool;
  hitTime : option float
}.

Definition HandType_eqb (a b : HandType) : bool :=
  match a, b with
  | Left, Left | Right, Right => true
  | _, _ => false
  end.

(** ** JavaScript numbers *)

(** An integral number (an index or a length) as a binary64 value. *)
Definition num (z : Z) : float := of_uint63 (Uint63.of_Z z).

(** [x > y] on numbers. *)
Definition gtb (x y : float) : bool := y <? x.

(** ToBoolean on a number: [NaN], [+0] and [-0] are falsy. *)
Definition truthy (x : float) : bool := negb (is_nan x || is_zero x).

(** [v || 0] where [v] is an array read: [undefined] out of range. *)
Definition orZero (v : option float) : float :=
  match v with
  | Some x => if truthy x then x else 0
  | None => 0
  end.

(** [a.slice(i, j)] on a typed array, for [0 <= i <= j]. *)
Definition slice {A : Type} (a : list A) (i j : Z) : list A :=
  firstn (Z.to_nat (j - i)) (skipn (Z.to_nat i) a).

(** [a.reduce((a, b) => a + b, 0)]. *)
Definition sum (a : list float) : float := fold_left add a 0.

(** ** Constants of the analyzer *)

Definition MIN_NOTE_GAP : float := 0.12.
Definition windowSize : Z := 2048.
Definition hopSize : Z := 512.
Definition historySize : nat := 50.

(** ** Frame analysis (loop body, lines 33-54) *)

Definition rmsOf (frame : list float) : float :=
  sqrt (fold_left (fun s v => s + v * v) frame 0 / num (Z.of_nat (length frame))).

Definition spectrumOf (frame : list float) : list float :=
  map (fun j => abs (orZero (nth_error frame (j * 4)))) (seq 0 40).

(** The flux loop; a missing [prevSpectrum[j]] would read [undefined] and make
    [diff] a NaN. *)
Definition fluxOf (spectrum : list float) (prevSpectrum : option (list float)) : float :=
  match prevSpectrum with
  | None => 0
  | Some prev =>
      fold_left
        (fun flux j =>
           let diff := nth j spectrum nan - nth j prev nan in
           if gtb diff 0 then flux + diff else flux)
        (seq 0 (length spectrum)) 0
  end.

(** [h.push(x); if (h.length > historySize) h.shift();] *)
Definition pushHistory (h : list float) (x : float) : list float :=
  let h' := h ++ [x] in
  if (historySize <? length h')%nat then tl h' else h'.

Definition average (h : list float) : float :=
  sum h / num (Z.of_nat (length h)).

(** ** Note classification (lines 81-119) *)

Definition opposite (h : HandType) : HandType :=
  match h with Left => Right | Right => Left end.

(** The placement computed for an accepted beat:
    [(type, direction, lineIndex, lineLayer)]. *)
Definition classify (isStream : bool) (intensity : float) (lastHand : HandType)
  : HandType * CutDirection * Z * Z :=
  if isStream then
    let type := match lastHand with Left => Right | Right => Left end in
    (type, DOWN, match type with Left => 1 | Right => 2 end, 0)%Z
  else
    let type := if gtb intensity 1.4 then Right else Left in
    let type := if HandType_eqb type lastHand
                then match type with Left => Right | Right => Left end
                else type in
    if gtb intensity 2.0 then
      (type, DOWN, match type with Left => 1 | Right => 2 end, 0)%Z
    else if gtb intensity 1.3 then
      (type, UP, match type with Left => 1 | Right => 2 end, 0)%Z
    else
      (type, ANY, match type with Left => 0 | Right => 3 end, 1)%Z.

Definition noteId (n : nat) : string :=
  ("note-" ++ NilZero.string_of_uint (Nat.to_uint n))%string.

(** ** The analysis loop (lines 21-123) *)

Record LoopState : Set := mkState {
  energyHistory : list float;
  fluxHistory : list float;
  lastNoteTime : float;
  lastHand : HandType;
  nextId : nat;            (* [id] *)
  notes : list NoteData;
  prevSpectrum : option (list float)
}.

Definition initState : LoopState :=
  {| energyHistory := []; fluxHistory := [];
     lastNoteTime := 0; lastHand := Right; nextId := 0;
     notes := []; prevSpectrum := None |}.

(** What one iteration measured and decided, kept for the statements. *)
Record Frame : Set := mkFrame {
  f_rms : float;
  f_flux : float;
  f_avgEnergy : float;
  f_avgFlux : float;
  f_time : float
}.

Definition measure (data : list float) (sampleRate : float) (i : Z) (st : LoopState)
  : Frame * LoopState :=
  let frame := slice data i (i + windowSize) in
  let rms := rmsOf frame in
  let spectrum := spectrumOf frame in
  let flux := fluxOf spectrum (prevSpectrum st) in
  let eh := pushHistory (energyHistory st) rms in
  let fh := pushHistory (fluxHistory st) flux in
  ({| f_rms := rms; f_flux := flux;
      f_avgEnergy := average eh; f_avgFlux := average fh;
      f_time := num i / sampleRate |},
   {| energyHistory := eh; fluxHistory := fh;
      lastNoteTime := lastNoteTime st; lastHand := lastHand st;
      nextId := nextId st; notes := notes st;
      prevSpectrum := Some spectrum |}).

(** The two hard gates and the beat decision: [true] when the iteration
    reaches the code after [if (!isBeat) continue]. *)
Definition accepted (f : Frame) (lastNoteTime : float) : bool :=
  if f_rms f <? 0.06 then false
  else if f_flux f <? f_rms f * 0.6 then false
  else gtb (f_rms f) (f_avgEnergy f * 1.15)
       && gtb (f_flux f) (f_avgFlux f * 2.2)
       && gtb (f_time f - lastNoteTime) MIN_NOTE_GAP.

Definition emit (f : Frame) (st : LoopState) : LoopState :=
  let intensity := f_rms f / f_avgEnergy f in
  let isStream := f_time f - lastNoteTime st <? 0.22 in
  let '(type, direction, lineIndex, lineLayer) :=
    classify isStream intensity (lastHand st) in
  {| energyHistory := energyHistory st; fluxHistory := fluxHistory st;
     lastNoteTime := f_time f; lastHand := type;
     nextId := S (nextId st);
     notes := notes st ++
       [ {| id := noteId (nextId st); time := f_time f;
            lineIndex := lineIndex; lineLayer := lineLayer;
            type := type; cutDirection := direction;
            hit := None; missed := None; hitTime := None |} ];
     prevSpectrum := prevSpectrum st |}.

(** One iteration of the [for] loop at index [i]. *)
Definition step (data : list float) (sampleRate : float) (i : Z) (st : LoopState)
  : LoopState :=
  let '(f, st') := measure data sampleRate i st in
  if accepted f (lastNoteTime st') then emit f st' else st'.

(** [for (let i = ...; i < data.length - windowSize; i += hopSize)], with a
    bound on the number of iterations; [None] when the bound is reached before
    the loop condition fails. *)
Fixpoint loop (fuel : nat) (data : list float) (sampleRate : float) (i : Z)
  (st : LoopState) : option LoopState :=
  if (i <? Z.of_nat (length data) - windowSize)%Z then
    match fuel with
    | O => None
    | S fuel' => loop fuel' data sampleRate (i + hopSize) (step data sampleRate i st)
    end
  else Some st.

Definition runLoop (data : list float) (sampleRate : float) : option LoopState :=
  loop (length data) data sampleRate 0 initState.

(** The state before iteration [k] of the loop (at index [k * hopSize]), and
    the number of iterations the loop makes. *)
Definition stateAt (data : list float) (sampleRate : float) (k : nat) : LoopState :=
  fold_left (fun st j => step data sampleRate (hopSize * Z.of_nat j) st)
    (seq 0 k) initState.

Definition frameCount (data : list float) : nat :=
  Z.to_nat ((Z.of_nat (length data) - windowSize + hopSize - 1) / hopSize).

(** [notes.filter((n) => n.time > 1.8)]. *)
Definition leadInFilter (ns : list NoteData) : list NoteData :=
  filter (fun n => gtb (time n) 1.8) ns.

(** ** The pipeline boundary (lines 8-16 and 125-129) *)

(** Completion of an awaited operation or of a constructor call: a value, or
    the value thrown (the rejection reason), here an error message. *)
Inductive Completion (A : Type) : Type :=
| Normal (a : A)
| Throw (e : string).

Arguments Normal {A} a.
Arguments Throw {A} e.

Definition bind {A B : Type} (c : Completion A) (k : A -> Completion B)
  : Completion B :=
  match c with
  | Normal a => k a
  | Throw e => Throw e
  end.

Notation "x <- c ;; k" := (bind c (fun x => k))
  (at level 61, c at next level, right associativity).

(** The part of a decoded [AudioBuffer] the analyzer reads. *)
Record AudioBuffer : Set := mkAudio {
  channelData0 : list float;     (* [getChannelData(0)] *)
  sampleRate : float
}.

(** The body of the analysis once the samples are in memory (lines 15-125):
    [None] only if the loop bound were exhausted. *)
Definition generateChart (audio : AudioBuffer) : option (list NoteData) :=
  match runLoop (channelData0 audio) (sampleRate audio) with
  | Some st => Some (leadInFilter (notes st))
  | None => None
  end.

(** The browser services the function awaits. *)
Record Browser : Type := mkBrowser {
  Response : Type;
  ArrayBuffer : Type;
  AudioContext : Type;
  fetch : string -> Completion Response;
  arrayBuffer : Response -> Completion ArrayBuffer;
  newAudioContext : Completion AudioContext;
  decodeAudioData : AudioContext -> ArrayBuffer -> Completion AudioBuffer
}.

(** Lines 9-13 of the [try] block. *)
Definition loadAudio (env : Browser) (audioUrl : string) : Completion AudioBuffer :=
  res <- fetch env audioUrl ;;
  buffer <- arrayBuffer env res ;;
  ctx <- newAudioContext env ;;
  decodeAudioData env ctx buffer.

(** The value the returned promise resolves to, paired with what was written
    by [console.error]. *)
Definition analyzeAudioAndGenerateChart (env : Browser) (audioUrl : string)
  : option (list NoteData * list string) :=
  match loadAudio env audioUrl with
  | Normal audio =>
      match generateChart audio with
      | Some chart => Some (chart, [])
      | None => None
      end
  | Throw e => Some ([], [e])
  end.

(** ** The order of binary64 values

    The comparisons of the kernel are specified on [spec_float]; [key] maps
    every number to an integer, in units of the least subnormal, so that the
    order of numbers is the order of their keys. *)

Definition infKey : Z := 2 ^ 2098.

Definition key (x : spec_float) : Z :=
  match x with
  | S754_zero _ => 0
  | S754_infinity s => cond_Zopp s infKey
  | S754_nan => 0
  | S754_finite s m e => cond_Zopp s (Z.pos m * 2 ^ (e + 1074))
  end%Z.

Definition is_nanSF (x : spec_float) : bool :=
  match x with S754_nan => true | _ => false end.

Definition fkey (x : float) : Z := key (Prim2SF x).

(** [x] is a number (not a NaN). *)
Definition isNum (x : float) : bool := negb (is_nanSF (Prim2SF x)).

(** [+0], a positive number, [+Infinity] or NaN: what a sum of positive terms
    that starts from [+0] can be. *)
Definition plusOrNaN (x : spec_float) : Prop :=
  match x with
  | S754_zero s | S754_infinity s | S754_finite s _ _ => s = false
  | S754_nan => True
  end.

(** What a square root can be: [+0], [-0], a positive number, [+Infinity]
    or NaN. *)
Definition rootOrNaN (x : spec_float) : Prop :=
  match x with
  | S754_zero _ | S754_nan => True
  | S754_infinity s | S754_finite s _ _ => s = false
  end.

(** The lengths 1 to 50 of the histories are numbers with a mantissa scaled
    down, never up. *)
Definition smallCount (n : nat) : bool :=
  match Prim2SF (num (Z.of_nat n)) with
  | S754_finite false _ e => (e <=? 0)%Z
  | _ => false
  end.

(** The rms history between two iterations: square roots, at most
    [historySize] of them. *)
Definition EnergyInv (st : LoopState) : Prop :=
  Forall (fun r => rootOrNaN (Prim2SF r)) (energyHistory st) /\
  (length (energyHistory st) <= historySize)%nat.

(** ** Properties of lists of notes *)

(** [R] holds between every two notes next to each other. *)
Definition adjacent (R : NoteData -> NoteData -> Prop) (l : list NoteData) : Prop :=
  forall i a b, nth_error l i = Some a -> nth_error l (S i) = Some b -> R a b.

(** The gap the beat decision demands, as the code computes it. *)
Definition gapOk (a b : NoteData) : Prop :=
  gtb (time b - time a) MIN_NOTE_GAP = true.

Definition timeLt (a b : NoteData) : Prop := (time a <? time b) = true.

Definition handsDiffer (a b : NoteData) : Prop := type a <> type b.

(** ** Statements of the chart properties *)

(** The classification of [b] when [a] is the note before it: the stream test
    compares the time of the beat with [lastNoteTime], the time of [a]. *)
Definition streamPair (a b : NoteData) : bool := time b - time a <? 0.22.

Definition innerLane (h : HandType) : Z := match h with Left => 1 | Right => 2 end.
Definition outerLane (h : HandType) : Z := match h with Left => 0 | Right => 3 end.

(** The placement table of the chart generator, entry by entry, for a beat
    [gap] seconds after the last note. *)
Definition followsTable (gap intensity : float) (lastHand : HandType)
  (n : NoteData) : Prop :=
  if gap <? 0.22 then
    type n = opposite lastHand /\ cutDirection n = DOWN /\
    lineIndex n = innerLane (type n) /\ lineLayer n = 0%Z
  else
    (let initial := if gtb intensity 1.4 then Right else Left in
     type n = if HandType_eqb initial lastHand then opposite initial else initial) /\
    (gtb intensity 2.0 = true ->
       cutDirection n = DOWN /\ lineIndex n = innerLane (type n) /\ lineLayer n = 0%Z) /\
    (gtb intensity 1.3 = true -> (intensity <=? 2.0) = true ->
       cutDirection n = UP /\ lineIndex n = innerLane (type n) /\ lineLayer n = 0%Z) /\
    ((intensity <=? 1.3) = true ->
       cutDirection n = ANY /\ lineIndex n = outerLane (type n) /\ lineLayer n = 1%Z).

(** One of the three intensity tiers of an isolated beat applies. *)
Definition tierApplies (intensity : float) : Prop :=
  gtb intensity 2.0 = true \/
  (gtb intensity 1.3 = true /\ (intensity <=? 2.0) = true) \/
  (intensity <=? 1.3) = true.

(** The flags of a note as the data model words them: both [false]. *)
Definition flagsFalse (n : NoteData) : Prop :=
  hit n = Some false /\ missed n = Some false.

(** The flags of a note as the generator leaves them: both absent. *)
Definition flagsAbsent (n : NoteData) : Prop :=
  hit n = None /\ missed n = None.

(** ** The frame measurements in the words of the frame analyzer *)

Definition mean (l : list float) : float := sum l / num (Z.of_nat (length l)).

Definition rmsSpec (frame : list float) : float :=
  sqrt (mean (map (fun v => v * v) frame)).

(** [abs(frame[j*4])] for [j] in [0,40); a read past the end is not a number. *)
Definition profileSpec (frame : list float) : list float :=
  map (fun j => abs (nth (j * 4) frame nan)) (seq 0 40).

(** Half-wave rectification, [max(0, d)]. *)
Definition rectify (d : float) : float := if 0 <? d then d else 0.

Definition fluxSpec (newProfile : list float) (previousProfile : option (list float))
  : float :=
  match previousProfile with
  | None => 0
  | Some previous =>
      sum (map (fun j => rectify (nth j newProfile nan - nth j previous nan))
             (seq 0 40))
  end.

(** The profile the code computes: a sample that is NaN counts as 0. *)
Definition numOrZero (x : float) : float := if is_nan x then 0 else x.

(** ** A sample recording

    Silence with four bursts of amplitude 0.5 at 8 kHz: one during the lead-in
    (0.64 s), two 0.128 s apart (1.92 s and 2.048 s) and one at 2.56 s. *)

Definition silence (n : nat) : list float := repeat 0 n.
Definition burst (n : nat) : list float := repeat 0.5 n.

Definition demoSamples : list float :=
  silence 5120 ++ burst 2048 ++ silence 8192 ++ burst 512 ++ silence 512 ++
  burst 512 ++ silence 3584 ++ burst 2048 ++ silence 1024.

Definition demoAudio : AudioBuffer :=
  {| channelData0 := demoSamples; sampleRate := 8000 |}.

Definition demoNote (k : nat) (t : float) (h : HandType) : NoteData :=
  {| id := noteId k; time := t; lineIndex := innerLane h; lineLayer := 0;
     type := h; cutDirection := DOWN;
     hit := None; missed := None; hitTime := None |}.

Definition demoChart : list NoteData :=
  [ demoNote 1 (num 15360 / 8000) Right;
    demoNote 2 (num 16384 / 8000) Left;
    demoNote 3 (num 20480 / 8000) Right ].

(** A recording whose first sample is not a number. *)
Definition nanSamples : list float := nan :: repeat 0.25 2559.

Definition demoUrl : string := "/music/song.mp3".

(** A browser that delivers [audio], and one whose decoder rejects the data. *)
Definition demoBrowser (audio : AudioBuffer) : Browser :=
  {| Response := unit; ArrayBuffer := unit; AudioContext := unit;
     fetch := fun _ => Normal tt;
     arrayBuffer := fun _ => Normal tt;
     newAudioContext := Normal tt;
     decodeAudioData := fun _ _ => Normal audio |}.

Definition failingBrowser : Browser :=
  {| Response := unit; ArrayBuffer := unit; AudioContext := unit;
     fetch := fun _ => Normal tt;
     arrayBuffer := fun _ => Normal tt;
     newAudioContext := Normal tt;
     decodeAudioData := fun _ _ => Throw "EncodingError: Unable to decode audio data" |}.

(** The state between two iterations: consecutive notes are more than the
    minimal gap apart and alternate hands, no note carries a [hit], [missed]
    or [hitTime] property, and [lastNoteTime], [lastHand] are those of the
    last note. *)
Record Inv (st : LoopState) : Prop := {
  inv_adjacent : adjacent (fun a b => gapOk a b /\ handsDiffer a b) (notes st);
  inv_fresh : Forall (fun n => hit n = None /\ missed n = None /\ hitTime n = None)
                (notes st);
  inv_times : Forall (fun n => isNum (time n) = true) (notes st);
  inv_last : forall l a, notes st = l ++ [a] ->
             lastNoteTime st = time a /\ lastHand st = type a
}.

(** ** The placement constants of the game (constants.ts) *)

Definition LANE_WIDTH : float := 0.8.

Definition LANE_X_POSITIONS : list float :=
  [ -1.5 * LANE_WIDTH; -0.5 * LANE_WIDTH; 0.5 * LANE_WIDTH; 1.5 * LANE_WIDTH ].

Definition LAYER_Y_POSITIONS : list float := [0.8; 1.6; 2.4].

(** [a[i]] for a number [i] that is an integer: [undefined] out of range. *)
Definition readAt {A : Type} (a : list A) (i : Z) : option A :=
  if (i <? 0)%Z then None else nth_error a (Z.to_nat i).

(** ** Further statements about the notes of a pass *)

(** The three placements the generator makes. *)
Definition placed (n : NoteData) : Prop :=
  (cutDirection n = DOWN /\ lineIndex n = innerLane (type n) /\ lineLayer n = 0%Z) \/
  (cutDirection n = UP /\ lineIndex n = innerLane (type n) /\ lineLayer n = 0%Z) \/
  (cutDirection n = ANY /\ lineIndex n = outerLane (type n) /\ lineLayer n = 1%Z).

(** The hand of the note with number [j]: the first is on the left. *)
Definition handOfIndex (j : nat) : HandType := if Nat.even j then Left else Right.

(** What an iteration does to the notes, besides the histories: nothing, or
    one more note [n]. *)
Definition pushes (f : Frame) (st st' : LoopState) (n : NoteData) : Prop :=
  notes st' = notes st ++ [n] /\
  id n = noteId (nextId st) /\ time n = f_time f /\
  type n = opposite (lastHand st) /\ placed n /\
  (cutDirection n <> DOWN -> (f_time f - lastNoteTime st <? 0.22) = false) /\
  lastHand st' = type n /\ lastNoteTime st' = time n /\
  nextId st' = S (nextId st).

Definition skips (st st' : LoopState) : Prop :=
  notes st' = notes st /\ lastHand st' = lastHand st /\
  lastNoteTime st' = lastNoteTime st /\ nextId st' = nextId st.

(** What holds of the notes after [k] iterations at sample rate [rate]. *)
Record PassInv (rate : float) (k : nat) (st : LoopState) : Prop := {
  pi_next : nextId st = length (notes st);
  pi_hand : lastHand st = opposite (handOfIndex (length (notes st)));
  pi_last : forall l a, notes st = l ++ [a] -> lastNoteTime st = time a;
  pi_notes : forall j n, nth_error (notes st) j = Some n ->
             id n = noteId j /\ type n = handOfIndex j /\ placed n /\
             exists m, (m < k)%nat /\ time n = num (hopSize * Z.of_nat m) / rate;
  pi_isolated : adjacent (fun a b => cutDirection b <> DOWN ->
                            (time b - time a <? 0.22) = false) (notes st);
  pi_length : (length (notes st) <= k)%nat
}.

(** ** A second sample recording

    A tone at 8 kHz whose level rises twice, at 1.92 s from 0.1 to 0.12 and
    at 2.176 s to 0.19. *)

Definition stairSamples : list float :=
  repeat 0.1 15360 ++ repeat 0.12 2048 ++ repeat 0.19 3072.

Definition stairAudio : AudioBuffer :=
  {| channelData0 := stairSamples; sampleRate := 8000 |}.

Definition stairChart : list NoteData :=
  [ {| id := "note-0"; time := num 15360 / 8000; lineIndex := 0; lineLayer := 1;
       type := Left; cutDirection := ANY;
       hit := None; missed := None; hitTime := None |};
    {| id := "note-1"; time := num 17408 / 8000; lineIndex := 2; lineLayer := 0;
       type := Right; cutDirection := UP;
       hit := None; missed := None; hitTime := None |} ].

(** [+0], a positive number or [+Infinity]: what a sum of positive numbers
    that starts from [+0] is. *)
Definition plusNum (x : spec_float) : Prop :=
  match x with
  | S754_zero s | S754_infinity s | S754_finite s _ _ => s = false
  | S754_nan => False
  end.

(** The flux history between two iterations: numbers that are not negative,
    at most [historySize] of them. *)
Definition FluxInv (st : LoopState) : Prop :=
  Forall (fun x => plusNum (Prim2SF x)) (fluxHistory st) /\
  (length (fluxHistory st) <= historySize)%nat.

(** ** The measurements of the pass, frame by frame *)

(** The frame of iteration [k], [data.slice(i, i + windowSize)] at
    [i = k * hopSize], and what the loop computes from it. *)
Definition frameAt (data : list float) (k : nat) : list float :=
  slice data (hopSize * Z.of_nat k) (hopSize * Z.of_nat k + windowSize).

Definition rmsAt (data : list float) (k : nat) : float := rmsOf (frameAt data k).

Definition spectrumAt (data : list float) (k : nat) : list float :=
  spectrumOf (frameAt data k).

(** [prevSpectrum] when iteration [k] starts. *)
Definition prevSpectrumAt (data : list float) (k : nat) : option (list float) :=
  match k with
  | O => None
  | S k' => Some (spectrumAt data k')
  end.

Definition fluxAt (data : list float) (k : nat) : float :=
  fluxOf (spectrumAt data k) (prevSpectrumAt data k).

(** The last [historySize] of the frames before frame [k]. *)
Definition window (k : nat) : list nat :=
  seq (k - Nat.min k historySize) (Nat.min k historySize).

(** ** The scene: spawning and collision (GameScene.tsx, [useFrame]) *)

Definition SPAWN_Z : float := -30.
Definition PLAYER_Z : float := 0.
Definition MISS_Z : float := 5.
Definition NOTE_SPEED : float := 12.

(** A [THREE.Vector3]. *)
Record Vector3 : Set := mkVector3 { vx : float; vy : float; vz : float }.

(** [handPositionsRef.current]: each hand is a position or [null]. *)
Record HandPositions : Set := mkHands {
  handLeft : option Vector3;
  handRight : option Vector3
}.

(** The calls the scene makes to the callbacks of the application; a note is
    named by its position in [notesState]. *)
Inductive SceneCall : Set :=
| NoteHit (ref : nat) (goodCut : bool)
| NoteMiss (ref : nat)
| SongEnd.

(** The note objects of [notesState], which the chart shares with the scene;
    [activeNotesRef.current], whose entries are references to these objects
    (here their positions in [notesState]); [nextNoteIndexRef.current]; and
    the calls made so far, oldest first. The flash, the shake, the strips
    and [currentTime], which the two loops do not read, are left out. *)
Record SceneState : Set := mkScene {
  notesState : list NoteData;
  activeNotes : list nat;
  nextNoteIndex : nat;
  calls : list SceneCall
}.

(** The scene when a chart arrives (the effect on [chart]). *)
Definition sceneOf (chart : list NoteData) : SceneState :=
  {| notesState := chart; activeNotes := []; nextNoteIndex := 0; calls := [] |}.

(** A flag that may be absent, as a condition. *)
Definition flagSet (v : option bool) : bool :=
  match v with Some true => true | _ => false end.

(** [note.hit || note.missed]. *)
Definition resolved (n : NoteData) : bool := flagSet (hit n) || flagSet (missed n).

(** [undefined] in an arithmetic operation. *)
Definition toNumber (v : option float) : float :=
  match v with Some x => x | None => nan end.

(** [a.splice(i, 1)]. *)
Definition removeAt {A : Type} (i : nat) (a : list A) : list A :=
  firstn i a ++ skipn (S i) a.

(** Assignment to the object at position [ref]. *)
Fixpoint updateAt {A : Type} (f : A -> A) (ref : nat) (l : list A) : list A :=
  match l, ref with
  | [], _ => []
  | a :: l', O => f a :: l'
  | a :: l', S ref' => a :: updateAt f ref' l'
  end.

(** [note.missed = true]. *)
Definition setMissed (n : NoteData) : NoteData :=
  {| id := id n; time := time n; lineIndex := lineIndex n; lineLayer := lineLayer n;
     type := type n; cutDirection := cutDirection n;
     hit := hit n; missed := Some true; hitTime := hitTime n |}.

(** [note.hit = true; note.hitTime = time]. *)
Definition setHit (now : float) (n : NoteData) : NoteData :=
  {| id := id n; time := time n; lineIndex := lineIndex n; lineLayer := lineLayer n;
     type := type n; cutDirection := cutDirection n;
     hit := Some true; missed := missed n; hitTime := Some now |}.

Definition spawnAheadTime : float := abs (SPAWN_Z - PLAYER_Z) / NOTE_SPEED.

(** The spawn loop over the notes from [nextNoteIndex] on: a note that is due
    becomes active, and the first one that is not ends the loop. *)
Fixpoint spawnFrom (rest : list NoteData) (now : float) (active : list nat)
  (next : nat) : list nat * nat :=
  match rest with
  | [] => (active, next)
  | nextNote :: rest' =>
      if time nextNote - spawnAheadTime <=? now
      then spawnFrom rest' now (active ++ [next]) (S next)
      else (active, next)
  end.

Definition spawn (now : float) (sc : SceneState) : SceneState :=
  let '(active, next) :=
    spawnFrom (skipn (nextNoteIndex sc) (notesState sc)) now
      (activeNotes sc) (nextNoteIndex sc) in
  {| notesState := notesState sc; activeNotes := active;
     nextNoteIndex := next; calls := calls sc |}.

(** [PLAYER_Z - (note.time - time) * NOTE_SPEED]. *)
Definition currentZ (n : NoteData) (now : float) : float :=
  PLAYER_Z - (time n - now) * NOTE_SPEED.

(** [note.type === "left" ? hands.left : hands.right]. *)
Definition handOf (hands : HandPositions) (h : HandType) : option Vector3 :=
  match h with Left => handLeft hands | Right => handRight hands end.

Section Collision.

(** [Math.pow], whose results the language leaves to the implementation. *)
Variable Math_pow : float -> float -> float.

Definition distSq (handPos : Vector3) (n : NoteData) (now : float) : float :=
  let noteX := toNumber (readAt LANE_X_POSITIONS (lineIndex n)) in
  let noteY := toNumber (readAt LAYER_Y_POSITIONS (lineLayer n)) in
  Math_pow (vx handPos - noteX) 2 + Math_pow (vy handPos - noteY) 2 +
  Math_pow (vz handPos - currentZ n now) 2.

(** The body of the collision loop at position [i] of the active notes. *)
Definition visit (now : float) (hands : HandPositions) (i : nat) (sc : SceneState)
  : SceneState :=
  match nth_error (activeNotes sc) i with
  | None => sc
  | Some ref =>
    match nth_error (notesState sc) ref with
    | None => sc
    | Some note =>
      if resolved note then sc
      else if gtb (currentZ note now) MISS_Z then
        {| notesState := updateAt setMissed ref (notesState sc);
           activeNotes := removeAt i (activeNotes sc);
           nextNoteIndex := nextNoteIndex sc;
           calls := calls sc ++ [NoteMiss ref] |}
      else if gtb (currentZ note now) (PLAYER_Z - 1.2)
              && (currentZ note now <? PLAYER_Z + 1.2) then
        match handOf hands (type note) with
        | Some handPos =>
            if distSq handPos note now <? 1.5 then
              {| notesState := updateAt (setHit now) ref (notesState sc);
                 activeNotes := removeAt i (activeNotes sc);
                 nextNoteIndex := nextNoteIndex sc;
                 calls := calls sc ++ [NoteHit ref true] |}
            else sc
        | None => sc
        end
      else sc
    end
  end.

(** [for (let i = activeNotes.length - 1; i >= 0; i--)], entered with
    [count = i + 1]. *)
Fixpoint collide (now : float) (hands : HandPositions) (count : nat)
  (sc : SceneState) : SceneState :=
  match count with
  | O => sc
  | S i => collide now hands i (visit now hands i sc)
  end.

(** One call of the frame callback while the audio element exists:
    [playing] is [gameStatus === GameStatus.PLAYING], [ended] is
    [audioRef.current.ended] and [currentTime] the playback position, from
    which [time = audioRef.current?.currentTime || 0]. *)
Definition onFrame (playing ended : bool) (currentTime : float)
  (hands : HandPositions) (sc : SceneState) : SceneState :=
  let now := orZero (Some currentTime) in
  if negb playing then sc
  else if ended then
    {| notesState := notesState sc; activeNotes := activeNotes sc;
       nextNoteIndex := nextNoteIndex sc; calls := calls sc ++ [SongEnd] |}
  else
    let sc1 := spawn now sc in
    collide now hands (length (activeNotes sc1)) sc1.

(** A frame: the status, the state of the audio element and of the hands. *)
Record FrameInput : Set := mkInput {
  in_playing : bool; in_ended : bool; in_currentTime : float;
  in_hands : HandPositions
}.

Definition runFrames (frames : list FrameInput) (sc : SceneState) : SceneState :=
  fold_left (fun sc f => onFrame (in_playing f) (in_ended f) (in_currentTime f)
                           (in_hands f) sc) frames sc.

End Collision.

(** The notes named in the calls. *)
Definition noteRefs (cs : list SceneCall) : list nat :=
  flat_map (fun c => match c with
                     | NoteHit ref _ | NoteMiss ref => [ref]
                     | SongEnd => []
                     end) cs.

(** What a visit that changes the scene does: it resolves the note [ref] at
    position [i] of the active notes, which was not resolved, and reports
    it. *)
Definition resolves (now : float) (hands : HandPositions) (i ref : nat)
  (note : NoteData) (call : SceneCall) (change : NoteData -> NoteData)
  (sc sc' : SceneState) : Prop :=
  nth_error (activeNotes sc) i = Some ref /\
  nth_error (notesState sc) ref = Some note /\
  resolved note = false /\
  notesState sc' = updateAt change ref (notesState sc) /\
  activeNotes sc' = removeAt i (activeNotes sc) /\
  nextNoteIndex sc' = nextNoteIndex sc /\
  calls sc' = calls sc ++ [call] /\
  ((call = NoteMiss ref /\ change = setMissed /\
    gtb (currentZ note now) MISS_Z = true) \/
   (call = NoteHit ref true /\ change = setHit now /\
    gtb (currentZ note now) MISS_Z = false /\
    handOf hands (type note) <> None)).

(** The fields of a note that the generator chose. *)
Definition core (n : NoteData) : string * float * Z * Z * HandType * CutDirection :=
  (id n, time n, lineIndex n, lineLayer n, type n, cutDirection n).

(** The time a frame works with. *)
Definition frameTime (f : FrameInput) : float := orZero (Some (in_currentTime f)).

(** What a call says of the frame that made it. *)
Definition reportedIn (chart : list NoteData) (f : FrameInput) (call : SceneCall)
  : Prop :=
  in_playing f = true /\
  match call with
  | SongEnd => in_ended f = true
  | NoteMiss ref =>
      in_ended f = false /\
      exists n, nth_error chart ref = Some n /\ (time n <? frameTime f) = true
  | NoteHit ref goodCut =>
      in_ended f = false /\ goodCut = true /\
      exists n, nth_error chart ref = Some n /\
                handOf (in_hands f) (type n) <> None
  end.

(** What the frames keep true of a scene. *)
Record SceneInv (sc : SceneState) : Prop := {
  si_next : (nextNoteIndex sc <= length (notesState sc))%nat;
  si_nodup : NoDup (activeNotes sc ++ noteRefs (calls sc));
  si_spawned : forall ref, (ref < nextNoteIndex sc)%nat <->
                 In ref (activeNotes sc ++ noteRefs (calls sc));
  si_flags : forall ref n, nth_error (notesState sc) ref = Some n ->
     (flagSet (missed n) = true <-> In (NoteMiss ref) (calls sc)) /\
     (flagSet (hit n) = true <-> exists goodCut, In (NoteHit ref goodCut) (calls sc)) /\
     (flagSet (hit n) && flagSet (missed n) = false)
}.

(** ** Health (App.tsx) *)

(** [Math.min(a, b)]: NaN when an argument is, and [-0] below [+0]. *)
Definition Math_min (a b : float) : float :=
  if is_nan a || is_nan b then nan
  else if b <? a then b
  else if a <? b then a
  else if get_sign a then a else b.

(** The updater of [handleNoteHit], [(h) => Math.min(100, h + 2)]. *)
Definition healthAfterHit (h : float) : float := Math_min 100 (h + 2).

(** The updater of [handleNoteMiss]: the new health, and whether
    [endGame(false)] was scheduled. *)
Definition healthAfterMiss (h : float) : float * bool :=
  let newHealth := h - 15 in
  if newHealth <=? 0 then (0, true) else (newHealth, false).

(** The calls of [setHealth] during a game. *)
Inductive HealthUpdate : Set := AfterHit | AfterMiss.

(** The health after the updates of a game, in the order of the calls, from
    the [setHealth(100)] of [startGame], and the number of times the end of
    the game was scheduled. *)
Definition applyHealth (s : float * nat) (u : HealthUpdate) : float * nat :=
  match u with
  | AfterHit => (healthAfterHit (fst s), snd s)
  | AfterMiss =>
      let '(h, over) := healthAfterMiss (fst s) in
      (h, if over then S (snd s) else snd s)
  end.

Definition healthAfter (updates : list HealthUpdate) : float * nat :=
  fold_left applyHealth updates (100, 0%nat).

(** * Lemmas *)

(** ** Order of binary64 values *)

Section FloatOrder.

Local Open Scope Z_scope.

Lemma infKey_pos : 0 < infKey.
Proof. unfold infKey. apply Z.pow_pos_nonneg; [reflexivity | discriminate]. Qed.

Lemma digits2_pos_bounds (m : positive) :
  2 ^ (Z.pos (digits2_pos m) - 1) <= Z.pos m < 2 ^ Z.pos (digits2_pos m).
Proof.
  induction m as [m IH | m IH |]; simpl digits2_pos.
  - rewrite Pos2Z.inj_succ.
    replace (Z.succ (Z.pos (digits2_pos m)) - 1) with (Z.succ (Z.pos (digits2_pos m) - 1)) by lia.
    rewrite !Z.pow_succ_r by lia. lia.
  - rewrite Pos2Z.inj_succ.
    replace (Z.succ (Z.pos (digits2_pos m)) - 1) with (Z.succ (Z.pos (digits2_pos m) - 1)) by lia.
    rewrite !Z.pow_succ_r by lia. lia.
  - simpl. lia.
Qed.

Lemma bounded_inv (m : positive) (e : Z) :
  bounded prec emax m e = true ->
  -1074 <= e <= 971 /\ Z.pos (digits2_pos m) <= 53 /\
  (e = -1074 \/ Z.pos (digits2_pos m) = 53).
Proof.
  unfold bounded, canonical_mantissa, fexp, SpecFloat.emin, prec, emax.
  rewrite andb_true_iff, Z.eqb_eq, Z.leb_le. lia.
Qed.

Lemma mantissa_lt (m : positive) :
  Z.pos (digits2_pos m) <= 53 -> Z.pos m < 2 ^ 53.
Proof.
  intros Hd. pose proof (digits2_pos_bounds m) as [_ Hm].
  eapply Z.lt_le_trans; [exact Hm|]. apply Z.pow_le_mono_r; lia.
Qed.

Lemma finite_key_bounds (m : positive) (e : Z) :
  bounded prec emax m e = true ->
  0 < Z.pos m * 2 ^ (e + 1074) < infKey.
Proof.
  intros Hb. apply bounded_inv in Hb. destruct Hb as (He & Hd & _).
  pose proof (mantissa_lt m Hd) as H53.
  assert (Hp : 0 < 2 ^ (e + 1074)) by (apply Z.pow_pos_nonneg; lia).
  split; [apply Z.mul_pos_pos; [reflexivity | exact Hp]|].
  unfold infKey. change 2098 with (53 + 2045). rewrite (Z.pow_add_r 2 53 2045) by discriminate.
  apply Z.lt_le_trans with (2 ^ 53 * 2 ^ (e + 1074)).
  - apply Z.mul_lt_mono_pos_r; assumption.
  - apply Z.mul_le_mono_nonneg_l; [discriminate|].
    apply Z.pow_le_mono_r; lia.
Qed.

Lemma finite_key_lt (m1 m2 : positive) (e1 e2 : Z) :
  bounded prec emax m1 e1 = true -> bounded prec emax m2 e2 = true ->
  e1 < e2 -> Z.pos m1 * 2 ^ (e1 + 1074) < Z.pos m2 * 2 ^ (e2 + 1074).
Proof.
  intros H1 H2 Hlt.
  apply bounded_inv in H1, H2.
  destruct H1 as (He1 & Hd1 & _), H2 as (He2 & Hd2 & Hc2).
  assert (Hd : Z.pos (digits2_pos m2) = 53) by lia.
  pose proof (mantissa_lt m1 Hd1) as H53.
  pose proof (digits2_pos_bounds m2) as [Hm2 _]. rewrite Hd in Hm2.
  change (53 - 1) with 52 in Hm2.
  assert (Hp : 0 < 2 ^ (e1 + 1074)) by (apply Z.pow_pos_nonneg; lia).
  assert (Hle : 2 * 2 ^ (e1 + 1074) <= 2 ^ (e2 + 1074)).
  { rewrite <- Z.pow_succ_r by lia. apply Z.pow_le_mono_r; lia. }
  apply Z.lt_le_trans with (2 ^ 53 * 2 ^ (e1 + 1074)).
  - apply Z.mul_lt_mono_pos_r; assumption.
  - change (2 ^ 53) with (2 ^ 52 * 2). rewrite <- Z.mul_assoc.
    apply Z.mul_le_mono_nonneg; try assumption; [discriminate | lia].
Qed.

(** Comparison of two numbers of the same sign. *)
Lemma finite_compare (mx my : positive) (ex ey : Z) :
  bounded prec emax mx ex = true -> bounded prec emax my ey = true ->
  match ex ?= ey with
  | Eq => Pos.compare_cont Eq mx my
  | Lt => Lt
  | Gt => Gt
  end = (Z.pos mx * 2 ^ (ex + 1074) ?= Z.pos my * 2 ^ (ey + 1074)).
Proof.
  intros Vx Vy. symmetry.
  destruct (Z.compare_spec ex ey) as [E | L | G].
  - subst ey. rewrite Pos.compare_cont_spec. cbn [Pos.switch_Eq].
    assert (Hp : 0 < 2 ^ (ex + 1074)).
    { apply bounded_inv in Vx. apply Z.pow_pos_nonneg; lia. }
    destruct (Pos.compare_spec mx my) as [E | L | G].
    + subst my. apply Z.compare_refl.
    + apply Z.compare_lt_iff. apply Z.mul_lt_mono_pos_r; [exact Hp | lia].
    + apply Z.compare_gt_iff. apply Z.mul_lt_mono_pos_r; [exact Hp | lia].
  - apply Z.compare_lt_iff. exact (finite_key_lt _ _ _ _ Vx Vy L).
  - apply Z.compare_gt_iff. apply (finite_key_lt _ _ _ _ Vy Vx). lia.
Qed.

Lemma SFcompare_finite (sx sy : bool) (mx my : positive) (ex ey : Z) :
  bounded prec emax mx ex = true -> bounded prec emax my ey = true ->
  SFcompare (S754_finite sx mx ex) (S754_finite sy my ey) =
  Some (key (S754_finite sx mx ex) ?= key (S754_finite sy my ey)).
Proof.
  intros Vx Vy.
  pose proof (finite_key_bounds _ _ Vx) as Bx.
  pose proof (finite_key_bounds _ _ Vy) as By_.
  cbn [SFcompare key]. f_equal.
  destruct sx, sy; cbn [cond_Zopp].
  - rewrite Z.compare_opp, (Z.compare_antisym (Z.pos mx * 2 ^ (ex + 1074))).
    rewrite <- (finite_compare _ _ _ _ Vx Vy).
    destruct (ex ?= ey); reflexivity.
  - symmetry. apply Z.compare_lt_iff. lia.
  - symmetry. apply Z.compare_gt_iff. lia.
  - apply finite_compare; assumption.
Qed.

Lemma SFcompare_key (x y : spec_float) :
  valid_binary x = true -> valid_binary y = true ->
  is_nanSF x = false -> is_nanSF y = false ->
  SFcompare x y = Some (key x ?= key y).
Proof.
  intros Vx Vy Nx Ny. pose proof infKey_pos as Hinf.
  destruct x as [sx | sx | | sx mx ex]; try discriminate;
  destruct y as [sy | sy | | sy my ey]; try discriminate; simpl in Vx, Vy;
    try (apply SFcompare_finite; assumption);
    try pose proof (finite_key_bounds _ _ Vx) as Bx;
    try pose proof (finite_key_bounds _ _ Vy) as By_;
    cbn [SFcompare key]; f_equal.
  all: try (generalize dependent (Z.pos mx * 2 ^ (ex + 1074)); intros kx Bx).
  all: try (generalize dependent (Z.pos my * 2 ^ (ey + 1074)); intros ky By_).
  all: try (destruct sx; try destruct sy; cbn [cond_Zopp]; symmetry;
            first [ reflexivity
                  | apply Z.compare_lt_iff; lia
                  | apply Z.compare_gt_iff; lia ]).
  all: try (destruct sy; cbn [cond_Zopp]; symmetry;
            first [ reflexivity
                  | apply Z.compare_lt_iff; lia
                  | apply Z.compare_gt_iff; lia ]).
Qed.

Local Open Scope float_scope.

Lemma ltb_iff (x y : float) :
  (x <? y) = true <-> isNum x = true /\ isNum y = true /\ (fkey x < fkey y)%Z.
Proof.
  unfold isNum, fkey. rewrite ltb_spec. unfold SFltb.
  pose proof (Prim2SF_valid x) as Vx. pose proof (Prim2SF_valid y) as Vy.
  destruct (is_nanSF (Prim2SF x)) eqn:Nx.
  { destruct (Prim2SF x); try discriminate. simpl. intuition discriminate. }
  destruct (is_nanSF (Prim2SF y)) eqn:Ny.
  { destruct (Prim2SF y); try discriminate.
    destruct (Prim2SF x); simpl; intuition discriminate. }
  rewrite (SFcompare_key _ _ Vx Vy Nx Ny).
  destruct (Z.compare_spec (key (Prim2SF x)) (key (Prim2SF y)));
    simpl; intuition (try discriminate; try lia).
Qed.

Lemma leb_iff (x y : float) :
  (x <=? y) = true <-> isNum x = true /\ isNum y = true /\ (fkey x <= fkey y)%Z.
Proof.
  unfold isNum, fkey. rewrite leb_spec. unfold SFleb.
  pose proof (Prim2SF_valid x) as Vx. pose proof (Prim2SF_valid y) as Vy.
  destruct (is_nanSF (Prim2SF x)) eqn:Nx.
  { destruct (Prim2SF x); try discriminate. simpl. intuition discriminate. }
  destruct (is_nanSF (Prim2SF y)) eqn:Ny.
  { destruct (Prim2SF y); try discriminate.
    destruct (Prim2SF x); simpl; intuition discriminate. }
  rewrite (SFcompare_key _ _ Vx Vy Nx Ny).
  destruct (Z.compare_spec (key (Prim2SF x)) (key (Prim2SF y)));
    simpl; intuition (try discriminate; try lia).
Qed.

Lemma isNum_is_nan (x : float) : isNum x = negb (is_nan x).
Proof.
  unfold isNum, is_nan. rewrite eqb_spec. unfold SFeqb.
  destruct (is_nanSF (Prim2SF x)) eqn:N.
  - destruct (Prim2SF x); try discriminate. reflexivity.
  - rewrite (SFcompare_key _ _ (Prim2SF_valid x) (Prim2SF_valid x) N N).
    rewrite Z.compare_refl. reflexivity.
Qed.

Lemma ltb_trans (x y z : float) :
  (x <? y) = true -> (y <? z) = true -> (x <? z) = true.
Proof. rewrite !ltb_iff. intuition lia. Qed.

Lemma ltb_leb (x y : float) : (x <? y) = true -> (x <=? y) = true.
Proof. rewrite ltb_iff, leb_iff. intuition lia. Qed.

Lemma leb_not_gtb (x y : float) : (x <=? y) = true -> (y <? x) = false.
Proof.
  rewrite leb_iff. intros H. apply not_true_is_false. rewrite ltb_iff.
  intuition lia.
Qed.

(** A rounded result has the sign that was asked for. *)
Lemma binary_round_aux_sign (s : bool) (m e : Z) (l : location) :
  match binary_round_aux prec emax s m e l with
  | S754_zero s' | S754_infinity s' | S754_finite s' _ _ => s' = s
  | S754_nan => True
  end.
Proof.
  unfold binary_round_aux.
  destruct (shr_fexp prec emax m e l) as [mrs' e'].
  destruct (shr_fexp prec emax _ e' loc_Exact) as [mrs'' e''].
  destruct (shr_m mrs'') as [| p | p]; [reflexivity | | exact I].
  destruct (e'' <=? emax - prec)%Z; reflexivity.
Qed.

Lemma negative_key (x : spec_float) :
  match x with
  | S754_zero s' | S754_infinity s' | S754_finite s' _ _ => s' = true
  | S754_nan => True
  end -> (key x <= 0)%Z.
Proof.
  pose proof infKey_pos.
  destruct x as [s | s | | s m e]; cbn [key]; intros E; subst; cbn [cond_Zopp];
    lia.
Qed.

Lemma plus_key (x : spec_float) : plusOrNaN x -> (0 <= key x)%Z.
Proof.
  pose proof infKey_pos.
  destruct x as [s | s | | s m e]; cbn [key plusOrNaN]; intros E; subst;
    cbn [cond_Zopp]; lia.
Qed.

Lemma binary_normalize_key_pos (m e : Z) :
  (0 < key (binary_normalize prec emax m e false))%Z -> (0 < m)%Z.
Proof.
  unfold binary_normalize, binary_round.
  destruct m as [| p | p]; cbn zeta.
  - cbn. lia.
  - lia.
  - destruct (shl_align p e _) as [mz ez]. intros K.
    pose proof (binary_round_aux_sign true (Z.pos mz) ez loc_Exact) as S.
    apply negative_key in S. lia.
Qed.

Lemma shl_align_fst (m : positive) (e e' : Z) :
  (e' <= e)%Z -> Z.pos (fst (shl_align m e e')) = (Z.pos m * 2 ^ (e - e'))%Z.
Proof.
  intros H. unfold shl_align.
  destruct (e' - e)%Z as [| d | d] eqn:E; try lia.
  - replace (e - e')%Z with 0%Z by lia. simpl fst. rewrite Z.pow_0_r. lia.
  - simpl fst. change (Pos.iter xO m d) with (shift_pos d m).
    rewrite shift_pos_correct. replace (e - e')%Z with (Z.pos d) by lia.
    change (Z.pow_pos 2 d) with (2 ^ Z.pos d)%Z. lia.
Qed.

Lemma aligned_key (s : bool) (m : positive) (e ez : Z) :
  (-1074 <= ez <= e)%Z ->
  key (S754_finite s m e) =
  (cond_Zopp s (Z.pos (fst (shl_align m e ez))) * 2 ^ (ez + 1074))%Z.
Proof.
  intros H. rewrite shl_align_fst by lia. cbn [key].
  replace (e + 1074)%Z with ((e - ez) + (ez + 1074))%Z by lia.
  rewrite Z.pow_add_r by lia. destruct s; cbn [cond_Zopp]; lia.
Qed.

(** A difference that rounds to a positive number is a difference of a
    greater and a lesser number. *)
Lemma SFsub_key_pos (x y : spec_float) :
  valid_binary x = true -> valid_binary y = true ->
  (0 < key (SF64sub x y))%Z ->
  is_nanSF x = false /\ is_nanSF y = false /\ (key y < key x)%Z.
Proof.
  intros Vx Vy. pose proof infKey_pos as Hinf.
  destruct x as [sx | sx | | sx mx ex]; destruct y as [sy | sy | | sy my ey];
    simpl in Vx, Vy; unfold SF64sub; cbn [SFsub is_nanSF].
  16: { (* two finite numbers *)
    intros K. apply binary_normalize_key_pos in K.
    apply bounded_inv in Vx, Vy.
    rewrite (aligned_key sx mx ex (Z.min ex ey)) by lia.
    rewrite (aligned_key sy my ey (Z.min ex ey)) by lia.
    assert (0 < 2 ^ (Z.min ex ey + 1074))%Z by (apply Z.pow_pos_nonneg; lia).
    repeat split. apply Z.mul_lt_mono_pos_r; [assumption | lia]. }
  all: try pose proof (finite_key_bounds _ _ Vx) as Bx;
    try pose proof (finite_key_bounds _ _ Vy) as By_; cbn [key].
  all: try (generalize dependent (Z.pos mx * 2 ^ (ex + 1074))%Z; intros kx Bx).
  all: try (generalize dependent (Z.pos my * 2 ^ (ey + 1074))%Z; intros ky By_).
  all: try (destruct sx; try destruct sy;
            cbn [key cond_Zopp negb]; intros; repeat split; lia).
  all: try (destruct sy;
            cbn [key cond_Zopp negb]; intros; repeat split; lia).
  intros K. lia.
Qed.

Lemma sub_gtb_ltb (c x y : float) :
  (0 <= fkey c)%Z -> (c <? x - y) = true -> (y <? x) = true.
Proof.
  intros Hc H. apply ltb_iff in H. destruct H as (_ & _ & K).
  unfold fkey in *. rewrite sub_spec in K.
  destruct (SFsub_key_pos _ _ (Prim2SF_valid x) (Prim2SF_valid y)) as (Nx & Ny & L);
    [lia|].
  apply ltb_iff. unfold isNum, fkey. rewrite Nx, Ny. auto.
Qed.

End FloatOrder.

(** ** Rounding of a positive value *)

Section Rounding.

Local Open Scope Z_scope.

Lemma pow2_xO (p : positive) : 2 ^ Z.pos p~0 = 2 ^ Z.pos p * 2 ^ Z.pos p.
Proof.
  replace (Z.pos p~0) with (Z.pos p + Z.pos p) by lia.
  apply Z.pow_add_r; lia.
Qed.

Lemma pow2_xI (p : positive) : 2 ^ Z.pos p~1 = 2 * (2 ^ Z.pos p * 2 ^ Z.pos p).
Proof.
  replace (Z.pos p~1) with (1 + (Z.pos p + Z.pos p)) by lia.
  rewrite Z.pow_add_r, Z.pow_add_r by lia. reflexivity.
Qed.

Lemma pow2_pos (n : Z) : 0 <= n -> 0 < 2 ^ n.
Proof. intros H. apply Z.pow_pos_nonneg; lia. Qed.

Lemma shr_1_m (r : shr_record) : 0 <= shr_m r -> shr_m (shr_1 r) = shr_m r / 2.
Proof.
  destruct r as [m rb sb]. cbn [shr_m]. intros H. rewrite <- Z.div2_div.
  destruct m as [| [p | p |] | p]; cbn; try reflexivity. lia.
Qed.

Lemma shr_m_iter (p : positive) (r : shr_record) :
  0 <= shr_m r -> shr_m (iter_pos shr_1 p r) = shr_m r / 2 ^ Z.pos p.
Proof.
  revert r. induction p as [p IH | p IH |]; intros r H; cbn [iter_pos].
  - pose proof (pow2_pos (Z.pos p) ltac:(lia)) as Hp.
    assert (H1 : 0 <= shr_m (shr_1 r)).
    { rewrite shr_1_m by assumption. apply Z.div_pos; lia. }
    assert (H2 : 0 <= shr_m (iter_pos shr_1 p (shr_1 r))).
    { rewrite IH by assumption. apply Z.div_pos; assumption. }
    rewrite IH, IH, shr_1_m by assumption.
    rewrite !Z.div_div by lia. rewrite pow2_xI. reflexivity.
  - pose proof (pow2_pos (Z.pos p) ltac:(lia)) as Hp.
    assert (H1 : 0 <= shr_m (iter_pos shr_1 p r)).
    { rewrite IH by assumption. apply Z.div_pos; assumption. }
    rewrite IH, IH by assumption.
    rewrite Z.div_div by lia. rewrite pow2_xO. reflexivity.
  - rewrite shr_1_m by assumption. reflexivity.
Qed.

Lemma shr_record_of_loc_m (m : Z) (l : location) :
  shr_m (shr_record_of_loc m l) = m.
Proof. destruct l as [| []]; reflexivity. Qed.

(** Shifting to the canonical exponent divides the mantissa by a power of
    two and leaves it positive, when the exponent is not below the least
    one. *)
Lemma shr_fexp_pos (m e : Z) (l : location) :
  0 < m -> -1074 <= e ->
  exists n, 0 <= n /\
    snd (shr_fexp prec emax m e l) = e + n /\
    shr_m (fst (shr_fexp prec emax m e l)) = m / 2 ^ n /\
    0 < m / 2 ^ n.
Proof.
  intros Hm He. unfold shr_fexp, shr.
  destruct m as [| p | p]; try lia. cbn [Zdigits2].
  destruct (fexp prec emax (Z.pos (digits2_pos p) + e) - e) as [| n | n] eqn:E.
  - exists 0. cbn [fst snd]. rewrite shr_record_of_loc_m, Z.pow_0_r, Z.div_1_r.
    repeat split; lia.
  - exists (Z.pos n). cbn [fst snd].
    rewrite shr_m_iter by (rewrite shr_record_of_loc_m; lia).
    rewrite shr_record_of_loc_m. repeat split; try lia.
    apply Z.div_str_pos. split; [apply pow2_pos; lia|].
    pose proof (digits2_pos_bounds p) as [Hlow _].
    eapply Z.le_trans; [|exact Hlow].
    apply Z.pow_le_mono_r; [lia|].
    revert E. unfold fexp, SpecFloat.emin, prec, emax. lia.
  - exists 0. cbn [fst snd]. rewrite shr_record_of_loc_m, Z.pow_0_r, Z.div_1_r.
    repeat split; lia.
Qed.

Lemma round_nearest_even_ge (m : Z) (l : location) : m <= round_nearest_even m l.
Proof.
  destruct l as [| []]; cbn [round_nearest_even]; try lia.
  destruct (Z.even m); lia.
Qed.

(** Rounding a positive value (round to nearest even): the result is a
    positive number or [+Infinity], and its mantissa is not less than the
    truncation of the value at its exponent. *)
Lemma binary_round_aux_pos (m e : Z) (l : location) :
  0 < m -> -1074 <= e ->
  exists m3 e3, e <= e3 /\ m / 2 ^ (e3 - e) <= Z.pos m3 /\
    binary_round_aux prec emax false m e l =
    if e3 <=? emax - prec then S754_finite false m3 e3 else S754_infinity false.
Proof.
  intros Hm He. unfold binary_round_aux.
  destruct (shr_fexp_pos m e l Hm He) as (n1 & Hn1 & E1 & M1 & P1).
  destruct (shr_fexp prec emax m e l) as [r1 e1]. cbn [fst snd] in *.
  pose proof (round_nearest_even_ge (shr_m r1) (loc_of_shr_record r1)) as Hr.
  set (m2 := round_nearest_even (shr_m r1) (loc_of_shr_record r1)) in *.
  assert (Hm2 : 0 < m2) by lia.
  assert (He1 : -1074 <= e1) by lia.
  destruct (shr_fexp_pos m2 e1 loc_Exact Hm2 He1) as (n2 & Hn2 & E2 & M2 & P2).
  destruct (shr_fexp prec emax m2 e1 loc_Exact) as [r2 e2]. cbn [fst snd] in *.
  rewrite M2. destruct (m2 / 2 ^ n2) as [| m3 | m3] eqn:E3; try lia.
  exists m3, e2. repeat split; try lia.
  rewrite <- E3. subst e2 e1.
  replace (e + n1 + n2 - e) with (n1 + n2) by lia.
  rewrite Z.pow_add_r by assumption.
  rewrite <- Z.div_div by (try apply pow2_pos; try assumption;
                           apply Z.neq_sym, Z.lt_neq, pow2_pos; assumption).
  apply Z.div_le_mono; [apply pow2_pos; assumption|]. lia.
Qed.

End Rounding.

(** ** A sum is not less than its positive term, a quotient is positive *)

Section SumAndQuotient.

Local Open Scope Z_scope.

Lemma shl_align_value (m : positive) (e e' : Z) :
  -1074 <= e -> -1074 <= e' ->
  Z.pos (fst (shl_align m e e')) * 2 ^ (snd (shl_align m e e') + 1074) =
    Z.pos m * 2 ^ (e + 1074) /\
  -1074 <= snd (shl_align m e e').
Proof.
  intros He He'. unfold shl_align.
  destruct (e' - e) as [| d | d] eqn:E; cbn [fst snd]; try (split; [reflexivity | lia]).
  split; [|lia].
  change (Pos.iter xO m d) with (shift_pos d m). rewrite shift_pos_correct.
  change (Z.pow_pos 2 d) with (2 ^ Z.pos d).
  replace (e + 1074) with (Z.pos d + (e' + 1074)) by lia.
  rewrite (Z.pow_add_r 2 (Z.pos d)) by lia. ring.
Qed.

Lemma fexp_ge (x : Z) : -1074 <= fexp prec emax x.
Proof. unfold fexp, SpecFloat.emin, prec, emax. lia. Qed.

(** The key of a rounded positive value [m * 2^e] is at least the key of any
    number below the value. *)
Lemma binary_round_aux_lower (m : positive) (e : Z) (l : location)
  (my : positive) (ey : Z) :
  -1074 <= e ->
  bounded prec emax my ey = true ->
  valid_binary (binary_round_aux prec emax false (Z.pos m) e l) = true ->
  Z.pos my * 2 ^ (ey + 1074) <= Z.pos m * 2 ^ (e + 1074) ->
  is_nanSF (binary_round_aux prec emax false (Z.pos m) e l) = false /\
  Z.pos my * 2 ^ (ey + 1074) <= key (binary_round_aux prec emax false (Z.pos m) e l).
Proof.
  intros He By_ Vr Hle.
  destruct (binary_round_aux_pos (Z.pos m) e l ltac:(lia) He) as (m3 & e3 & He3 & Hm3 & R).
  rewrite R in *. clear R.
  pose proof (finite_key_bounds _ _ By_) as Ky.
  destruct (e3 <=? emax - prec); cbn [key cond_Zopp is_nanSF]; [|split; [reflexivity | lia]].
  split; [reflexivity|]. cbn [valid_binary] in Vr.
  destruct (Z.le_gt_cases e3 ey) as [L | G].
  - assert (Ey : -1074 <= ey) by (apply bounded_inv in By_; lia).
    replace (ey + 1074) with ((ey - e3) + (e3 + 1074)) by lia.
    rewrite (Z.pow_add_r 2 (ey - e3) (e3 + 1074)), Z.mul_assoc by lia.
    apply Z.mul_le_mono_nonneg_r; [apply Z.pow_nonneg; lia|].
    eapply Z.le_trans; [|exact Hm3].
    apply Z.div_le_lower_bound; [apply pow2_pos; lia|].
    apply (Z.mul_le_mono_pos_r _ _ (2 ^ (e + 1074))); [apply pow2_pos; lia|].
    eapply Z.le_trans; [|exact Hle].
    replace (ey + 1074) with ((e3 - e) + (ey - e3) + (e + 1074)) by lia.
    rewrite (Z.pow_add_r 2 (e3 - e + (ey - e3)) (e + 1074)) by lia.
    rewrite (Z.pow_add_r 2 (e3 - e) (ey - e3)) by lia.
    apply Z.eq_le_incl. ring.
  - apply Z.lt_le_incl. apply finite_key_lt; assumption.
Qed.

Lemma SFadd_lower (x y : spec_float) :
  valid_binary x = true -> valid_binary y = true ->
  valid_binary (SF64add x y) = true ->
  plusOrNaN x -> is_nanSF x = false ->
  plusOrNaN y -> is_nanSF y = false ->
  is_nanSF (SF64add x y) = false /\ key y <= key (SF64add x y).
Proof.
  intros Vx Vy Vr Px Nx Py Ny. pose proof infKey_pos as Hinf.
  destruct x as [sx | sx | | sx mx ex]; try discriminate;
    destruct y as [sy | sy | | sy my ey]; try discriminate;
    cbn [plusOrNaN] in Px, Py; subst; cbn [valid_binary] in Vx, Vy;
    try pose proof (finite_key_bounds _ _ Vy) as Ky;
    try (unfold SF64add; cbn [SFadd key cond_Zopp is_nanSF]; split; [reflexivity | lia]).
  (* two positive numbers *)
  unfold SF64add, SFadd, binary_normalize, binary_round in *.
  cbn [cond_Zopp Z.add] in *.
  set (ez := Z.min ex ey) in *.
  set (q := (fst (shl_align mx ex ez) + fst (shl_align my ey ez))%positive) in *.
  assert (Hez : -1074 <= ez <= ex /\ ez <= ey).
  { apply bounded_inv in Vx, Vy. unfold ez. lia. }
  destruct (shl_align_value q ez (fexp prec emax (Z.pos (digits2_pos q) + ez))
              ltac:(lia) (fexp_ge _)) as [Hval Hez'].
  destruct (shl_align q ez _) as [mz ez']. cbn [fst snd] in *.
  cbn [key cond_Zopp].
  apply binary_round_aux_lower; try assumption.
  rewrite Hval. unfold q. rewrite Pos2Z.inj_add, Z.mul_add_distr_r.
  pose proof (aligned_key false my ey ez ltac:(lia)) as Ay.
  cbn [key cond_Zopp] in Ay. rewrite <- Ay.
  assert (0 <= Z.pos (fst (shl_align mx ex ez)) * 2 ^ (ez + 1074)); [|lia].
  apply Z.mul_nonneg_nonneg; [lia | apply Z.pow_nonneg; lia].
Qed.

(** The quotient of a number of at least [2^-5] by a positive number of at
    most [2^53] is positive or [+Infinity]. *)
Lemma SFdiv_pos (mx my : positive) (ex ey : Z) :
  bounded prec emax mx ex = true -> bounded prec emax my ey = true ->
  -57 <= ex -> ey <= 0 ->
  is_nanSF (SF64div (S754_finite false mx ex) (S754_finite false my ey)) = false /\
  0 < key (SF64div (S754_finite false mx ex) (S754_finite false my ey)).
Proof.
  intros Vx Vy Hex Hey. unfold SF64div, SFdiv, SFdiv_core_binary. cbn [xorb Zdigits2].
  apply bounded_inv in Vx, Vy.
  destruct Vx as (Bx & Dx & Cx), Vy as (By_ & Dy & _).
  assert (Hdx : Z.pos (digits2_pos mx) = 53) by lia.
  set (dy := Z.pos (digits2_pos my)) in *.
  assert (Hdy : 0 < dy) by (unfold dy; lia).
  rewrite Hdx.
  assert (He' : Z.min (fexp prec emax (53 + ex - (dy + ey))) (ex - ey) = ex - ey - dy).
  { unfold fexp, SpecFloat.emin, prec, emax. lia. }
  rewrite He'.
  replace (ex - ey - (ex - ey - dy)) with dy by lia.
  destruct dy as [| d | d] eqn:Ed; try lia.
  rewrite Z.shiftl_mul_pow2 by lia.
  change (Z.div_eucl (Z.pos mx * 2 ^ Z.pos d) (Z.pos my))
    with (Z.div_eucl (Z.pos mx * 2 ^ Z.pos d) (Z.pos my)).
  pose proof (Z_div_mod (Z.pos mx * 2 ^ Z.pos d) (Z.pos my) ltac:(lia)) as Hdiv.
  destruct (Z.div_eucl (Z.pos mx * 2 ^ Z.pos d) (Z.pos my)) as [q r].
  destruct Hdiv as [Hq Hr].
  assert (Hqpos : 0 < q).
  { pose proof (digits2_pos_bounds my) as [_ Hmy]. fold dy in Hmy. rewrite Ed in Hmy.
    assert (Z.pos my <= Z.pos mx * 2 ^ Z.pos d).
    { apply Z.le_trans with (1 * 2 ^ Z.pos d); [lia|].
      apply Z.mul_le_mono_nonneg_r; [apply Z.pow_nonneg; lia | lia]. }
    destruct (Z.le_gt_cases q 0) as [Hq0 | ]; [|lia].
    assert (Z.pos my * q <= 0) by (apply Z.mul_nonneg_nonpos; lia). lia. }
  destruct (binary_round_aux_pos q (ex - ey - Z.pos d) (new_location (Z.pos my) r)
              Hqpos ltac:(lia)) as (m3 & e3 & He3 & _ & R).
  rewrite R. pose proof infKey_pos.
  destruct (e3 <=? emax - prec); cbn [key cond_Zopp is_nanSF]; split;
    try reflexivity; lia.
Qed.

(** A square root is [+0], [-0], a positive number, [+Infinity] or NaN. *)
Lemma SFsqrt_root (x : spec_float) : rootOrNaN (SF64sqrt x).
Proof.
  unfold SF64sqrt, SFsqrt.
  destruct x as [s | [] | | [] m e]; cbn [rootOrNaN]; auto.
  destruct (SFsqrt_core_binary prec emax (Z.pos m) e) as [[mz ez] lz].
  pose proof (binary_round_aux_sign false mz ez lz) as S.
  destruct (binary_round_aux prec emax false mz ez lz); cbn [rootOrNaN]; auto.
Qed.

End SumAndQuotient.

(** ** A quotient of finite numbers is a number *)

Section QuotientIsNumber.

Local Open Scope Z_scope.

Lemma shr_fexp_nonneg (m e : Z) (l : location) :
  0 <= m -> 0 <= shr_m (fst (shr_fexp prec emax m e l)).
Proof.
  intros Hm. unfold shr_fexp, shr.
  destruct (fexp prec emax (Zdigits2 m + e) - e) as [| n | n]; cbn [fst];
    try (rewrite shr_record_of_loc_m; exact Hm).
  rewrite shr_m_iter by (rewrite shr_record_of_loc_m; exact Hm).
  rewrite shr_record_of_loc_m. apply Z.div_pos; [exact Hm | apply pow2_pos; lia].
Qed.

Lemma binary_round_aux_num (s : bool) (m e : Z) (l : location) :
  0 <= m -> is_nanSF (binary_round_aux prec emax s m e l) = false.
Proof.
  intros Hm. unfold binary_round_aux.
  pose proof (shr_fexp_nonneg m e l Hm) as H1.
  destruct (shr_fexp prec emax m e l) as [r1 e1]. cbn [fst] in H1.
  pose proof (round_nearest_even_ge (shr_m r1) (loc_of_shr_record r1)) as Hr.
  pose proof (shr_fexp_nonneg (round_nearest_even (shr_m r1) (loc_of_shr_record r1))
                e1 loc_Exact ltac:(lia)) as H2.
  destruct (shr_fexp prec emax _ e1 loc_Exact) as [r2 e2]. cbn [fst] in H2.
  destruct (shr_m r2) as [| p | p]; try lia; [reflexivity|].
  destruct (e2 <=? emax - prec); reflexivity.
Qed.

(** The quotient of two finite non-zero numbers is a number. *)
Lemma SFdiv_finite_num (sx sy : bool) (mx my : positive) (ex ey : Z) :
  is_nanSF (SF64div (S754_finite sx mx ex) (S754_finite sy my ey)) = false.
Proof.
  unfold SF64div, SFdiv, SFdiv_core_binary.
  set (m' := match _ - _ - _ with Z.pos _ => _ | Z0 => _ | Z.neg _ => _ end).
  assert (Hm' : 0 <= m').
  { unfold m'. destruct (_ - _ - _); try lia. apply Z.shiftl_nonneg. lia. }
  assert (Hq : 0 <= fst (Z.div_eucl m' (Z.pos my))).
  { change (fst (Z.div_eucl m' (Z.pos my))) with (m' / Z.pos my).
    apply Z.div_pos; lia. }
  destruct (Z.div_eucl m' (Z.pos my)) as [q r]. cbn [fst] in Hq.
  apply binary_round_aux_num, Hq.
Qed.

End QuotientIsNumber.

(** ** The mean of the rms history on an accepted frame *)

Lemma SFadd_plus_root (x y : spec_float) :
  plusOrNaN x -> rootOrNaN y -> plusOrNaN (SF64add x y).
Proof.
  destruct x as [sx | sx | | sx mx ex], y as [sy | sy | | sy my ey];
    cbn [plusOrNaN rootOrNaN]; intros Hx Hy; subst; try destruct sy; cbn; auto.
  unfold binary_round.
  destruct (shl_align _ _ _) as [mz ez].
  pose proof (binary_round_aux_sign false (Z.pos mz) ez loc_Exact) as H.
  destruct (binary_round_aux _ _ _ _ _ _); cbn; auto.
Qed.

Lemma plus_is_root (x : spec_float) : plusOrNaN x -> rootOrNaN x.
Proof. destruct x; cbn; auto. Qed.

Lemma rmsOf_root (frame : list float) : rootOrNaN (Prim2SF (rmsOf frame)).
Proof. unfold rmsOf. rewrite sqrt_spec. apply SFsqrt_root. Qed.

Lemma sum_plus (h : list float) (acc : float) :
  Forall (fun r => rootOrNaN (Prim2SF r)) h -> plusOrNaN (Prim2SF acc) ->
  plusOrNaN (Prim2SF (fold_left add h acc)).
Proof.
  intros H. revert acc. induction H as [| r h Hr _ IH]; intros acc Hacc; cbn [fold_left].
  - exact Hacc.
  - apply IH. rewrite add_spec. apply SFadd_plus_root; assumption.
Qed.

Lemma add_isNum (x y : float) : isNum (x + y) = true -> isNum x = true /\ isNum y = true.
Proof.
  unfold isNum. rewrite add_spec. unfold SF64add.
  destruct (Prim2SF x) as [[]|[]| |? ? ?], (Prim2SF y) as [[]|[]| |? ? ?];
    cbn [SFadd is_nanSF negb]; auto.
Qed.

Lemma div_isNum (x y : float) : isNum (x / y) = true -> isNum x = true /\ isNum y = true.
Proof.
  unfold isNum. rewrite div_spec. unfold SF64div.
  destruct (Prim2SF x) as [[]|[]| |? ? ?], (Prim2SF y) as [[]|[]| |? ? ?];
    cbn [SFdiv is_nanSF negb]; auto.
Qed.

Lemma mul_isNum (x y : float) : isNum (x * y) = true -> isNum x = true /\ isNum y = true.
Proof.
  unfold isNum. rewrite mul_spec. unfold SF64mul.
  destruct (Prim2SF x) as [[]|[]| |? ? ?], (Prim2SF y) as [[]|[]| |? ? ?];
    cbn [SFmul is_nanSF negb]; auto.
Qed.

Lemma num_small (n : nat) : (1 <= n <= 50)%nat -> smallCount n = true.
Proof.
  intros H.
  assert (A : forallb smallCount (seq 1 50) = true) by (vm_compute; reflexivity).
  rewrite forallb_forall in A. apply A, in_seq. lia.
Qed.

Lemma pushHistory_snoc (P : float -> Prop) (h : list float) (x : float) :
  Forall P h -> P x -> (length h <= historySize)%nat ->
  exists h0, pushHistory h x = h0 ++ [x] /\ Forall P h0 /\
             (1 <= length (pushHistory h x) <= historySize)%nat.
Proof.
  intros Hh Hx Hlen. unfold pushHistory.
  rewrite length_app, Nat.add_1_r.
  destruct (Nat.ltb_spec historySize (S (length h))) as [L | L].
  - destruct h as [| y h]; [cbn in L; unfold historySize in L; lia|].
    exists h. cbn [app tl]. rewrite length_app, Nat.add_1_r.
    inversion Hh; subst. cbn [length] in *. repeat split; auto; lia.
  - exists h. rewrite length_app, Nat.add_1_r. repeat split; auto; lia.
Qed.

Lemma positive_plus (x : spec_float) :
  rootOrNaN x -> (0 < key x)%Z -> plusOrNaN x /\ is_nanSF x = false.
Proof.
  destruct x as [s | s | | s m e]; cbn [rootOrNaN plusOrNaN key is_nanSF];
    intros R K; auto; lia.
Qed.

(** The threshold of the first hard gate. *)
Lemma gate_value : Prim2SF 0.06 = S754_finite false 8646911284551352 (-57).
Proof. vm_compute. reflexivity. Qed.

Lemma average_positive (h0 : list float) (x : float) :
  Forall (fun r => rootOrNaN (Prim2SF r)) h0 ->
  rootOrNaN (Prim2SF x) ->
  (1 <= length (h0 ++ [x]) <= 50)%nat ->
  (fkey 0.06 <= fkey x)%Z ->
  isNum (average (h0 ++ [x])) = true ->
  (0 < fkey (average (h0 ++ [x])))%Z /\ (fkey x <= fkey (sum (h0 ++ [x])))%Z.
Proof.
  intros Hh Hx Hlen Hge Hnum.
  unfold average in *. apply div_isNum in Hnum. destruct Hnum as [NS _].
  pose proof (num_small _ Hlen) as Hn. unfold smallCount in Hn.
  set (n := num (Z.of_nat (length (h0 ++ [x])))) in *.
  pose proof (Prim2SF_valid n) as Vn.
  assert (S : sum (h0 ++ [x]) = sum h0 + x).
  { unfold sum. rewrite fold_left_app. reflexivity. }
  rewrite S in *. apply add_isNum in NS. destruct NS as [NP Nx].
  assert (K06 : (0 < fkey 0.06)%Z).
  { unfold fkey. rewrite gate_value. cbn [key cond_Zopp]. lia. }
  destruct (positive_plus _ Hx ltac:(unfold fkey in *; lia)) as [Px _].
  assert (PP : plusOrNaN (Prim2SF (sum h0))) by (apply sum_plus; [assumption | exact eq_refl]).
  unfold isNum in NP, Nx. apply negb_true_iff in NP, Nx.
  destruct (SFadd_lower _ _ (Prim2SF_valid (sum h0)) (Prim2SF_valid x)
              ltac:(rewrite <- add_spec; apply Prim2SF_valid) PP NP Px Nx) as [NS LS].
  unfold fkey in *. rewrite div_spec, add_spec.
  split; [|exact LS].
  pose proof (SFadd_plus_root _ _ PP Hx) as PS.
  assert (VS : valid_binary (SF64add (Prim2SF (sum h0)) (Prim2SF x)) = true)
    by (rewrite <- add_spec; apply Prim2SF_valid).
  destruct (SF64add (Prim2SF (sum h0)) (Prim2SF x)) as [s | s | | s mS eS];
    try discriminate; cbn [plusOrNaN] in PS; subst s.
  - cbn [key] in LS. lia.
  - destruct (Prim2SF n) as [| | | [] mn en]; try discriminate.
    cbn. apply infKey_pos.
  - destruct (Prim2SF n) as [| | | [] mn en]; try discriminate.
    apply Z.leb_le in Hn. cbn [valid_binary] in VS, Vn.
    apply SFdiv_pos; try assumption.
    destruct (Z.le_gt_cases (-57) eS) as [L | G]; [exact L|].
    exfalso. rewrite gate_value in Hge. cbn [key cond_Zopp] in LS, Hge.
    assert (B06 : bounded prec emax 8646911284551352 (-57) = true) by reflexivity.
    pose proof (finite_key_lt _ _ _ _ VS B06 ltac:(lia)). lia.
Qed.

Lemma sub_isNum (x y : float) :
  isNum (x - y) = true -> isNum x = true /\ isNum y = true.
Proof.
  unfold isNum. rewrite sub_spec. unfold SF64sub.
  destruct (Prim2SF x) as [[]|[]| |? ? ?], (Prim2SF y) as [[]|[]| |? ? ?];
    cbn [SFsub is_nanSF negb]; auto.
Qed.

Lemma not_gtb_leb (x y : float) :
  isNum x = true -> isNum y = true -> gtb x y = false -> (x <=? y) = true.
Proof.
  unfold gtb. intros Nx Ny H. apply leb_iff. repeat split; try assumption.
  destruct (Z.le_gt_cases (fkey x) (fkey y)) as [L | G]; [exact L|].
  assert (T : (y <? x) = true) by (apply ltb_iff; auto).
  congruence.
Qed.

(** ** The analysis loop *)

Section LoopFacts.

Variables (data : list float) (sampleRate : float).

(** The loop bound of [runLoop] is never reached. *)
Lemma loop_total (fuel : nat) (i : Z) (st : LoopState) :
  (Z.of_nat (length data) - windowSize - i <= Z.of_nat fuel * hopSize)%Z ->
  exists st', loop fuel data sampleRate i st = Some st'.
Proof.
  revert i st. induction fuel as [| fuel IH]; intros i st H; cbn [loop].
  - destruct (Z.ltb_spec i (Z.of_nat (length data) - windowSize)); [|eauto].
    unfold hopSize in H. lia.
  - destruct (Z.ltb_spec i (Z.of_nat (length data) - windowSize)); [|eauto].
    apply IH. unfold hopSize in *. lia.
Qed.

(** When the loop condition fails the state is the result. *)
Lemma loop_exit (fuel : nat) (i : Z) (st : LoopState) :
  (Z.of_nat (length data) - windowSize <= i)%Z ->
  loop fuel data sampleRate i st = Some st.
Proof.
  intros H. destruct fuel; cbn [loop];
    destruct (Z.ltb_spec i (Z.of_nat (length data) - windowSize)); (reflexivity || lia).
Qed.

Lemma runLoop_total : exists st, runLoop data sampleRate = Some st.
Proof.
  apply loop_total. unfold windowSize, hopSize. lia.
Qed.

(** A property of the initial state that every iteration keeps holds of the
    state the loop ends in. *)
Lemma loop_invariant (P : LoopState -> Prop) :
  (forall i st, P st -> P (step data sampleRate i st)) ->
  forall fuel i st st',
    P st -> loop fuel data sampleRate i st = Some st' -> P st'.
Proof.
  intros Hstep. induction fuel as [| fuel IH]; intros i st st' HP; cbn [loop];
    destruct (i <? Z.of_nat (length data) - windowSize)%Z; intros E;
    try discriminate; try (injection E as <-; exact HP).
  eapply IH; [|exact E]. apply Hstep, HP.
Qed.

End LoopFacts.

(** ** What every iteration keeps *)

Lemma nth_error_last_snoc (l : list NoteData) (a : NoteData) :
  nth_error l (pred (length l)) = Some a -> exists l', l = l' ++ [a].
Proof.
  intros H.
  assert (Hne : l <> []) by (intros ->; discriminate).
  destruct (exists_last Hne) as (l' & y & Hl). subst l.
  rewrite length_app, Nat.add_1_r in H. cbn [pred] in H.
  rewrite nth_error_app2, Nat.sub_diag in H by lia.
  injection H as ->. eauto.
Qed.

Lemma adjacent_snoc (R : NoteData -> NoteData -> Prop) (l : list NoteData)
  (n : NoteData) :
  adjacent R l -> (forall l' a, l = l' ++ [a] -> R a n) ->
  adjacent R (l ++ [n]).
Proof.
  intros Hl Hlast i a b Ha Hb.
  destruct (Nat.lt_ge_cases (S i) (length l)) as [Hlt | Hge].
  - rewrite nth_error_app1 in Ha, Hb by lia. eauto.
  - assert (Hi : S i = length l).
    { assert (Hlt : (S i < length (l ++ [n]))%nat)
        by (apply nth_error_Some; rewrite Hb; discriminate).
      rewrite length_app in Hlt. cbn in Hlt. lia. }
    rewrite nth_error_app1 in Ha by lia.
    rewrite nth_error_app2, Hi, Nat.sub_diag in Hb by lia. injection Hb as <-.
    replace i with (pred (length l)) in Ha by lia.
    destruct (nth_error_last_snoc _ _ Ha) as (l' & ->). eauto.
Qed.

Lemma adjacent_tl (R : NoteData -> NoteData -> Prop) (a : NoteData)
  (l : list NoteData) : adjacent R (a :: l) -> adjacent R l.
Proof. intros H i x y Hx Hy. exact (H (S i) x y Hx Hy). Qed.

Lemma adjacent_skipn (R : NoteData -> NoteData -> Prop) (k : nat)
  (l : list NoteData) : adjacent R l -> adjacent R (skipn k l).
Proof.
  revert l. induction k as [| k IH]; intros l H; [exact H|].
  destruct l as [| a l]; [exact H|]. cbn [skipn]. eauto using adjacent_tl.
Qed.

Lemma adjacent_impl (R S : NoteData -> NoteData -> Prop) (l : list NoteData) :
  (forall a b, R a b -> S a b) -> adjacent R l -> adjacent S l.
Proof. intros HRS H i a b Ha Hb. eauto. Qed.

(** The hand of a new note is never the hand of the note before it, in both
    branches of the classification. *)
Lemma classify_alternates (isStream : bool) (intensity : float) (h : HandType) :
  fst (fst (fst (classify isStream intensity h))) <> h.
Proof.
  unfold classify.
  destruct isStream, h, (gtb intensity 1.4), (gtb intensity 2.0),
    (gtb intensity 1.3); cbn; discriminate.
Qed.

Lemma Inv_init : Inv initState.
Proof.
  split; cbn.
  - intros [|i] a b; discriminate.
  - constructor.
  - constructor.
  - intros [|x l] a; discriminate.
Qed.

Lemma accepted_gap (f : Frame) (t : float) :
  accepted f t = true -> gtb (f_time f - t) MIN_NOTE_GAP = true.
Proof.
  unfold accepted.
  destruct (f_rms f <? 0.06); [discriminate|].
  destruct (f_flux f <? f_rms f * 0.6); [discriminate|].
  rewrite !andb_true_iff. tauto.
Qed.

Lemma Inv_step (data : list float) (sampleRate : float) (i : Z) (st : LoopState) :
  Inv st -> Inv (step data sampleRate i st).
Proof.
  intros [Hadj Hfresh Htimes Hlast]. unfold step, measure.
  set (f := mkFrame _ _ _ _ _). cbn [lastNoteTime].
  destruct (accepted f (lastNoteTime st)) eqn:Hacc.
  2: { split; cbn; assumption. }
  apply accepted_gap in Hacc.
  unfold emit. cbn [lastNoteTime lastHand notes nextId].
  pose proof (classify_alternates (f_time f - lastNoteTime st <? 0.22)
                (f_rms f / f_avgEnergy f) (lastHand st)) as Halt.
  destruct (classify _ _ _) as [[[ty dir] li] ll]. cbn [fst] in Halt.
  split; cbn [notes lastNoteTime lastHand].
  - apply adjacent_snoc; [exact Hadj|].
    intros l' a E. destruct (Hlast _ _ E) as [Ht Hh].
    unfold gapOk, handsDiffer. cbn [time type]. rewrite <- Ht, <- Hh.
    split; [exact Hacc | congruence].
  - apply Forall_app. split; [exact Hfresh|]. repeat constructor.
  - apply Forall_app. split; [exact Htimes|]. repeat constructor. cbn [time].
    unfold gtb in Hacc. apply ltb_iff in Hacc. destruct Hacc as (_ & N & _).
    apply sub_isNum in N. tauto.
  - intros l a E. apply app_inj_tail in E. destruct E as [_ <-]. cbn. auto.
Qed.

Lemma runLoop_Inv (data : list float) (sampleRate : float) (st : LoopState) :
  runLoop data sampleRate = Some st -> Inv st.
Proof.
  apply loop_invariant; [apply Inv_step | apply Inv_init].
Qed.

(** ** The lead-in filter keeps a suffix *)

Lemma gapOk_timeLt (a b : NoteData) : gapOk a b -> timeLt a b.
Proof.
  unfold gapOk, timeLt, gtb. apply sub_gtb_ltb.
  apply plus_key. vm_compute. reflexivity.
Qed.

Lemma timeLt_all_later (a : NoteData) (l : list NoteData) :
  adjacent timeLt (a :: l) -> gtb (time a) 1.8 = true ->
  Forall (fun n => gtb (time n) 1.8 = true) l.
Proof.
  revert a. induction l as [| b l IH]; intros a H Ha; constructor.
  - unfold gtb in *. eapply ltb_trans; [exact Ha|]. exact (H 0%nat a b eq_refl eq_refl).
  - apply (IH b); [eapply adjacent_tl, H|].
    unfold gtb in *. eapply ltb_trans; [exact Ha|]. exact (H 0%nat a b eq_refl eq_refl).
Qed.

Lemma leadInFilter_suffix (l : list NoteData) :
  adjacent timeLt l -> exists k, leadInFilter l = skipn k l.
Proof.
  induction l as [| a l IH]; intros H.
  - exists 0%nat. reflexivity.
  - cbn [leadInFilter filter]. destruct (gtb (time a) 1.8) eqn:Ha.
    + exists 0%nat. cbn [skipn]. f_equal.
      apply forallb_filter_id, forallb_forall.
      apply Forall_forall. eapply timeLt_all_later; eauto.
    + destruct (IH (adjacent_tl _ _ _ H)) as [k Hk]. exists (S k). exact Hk.
Qed.

(** ** The states of the loop *)

Lemma EnergyInv_init : EnergyInv initState.
Proof. split; cbn; [constructor | lia]. Qed.

Lemma EnergyInv_step (data : list float) (rate : float) (i : Z) (st : LoopState) :
  EnergyInv st -> EnergyInv (step data rate i st).
Proof.
  intros [HF HL]. unfold step, measure.
  set (f := mkFrame _ _ _ _ _). cbn [lastNoteTime].
  destruct (pushHistory_snoc _ _ (rmsOf (slice data i (i + windowSize))) HF
              (rmsOf_root _) HL) as (h0 & E & F0 & Len).
  assert (EI : Forall (fun r => rootOrNaN (Prim2SF r))
                 (pushHistory (energyHistory st) (rmsOf (slice data i (i + windowSize)))) /\
               (length (pushHistory (energyHistory st)
                          (rmsOf (slice data i (i + windowSize)))) <= historySize)%nat).
  { split; [|lia]. rewrite E. apply Forall_app. split; [exact F0|].
    repeat constructor. apply rmsOf_root. }
  destruct (accepted f (lastNoteTime st)); [|exact EI].
  unfold emit, EnergyInv. cbn [energyHistory].
  destruct (classify _ _ _) as [[[ty dir] li] ll]. exact EI.
Qed.

Lemma stateAt_S (data : list float) (rate : float) (k : nat) :
  stateAt data rate (S k) =
  step data rate (hopSize * Z.of_nat k) (stateAt data rate k).
Proof. unfold stateAt. rewrite seq_S, fold_left_app. reflexivity. Qed.

Lemma stateAt_EnergyInv (data : list float) (rate : float) (k : nat) :
  EnergyInv (stateAt data rate k).
Proof.
  induction k as [| k IH]; [exact EnergyInv_init|].
  rewrite stateAt_S. apply EnergyInv_step, IH.
Qed.

(** The loop runs the iterations 0, 1, ... in turn and stops at the first
    index that leaves no full window and one sample more. *)
Lemma loop_stateAt (data : list float) (rate : float) (fuel k : nat) (st' : LoopState) :
  loop fuel data rate (hopSize * Z.of_nat k) (stateAt data rate k) = Some st' ->
  exists n, (k <= n)%nat /\ st' = stateAt data rate n /\
    (Z.of_nat (length data) - windowSize <= hopSize * Z.of_nat n)%Z /\
    forall j, (k <= j < n)%nat ->
      (hopSize * Z.of_nat j < Z.of_nat (length data) - windowSize)%Z.
Proof.
  revert k. induction fuel as [| fuel IH]; intros k; cbn [loop];
    destruct (Z.ltb_spec (hopSize * Z.of_nat k) (Z.of_nat (length data) - windowSize))
      as [L | G]; intros E; try discriminate.
  - injection E as <-. exists k. repeat split; try lia.
  - replace (hopSize * Z.of_nat k + hopSize)%Z with (hopSize * Z.of_nat (S k))%Z in E
      by (unfold hopSize; lia).
    rewrite <- stateAt_S in E.
    destruct (IH _ E) as (n & Hn & -> & Hstop & Hrun).
    exists n. repeat split; try lia; auto.
    intros j Hj. destruct (Nat.eq_dec j k) as [-> | Hne]; [exact L|].
    apply Hrun. lia.
  - injection E as <-. exists k. repeat split; try lia.
Qed.

Lemma runLoop_stateAt (data : list float) (rate : float) :
  runLoop data rate = Some (stateAt data rate (frameCount data)).
Proof.
  destruct (runLoop_total data rate) as [st E]. rewrite E. f_equal.
  unfold runLoop in E.
  destruct (loop_stateAt data rate (length data) 0 st E) as (n & _ & -> & Hstop & Hrun).
  f_equal. unfold frameCount, windowSize, hopSize in *.
  destruct n as [| n].
  - assert ((Z.of_nat (length data) - 2048 + 512 - 1) / 512 <= 0)%Z; [|lia].
    apply Z.lt_succ_r. apply Z.div_lt_upper_bound; lia.
  - specialize (Hrun n ltac:(lia)).
    apply Nat2Z.inj. rewrite Z2Nat.id by (apply Z.div_pos; lia).
    assert (Z.of_nat (S n) <= (Z.of_nat (length data) - 2048 + 512 - 1) / 512)%Z
      by (apply Z.div_le_lower_bound; lia).
    assert ((Z.of_nat (length data) - 2048 + 512 - 1) / 512 < Z.of_nat (S n) + 1)%Z
      by (apply Z.div_lt_upper_bound; lia).
    lia.
Qed.

Lemma not_ltb_key (x y : float) :
  isNum x = true -> isNum y = true -> (x <? y) = false -> (fkey y <= fkey x)%Z.
Proof.
  intros Nx Ny H. destruct (Z.le_gt_cases (fkey y) (fkey x)) as [L | G]; [exact L|].
  assert ((x <? y) = true) by (apply ltb_iff; auto). congruence.
Qed.

Lemma accepted_gates (f : Frame) (t : float) :
  accepted f t = true ->
  (f_rms f <? 0.06) = false /\ gtb (f_rms f) (f_avgEnergy f * 1.15) = true.
Proof.
  unfold accepted.
  destruct (f_rms f <? 0.06); [discriminate|].
  destruct (f_flux f <? f_rms f * 0.6); [discriminate|].
  rewrite !andb_true_iff. tauto.
Qed.

(** * The pipeline *)

Section PipelineFacts.

Variable env : Browser.

(** The two ways the function returns: from the [catch] clause, or with the
    filtered notes of a finished pass. *)
Lemma analyze_returns (audioUrl : string) (chart : list NoteData)
  (log : list string) :
  analyzeAudioAndGenerateChart env audioUrl = Some (chart, log) ->
  (exists e, loadAudio env audioUrl = Throw e /\ chart = [] /\ log = [e]) \/
  (exists audio st,
      loadAudio env audioUrl = Normal audio /\
      runLoop (channelData0 audio) (sampleRate audio) = Some st /\
      chart = leadInFilter (notes st) /\ log = []).
Proof.
  unfold analyzeAudioAndGenerateChart, generateChart.
  destruct (loadAudio env audioUrl) as [audio | e].
  - destruct (runLoop _ _) as [st |] eqn:E; [|discriminate].
    intros [= <- <-]. right. exists audio, st. auto.
  - intros [= <- <-]. left. exists e. auto.
Qed.

(** Whatever holds of the empty chart and of every suffix of the notes of a
    finished pass holds of every chart returned. *)
Lemma analyze_chart_suffix (audioUrl : string) (chart : list NoteData)
  (log : list string) :
  analyzeAudioAndGenerateChart env audioUrl = Some (chart, log) ->
  chart = [] \/
  exists data rate st k,
    runLoop data rate = Some st /\ chart = skipn k (notes st).
Proof.
  intros H. destruct (analyze_returns _ _ _ H) as [(e & _ & -> & _) | (audio & st & _ & R & -> & _)].
  - left. reflexivity.
  - right. destruct (leadInFilter_suffix (notes st)) as [k Hk].
    + eapply adjacent_impl; [|exact (inv_adjacent _ (runLoop_Inv _ _ _ R))].
      intros a b [G _]. exact (gapOk_timeLt _ _ G).
    + exists (channelData0 audio), (sampleRate audio), st, k. auto.
Qed.

Lemma chart_adjacent (audioUrl : string) (chart : list NoteData)
  (log : list string) :
  analyzeAudioAndGenerateChart env audioUrl = Some (chart, log) ->
  adjacent (fun a b => gapOk a b /\ handsDiffer a b) chart.
Proof.
  intros H. destruct (analyze_chart_suffix _ _ _ H) as [-> | (data & rate & st & k & R & ->)].
  - intros [|i] a b; discriminate.
  - apply adjacent_skipn. exact (inv_adjacent _ (runLoop_Inv _ _ _ R)).
Qed.

(** C1. In every chart the function returns, the times of the notes are
    sorted, [notes[i].time <= notes[i+1].time], and in fact strictly
    increasing. *)
Theorem chart_times_sorted (audioUrl : string) (chart : list NoteData)
  (log : list string) (i : nat) (a b : NoteData) :
  analyzeAudioAndGenerateChart env audioUrl = Some (chart, log) ->
  nth_error chart i = Some a -> nth_error chart (S i) = Some b ->
  (time a <=? time b) = true /\ (time a <? time b) = true.
Proof.
  intros H Ha Hb.
  destruct (chart_adjacent _ _ _ H i a b Ha Hb) as [G _].
  apply gapOk_timeLt in G. split; [apply ltb_leb|]; exact G.
Qed.

(** C2. Every note of a returned chart has [time > 1.8]; the chart is the
    lead-in filter applied to the whole list of notes of the finished pass,
    whose other notes are exactly those with [time <= 1.8]. *)
Theorem chart_after_lead_in (audioUrl : string) (chart : list NoteData)
  (log : list string) :
  analyzeAudioAndGenerateChart env audioUrl = Some (chart, log) ->
  Forall (fun n => gtb (time n) 1.8 = true) chart /\
  forall audio, loadAudio env audioUrl = Normal audio ->
    exists st,
      runLoop (channelData0 audio) (sampleRate audio) = Some st /\
      chart = filter (fun n => gtb (time n) 1.8) (notes st) /\
      forall n, In n (notes st) -> ~ In n chart -> (time n <=? 1.8) = true.
Proof.
  intros H.
  destruct (analyze_returns _ _ _ H) as [(e & L & -> & _) | (audio & st & L & R & -> & _)].
  - split; [constructor|]. intros audio L'. congruence.
  - split.
    + apply Forall_forall. intros n Hn. apply filter_In in Hn. tauto.
    + intros audio' L'. assert (audio' = audio) as -> by congruence.
      exists st. repeat split; auto.
      intros n Hn Hout.
      pose proof (inv_times _ (runLoop_Inv _ _ _ R)) as Ht.
      rewrite Forall_forall in Ht.
      apply not_gtb_leb; [auto | reflexivity |].
      apply not_true_is_false. intros Hgt. apply Hout.
      apply filter_In. auto.
Qed.

(** C3. Two consecutive notes of a returned chart, stream-classified or not,
    are at least 0.12 s apart: [time[i+1] - time[i] >= 0.12], and in fact
    [> 0.12], the test the beat decision made when the later one was
    accepted. *)
Theorem chart_min_gap (audioUrl : string) (chart : list NoteData)
  (log : list string) (i : nat) (a b : NoteData) :
  analyzeAudioAndGenerateChart env audioUrl = Some (chart, log) ->
  nth_error chart i = Some a -> nth_error chart (S i) = Some b ->
  (0.12 <=? time b - time a) = true /\ gtb (time b - time a) 0.12 = true.
Proof.
  intros H Ha Hb.
  destruct (chart_adjacent _ _ _ H i a b Ha Hb) as [G _].
  split; [apply ltb_leb|]; exact G.
Qed.

(** C9. Two consecutive notes of a returned chart never share a hand,
    whether the later one was classified as isolated or as part of a
    stream. *)
Theorem chart_hands_alternate (audioUrl : string) (chart : list NoteData)
  (log : list string) (i : nat) (a b : NoteData) :
  analyzeAudioAndGenerateChart env audioUrl = Some (chart, log) ->
  nth_error chart i = Some a -> nth_error chart (S i) = Some b ->
  type a <> type b.
Proof.
  intros H Ha Hb.
  destruct (chart_adjacent _ _ _ H i a b Ha Hb) as [_ D]. exact D.
Qed.

(** C4 (as the code has it). No note of a returned chart has a [hit] or a
    [missed] property: the generator creates the notes without them and the
    notes of the chart are the notes it pushed, unchanged. *)
Theorem notes_flags_absent (audioUrl : string) (chart : list NoteData)
  (log : list string) :
  analyzeAudioAndGenerateChart env audioUrl = Some (chart, log) ->
  Forall flagsAbsent chart /\
  forall audio, loadAudio env audioUrl = Normal audio ->
    exists st, runLoop (channelData0 audio) (sampleRate audio) = Some st /\
               incl chart (notes st) /\ Forall flagsAbsent (notes st).
Proof.
  intros H.
  destruct (analyze_returns _ _ _ H) as [(e & L & -> & _) | (audio & st & L & R & -> & _)].
  - split; [constructor|]. intros audio L'. congruence.
  - assert (F : Forall flagsAbsent (notes st)).
    { eapply Forall_impl; [|exact (inv_fresh _ (runLoop_Inv _ _ _ R))].
      unfold flagsAbsent. cbn. tauto. }
    assert (I : incl (leadInFilter (notes st)) (notes st)).
    { intros n Hn. apply filter_In in Hn. tauto. }
    split.
    + rewrite Forall_forall in *. auto.
    + intros audio' L'. assert (audio' = audio) as -> by congruence. eauto.
Qed.

Lemma analyze_total (audioUrl : string) :
  exists chart log, analyzeAudioAndGenerateChart env audioUrl = Some (chart, log).
Proof.
  unfold analyzeAudioAndGenerateChart, generateChart.
  destruct (loadAudio env audioUrl) as [audio | e]; [|eauto].
  destruct (runLoop_total (channelData0 audio) (sampleRate audio)) as [st ->].
  eauto.
Qed.

(** C5. When the fetch, the read of the body, the audio context or the
    decoder fails, the function returns the empty chart and logs the error;
    no exception reaches the caller: for every url the function returns a
    chart. *)
Theorem failure_gives_empty_chart (audioUrl : string) (e : string) :
  (fetch env audioUrl = Throw e \/
   (exists res, fetch env audioUrl = Normal res /\
      (arrayBuffer env res = Throw e \/
       exists buffer, arrayBuffer env res = Normal buffer /\
         (newAudioContext env = Throw e \/
          exists ctx, newAudioContext env = Normal ctx /\
            decodeAudioData env ctx buffer = Throw e)))) ->
  analyzeAudioAndGenerateChart env audioUrl = Some ([], [e]) /\
  forall url, exists chart log,
    analyzeAudioAndGenerateChart env url = Some (chart, log).
Proof.
  intros Hfail. split; [|exact analyze_total].
  unfold analyzeAudioAndGenerateChart, loadAudio, bind.
  destruct Hfail as [F | (res & F & [B | (buffer & B & [C | (ctx & C & D)])])];
    rewrite F; try rewrite B; try rewrite C; try rewrite D; reflexivity.
Qed.

(** C10. A decoded recording of at most 2048 samples yields the empty chart,
    whatever the samples are: the loop condition fails at [i = 0]. *)
Theorem short_audio_empty_chart (audioUrl : string) (audio : AudioBuffer) :
  loadAudio env audioUrl = Normal audio ->
  (length (channelData0 audio) <= 2048)%nat ->
  analyzeAudioAndGenerateChart env audioUrl = Some ([], []).
Proof.
  intros L Hlen. unfold analyzeAudioAndGenerateChart, generateChart. rewrite L.
  unfold runLoop. rewrite loop_exit; [reflexivity|].
  unfold windowSize. lia.
Qed.

End PipelineFacts.

(** * The frame analyzer *)

Lemma fold_left_squares (frame : list float) (s : float) :
  fold_left (fun s v => s + v * v) frame s =
  fold_left add (map (fun v => v * v) frame) s.
Proof.
  revert s. induction frame as [| v frame IH]; intros s; cbn; [reflexivity|].
  apply IH.
Qed.

Lemma rmsOf_spec (frame : list float) : rmsOf frame = rmsSpec frame.
Proof.
  unfold rmsOf, rmsSpec, mean, sum.
  rewrite fold_left_squares, length_map. reflexivity.
Qed.

Lemma SFadd_plus (x y : spec_float) :
  plusOrNaN x -> plusOrNaN y -> plusOrNaN (SF64add x y).
Proof. intros Hx Hy. apply SFadd_plus_root; [exact Hx | apply plus_is_root, Hy]. Qed.

Lemma add_zero_r (x : float) : plusOrNaN (Prim2SF x) -> x + 0 = x.
Proof.
  intros H. apply Prim2SF_inj. rewrite add_spec.
  change (Prim2SF 0) with (S754_zero false).
  destruct (Prim2SF x) as [s | s | | s m e]; cbn in H; subst; reflexivity.
Qed.

Lemma gtb_zero_plus (d : float) : gtb d 0 = true -> plusOrNaN (Prim2SF d).
Proof.
  unfold gtb. rewrite ltb_spec. change (Prim2SF 0) with (S754_zero false).
  destruct (Prim2SF d) as [s | [] | | [] m e]; cbn; congruence.
Qed.

Lemma flux_fold (diffs : list float) (flux : float) :
  plusOrNaN (Prim2SF flux) ->
  fold_left (fun flux d => if gtb d 0 then flux + d else flux) diffs flux =
  fold_left add (map rectify diffs) flux /\
  plusOrNaN (Prim2SF (fold_left add (map rectify diffs) flux)).
Proof.
  revert flux. induction diffs as [| d diffs IH]; intros flux H; cbn [fold_left map].
  - auto.
  - assert (R : rectify d = if gtb d 0 then d else 0) by reflexivity.
    rewrite R. destruct (gtb d 0) eqn:G.
    + apply IH. rewrite add_spec. apply SFadd_plus; [exact H|].
      apply gtb_zero_plus, G.
    + rewrite (add_zero_r flux H). apply IH, H.
Qed.

Lemma fold_left_over_map {A B C : Type} (g : A -> B -> A) (h : C -> B)
  (l : list C) (acc : A) :
  fold_left g (map h l) acc = fold_left (fun a j => g a (h j)) l acc.
Proof.
  revert acc. induction l as [| j l IH]; intros acc; cbn; [reflexivity | apply IH].
Qed.

Lemma fluxOf_spec (spectrum : list float) (prev : option (list float)) :
  length spectrum = 40%nat -> fluxOf spectrum prev = fluxSpec spectrum prev.
Proof.
  intros Hlen. unfold fluxOf, fluxSpec, sum. destruct prev as [prev |]; [|reflexivity].
  rewrite Hlen.
  rewrite <- (map_map (fun j => nth j spectrum nan - nth j prev nan) rectify).
  rewrite <- (proj1 (flux_fold _ 0 eq_refl)).
  symmetry. apply fold_left_over_map.
Qed.

Lemma is_zero_abs (x : float) : is_zero x = true -> abs x = 0.
Proof.
  unfold is_zero. rewrite eqb_spec. change (Prim2SF zero) with (S754_zero false).
  intros H. apply Prim2SF_inj. rewrite abs_spec.
  destruct (Prim2SF x) as [s | [] | | [] m e]; cbn in H; try discriminate.
  reflexivity.
Qed.

Lemma abs_orZero (x : float) : abs (orZero (Some x)) = abs (numOrZero x).
Proof.
  unfold orZero, numOrZero, truthy.
  destruct (is_nan x) eqn:N; [reflexivity|].
  destruct (is_zero x) eqn:Z; cbn [orb negb]; [|reflexivity].
  rewrite (is_zero_abs x Z). reflexivity.
Qed.

Lemma slice_length (data : list float) (i : Z) :
  (0 <= i)%Z -> (i < Z.of_nat (length data) - windowSize)%Z ->
  length (slice data i (i + windowSize)) = 2048%nat.
Proof.
  intros H0 H. unfold slice, windowSize in *.
  rewrite length_firstn, length_skipn.
  replace (i + 2048 - i)%Z with 2048%Z by lia. lia.
Qed.

Lemma spectrumOf_entries (frame : list float) :
  (160 <= length frame)%nat ->
  spectrumOf frame = map (fun j => abs (numOrZero (nth (j * 4) frame nan))) (seq 0 40).
Proof.
  intros Hlen. unfold spectrumOf. apply map_ext_in. intros j Hj.
  apply in_seq in Hj.
  destruct (nth_error frame (j * 4)) as [x |] eqn:E.
  - rewrite (nth_error_nth _ _ _ E). apply abs_orZero.
  - apply nth_error_None in E. lia.
Qed.

(** C7 (as the code has it). In every iteration of the loop, [rms] is the
    square root of the mean of the squared samples of the window; the new
    profile is [abs(frame[j*4])] for [j] in [0,40), a sample that is NaN
    counting as 0, hence exactly [abs(frame[j*4])] when the window holds
    numbers only; [flux] is the sum of the rectified differences with the
    previous profile, and 0 when there is no previous profile, which is the
    case in the first iteration. *)
Theorem frame_analysis_formulas (data : list float) (rate : float) (i : Z)
  (st : LoopState) :
  (0 <= i)%Z -> (i < Z.of_nat (length data) - windowSize)%Z ->
  let frame := slice data i (i + windowSize) in
  let f := fst (measure data rate i st) in
  let newProfile := spectrumOf frame in
  f_rms f = rmsSpec frame /\
  prevSpectrum (snd (measure data rate i st)) = Some newProfile /\
  newProfile = map (fun j => abs (numOrZero (nth (j * 4) frame nan))) (seq 0 40) /\
  (Forall (fun v => is_nan v = false) frame -> newProfile = profileSpec frame) /\
  f_flux f = fluxSpec newProfile (prevSpectrum st) /\
  (prevSpectrum st = None -> f_flux f = 0) /\
  prevSpectrum initState = None.
Proof.
  intros H0 H frame f newProfile.
  pose proof (slice_length data i H0 H) as Hlen. fold frame in Hlen.
  assert (Hentries := spectrumOf_entries frame ltac:(lia)).
  repeat split.
  - apply rmsOf_spec.
  - exact Hentries.
  - intros Hnum. fold newProfile in Hentries. rewrite Hentries.
    unfold profileSpec. apply map_ext_in. intros j Hj. apply in_seq in Hj.
    unfold numOrZero.
    rewrite Forall_forall in Hnum. rewrite Hnum; [reflexivity|].
    apply nth_In. lia.
  - apply fluxOf_spec. unfold newProfile, spectrumOf. rewrite length_map, length_seq.
    reflexivity.
  - intros E. cbn. rewrite E. reflexivity.
Qed.

(** * The beat detector *)

(** The mean of the rms history and the intensity on an accepting iteration
    of the loop, in terms of keys. *)
Lemma accepted_mean_intensity (data : list float) (rate : float) (k : nat) :
  let st := stateAt data rate k in
  let f := fst (measure data rate (hopSize * Z.of_nat k) st) in
  accepted f (lastNoteTime st) = true ->
  (isNum (f_avgEnergy f) = true /\ (0 < fkey (f_avgEnergy f))%Z) /\
  isNum (f_rms f / f_avgEnergy f) = true.
Proof.
  intros st f Hacc.
  destruct (accepted_gates _ _ Hacc) as [Hgate Hadapt].
  destruct (stateAt_EnergyInv data rate k) as [HF HL]. fold st in HF, HL.
  unfold f, measure in *. cbn [fst f_rms f_avgEnergy] in *. clear f.
  set (rms := rmsOf (slice data (hopSize * Z.of_nat k) (hopSize * Z.of_nat k + windowSize))) in *.
  destruct (pushHistory_snoc _ _ rms HF (rmsOf_root _) HL) as (h0 & E & F0 & Len).
  rewrite E in *. set (avg := average (h0 ++ [rms])) in *.
  unfold gtb in Hadapt. apply ltb_iff in Hadapt. destruct Hadapt as (Nm & Nr & Hlt).
  apply mul_isNum in Nm. destruct Nm as [Na _].
  assert (Hge : (fkey 0.06 <= fkey rms)%Z) by (apply not_ltb_key; auto).
  destruct (average_positive h0 rms F0 (rmsOf_root _) ltac:(unfold historySize in Len; lia)
              Hge Na) as [Kavg Ksum].
  fold avg in Kavg. split.
  - split; assumption.
  - (* the quotient *)
    pose proof (rmsOf_root (slice data (hopSize * Z.of_nat k)
                              (hopSize * Z.of_nat k + windowSize))) as Rr.
    fold rms in Rr.
    assert (K06 : (0 < fkey 0.06)%Z).
    { unfold fkey. rewrite gate_value. cbn [key cond_Zopp]. lia. }
    unfold isNum, fkey in *. rewrite div_spec.
    pose proof (Prim2SF_valid avg) as Va.
    destruct (Prim2SF rms) as [sr | sr | | sr mr er] eqn:Er; try discriminate;
      cbn [rootOrNaN] in Rr; subst; cbn [key] in Hge; try lia.
    + (* rms = +Infinity is never accepted *)
      exfalso. cbn [key cond_Zopp] in Ksum, Hlt.
      unfold avg, average in Hlt. rewrite mul_spec, div_spec in Hlt.
      pose proof (Prim2SF_valid (sum (h0 ++ [rms]))) as Vs.
      assert (Ls : (1 <= length (h0 ++ [rms]) <= 50)%nat)
        by (unfold historySize in Len; lia).
      pose proof (num_small _ Ls) as Hn. unfold smallCount in Hn.
      destruct (Prim2SF (num (Z.of_nat (length (h0 ++ [rms]))))) as [| | | [] mn en];
        try discriminate.
      destruct (Prim2SF (sum (h0 ++ [rms]))) as [ss | ss | | ss ms es];
        cbn [key cond_Zopp] in Ksum; pose proof infKey_pos; try lia.
      * destruct ss; cbn [cond_Zopp] in Ksum; try lia.
        change (Prim2SF 1.15) with (S754_finite false 5179139571476070 (-52)) in Hlt.
        unfold SF64mul, SF64div in Hlt.
        cbn [SFmul SFdiv xorb key cond_Zopp] in Hlt. lia.
      * cbn [valid_binary] in Vs. pose proof (finite_key_bounds _ _ Vs).
        destruct ss; cbn [cond_Zopp] in Ksum; lia.
    + destruct (Prim2SF avg) as [sa | sa | | sa ma ea]; try discriminate;
        cbn [key] in Kavg; try lia.
      * reflexivity.
      * apply negb_true_iff, SFdiv_finite_num.
Qed.

(** C6. On every iteration of the loop that accepts a beat, [avgEnergy] is
    a number greater than 0, hence neither [+0] nor [-0]: the division
    [rms / avgEnergy] is not a division by zero, and the intensity it yields
    is a number.  ([runLoop_stateAt]: the loop runs [step] at index
    [k * hopSize] from [stateAt data rate k], for every [k] below
    [frameCount data].) *)
Theorem accepted_avgEnergy_positive (data : list float) (rate : float) (k : nat) :
  let st := stateAt data rate k in
  let f := fst (measure data rate (hopSize * Z.of_nat k) st) in
  accepted f (lastNoteTime st) = true ->
  gtb (f_avgEnergy f) 0 = true /\
  is_zero (f_avgEnergy f) = false /\
  isNum (f_rms f / f_avgEnergy f) = true.
Proof.
  intros st f Hacc.
  destruct (accepted_mean_intensity data rate k Hacc) as [[Na Ka] Ni].
  fold st f in Na, Ka, Ni.
  assert (G : (0 <? f_avgEnergy f) = true).
  { apply ltb_iff. split; [reflexivity | split; [exact Na | exact Ka]]. }
  split; [exact G | split; [| exact Ni]].
  unfold is_zero. rewrite eqb_spec. unfold SFeqb.
  apply negb_true_iff in Na.
  rewrite (SFcompare_key _ _ (Prim2SF_valid _) (Prim2SF_valid zero) Na eq_refl).
  change (key (Prim2SF zero)) with 0%Z. fold (fkey (f_avgEnergy f)).
  destruct (Z.compare_spec (fkey (f_avgEnergy f)) 0); try reflexivity. lia.
Qed.
(** * The chart generator *)

Ltac tier :=
  repeat match goal with
    | |- _ /\ _ => split
    | |- _ -> _ => intro
    | H : (_ <=? _) = true |- _ => apply leb_not_gtb in H
    end;
  try congruence; try reflexivity.

(** The note an accepting iteration pushes, from any state. *)
Lemma emit_follows_table (data : list float) (rate : float) (i : Z)
  (st : LoopState) :
  let f := fst (measure data rate i st) in
  accepted f (lastNoteTime st) = true ->
  exists n,
    notes (step data rate i st) = notes st ++ [n] /\
    time n = f_time f /\
    followsTable (f_time f - lastNoteTime st) (f_rms f / f_avgEnergy f)
      (lastHand st) n.
Proof.
  intros f Hacc. unfold step. unfold f in *. clear f.
  destruct (measure data rate i st) as [f st'] eqn:M.
  assert (Hst : lastNoteTime st' = lastNoteTime st /\ lastHand st' = lastHand st /\
                notes st' = notes st).
  { unfold measure in M. injection M as _ <-. auto. }
  destruct Hst as (Ht & Hh & Hn). cbn [fst] in *.
  rewrite Ht, Hacc. unfold emit. rewrite Ht, Hh, Hn.
  unfold followsTable, classify.
  set (gap := f_time f - lastNoteTime st).
  set (x := f_rms f / f_avgEnergy f).
  clearbody gap x.
  destruct (gap <? 0.22).
  - eexists. cbn [notes]. split; [reflexivity|]. cbn.
    destruct (lastHand st); auto.
  - assert (T : gtb x 2.0 = true -> gtb x 1.3 = true).
    { unfold gtb. intros G. eapply ltb_trans; [|exact G]. reflexivity. }
    destruct (gtb x 2.0) eqn:G2; [specialize (T eq_refl) | destruct (gtb x 1.3) eqn:G13];
      (eexists; cbn [notes]; split; [reflexivity|]; cbn;
       split; [reflexivity|];
       split; [destruct (gtb x 1.4), (lastHand st); reflexivity|]);
      unfold gtb in *; tier.
Qed.

Lemma tiers_cover (x : float) : isNum x = true -> tierApplies x.
Proof.
  intros N. unfold tierApplies.
  destruct (gtb x 2.0) eqn:G2; [auto|].
  right. destruct (gtb x 1.3) eqn:G13.
  - left. split; [reflexivity|]. apply not_gtb_leb; auto.
  - right. apply not_gtb_leb; auto.
Qed.

(** C8. In a run of the loop, the note pushed for an accepted beat carries
    the time of the frame and the hand, cut direction, lane and layer the
    placement table gives for the gap to the last note, the intensity
    [rms / avgEnergy] and the last hand; the intensity is a number, so one of
    the three tiers of the isolated case applies. *)
Theorem accepted_note_follows_table (data : list float) (rate : float) (k : nat) :
  let st := stateAt data rate k in
  let f := fst (measure data rate (hopSize * Z.of_nat k) st) in
  accepted f (lastNoteTime st) = true ->
  exists n,
    notes (stateAt data rate (S k)) = notes st ++ [n] /\
    time n = f_time f /\
    followsTable (f_time f - lastNoteTime st) (f_rms f / f_avgEnergy f)
      (lastHand st) n /\
    tierApplies (f_rms f / f_avgEnergy f).
Proof.
  intros st f Hacc.
  destruct (emit_follows_table data rate _ st Hacc) as (n & Hn & Ht & Htab).
  exists n. rewrite stateAt_S. repeat split; try assumption.
  apply tiers_cover. exact (proj2 (accepted_mean_intensity data rate k Hacc)).
Qed.

(** * The sample recording *)

(** The chart of the sample recording. *)
Lemma demoRun_chart :
  analyzeAudioAndGenerateChart (demoBrowser demoAudio) demoUrl =
    Some (demoChart, []).
Proof. vm_compute. reflexivity. Qed.

Lemma chart_times_sorted_witness :
  analyzeAudioAndGenerateChart (demoBrowser demoAudio) demoUrl =
    Some (demoChart, []) /\
  (num 15360 / 8000 <=? num 16384 / 8000) = true /\
  (num 15360 / 8000 <? num 16384 / 8000) = true.
Proof.
  split; [exact demoRun_chart|].
  apply (chart_times_sorted (demoBrowser demoAudio) demoUrl demoChart [] 0
           (demoNote 1 (num 15360 / 8000) Right) (demoNote 2 (num 16384 / 8000) Left)).
  - exact demoRun_chart.
  - reflexivity.
  - reflexivity.
Defined.

Lemma chart_after_lead_in_witness :
  analyzeAudioAndGenerateChart (demoBrowser demoAudio) demoUrl =
    Some (demoChart, []) /\
  Forall (fun n => gtb (time n) 1.8 = true) demoChart.
Proof.
  split; [exact demoRun_chart|].
  apply (chart_after_lead_in (demoBrowser demoAudio) demoUrl demoChart []).
  exact demoRun_chart.
Defined.

(** The burst at 0.64 s is a note of the pass, it takes [note-0] and the left
    hand, and only then is it dropped: the chart starts at [note-1], on the
    right hand. *)
Example lead_in_note_shapes_chart :
  option_map (fun st => map id (notes st)) (runLoop demoSamples 8000) =
    Some ["note-0"; "note-1"; "note-2"; "note-3"]%string /\
  map id demoChart = ["note-1"; "note-2"; "note-3"]%string /\
  map type demoChart = [Right; Left; Right].
Proof. vm_compute. auto. Qed.

Lemma chart_min_gap_witness :
  analyzeAudioAndGenerateChart (demoBrowser demoAudio) demoUrl =
    Some (demoChart, []) /\
  (0.12 <=? num 16384 / 8000 - num 15360 / 8000) = true /\
  gtb (num 16384 / 8000 - num 15360 / 8000) 0.12 = true.
Proof.
  split; [exact demoRun_chart|].
  apply (chart_min_gap (demoBrowser demoAudio) demoUrl demoChart [] 0
           (demoNote 1 (num 15360 / 8000) Right) (demoNote 2 (num 16384 / 8000) Left)).
  - exact demoRun_chart.
  - reflexivity.
  - reflexivity.
Defined.

Lemma chart_hands_alternate_witness :
  analyzeAudioAndGenerateChart (demoBrowser demoAudio) demoUrl =
    Some (demoChart, []) /\
  streamPair (demoNote 2 (num 16384 / 8000) Left) (demoNote 3 (num 20480 / 8000) Right)
    = false /\
  Left <> Right.
Proof.
  split; [exact demoRun_chart|]. split; [reflexivity|].
  apply (chart_hands_alternate (demoBrowser demoAudio) demoUrl demoChart [] 1
           (demoNote 2 (num 16384 / 8000) Left) (demoNote 3 (num 20480 / 8000) Right)).
  - exact demoRun_chart.
  - reflexivity.
  - reflexivity.
Defined.

(** The alternation is between notes next to each other: the isolated notes
    [note-1] and [note-3] of the sample recording are both on the right
    hand, with the stream note [note-2] between them. *)
Example isolated_notes_around_stream :
  let n0 := demoNote 0 (num 5120 / 8000) Left in
  let n1 := demoNote 1 (num 15360 / 8000) Right in
  let n2 := demoNote 2 (num 16384 / 8000) Left in
  let n3 := demoNote 3 (num 20480 / 8000) Right in
  option_map notes (runLoop demoSamples 8000) = Some [n0; n1; n2; n3] /\
  streamPair n0 n1 = false /\ streamPair n1 n2 = true /\
  streamPair n2 n3 = false /\ type n1 = type n3.
Proof. vm_compute. auto. Qed.

Lemma notes_flags_absent_witness :
  analyzeAudioAndGenerateChart (demoBrowser demoAudio) demoUrl =
    Some (demoChart, []) /\
  Forall flagsAbsent demoChart.
Proof.
  split; [exact demoRun_chart|].
  apply (notes_flags_absent (demoBrowser demoAudio) demoUrl demoChart []).
  exact demoRun_chart.
Defined.

(** C4 as worded fails: the notes of the chart of the sample recording have
    no [hit] property, so [hit] is not [false]. *)
Lemma notes_flags_not_false :
  analyzeAudioAndGenerateChart (demoBrowser demoAudio) demoUrl =
    Some (demoChart, []) /\
  ~ Forall flagsFalse demoChart.
Proof.
  split; [exact demoRun_chart|].
  intros H. inversion H as [| n l [Hhit _] _]. discriminate Hhit.
Qed.

Lemma failure_gives_empty_chart_witness :
  analyzeAudioAndGenerateChart failingBrowser demoUrl =
    Some ([], ["EncodingError: Unable to decode audio data"%string]) /\
  forall url, exists chart log,
    analyzeAudioAndGenerateChart failingBrowser url = Some (chart, log).
Proof.
  apply (failure_gives_empty_chart failingBrowser).
  right. exists tt. split; [reflexivity|].
  right. exists tt. split; [reflexivity|].
  right. exists tt. split; reflexivity.
Defined.

Lemma short_audio_empty_chart_witness :
  analyzeAudioAndGenerateChart
    (demoBrowser {| channelData0 := burst 2048; sampleRate := 44100 |}) demoUrl =
    Some ([], []).
Proof.
  apply (short_audio_empty_chart
           (demoBrowser {| channelData0 := burst 2048; sampleRate := 44100 |})
           demoUrl {| channelData0 := burst 2048; sampleRate := 44100 |}).
  - reflexivity.
  - cbn [channelData0]. unfold burst. rewrite repeat_length. apply le_n.
Defined.

Lemma frame_analysis_formulas_witness :
  let frame := slice nanSamples 0 (0 + windowSize) in
  let f := fst (measure nanSamples 44100 0 initState) in
  f_rms f = rmsSpec frame /\
  prevSpectrum (snd (measure nanSamples 44100 0 initState)) = Some (spectrumOf frame) /\
  spectrumOf frame =
    map (fun j => abs (numOrZero (nth (j * 4) frame nan))) (seq 0 40) /\
  (Forall (fun v => is_nan v = false) frame -> spectrumOf frame = profileSpec frame) /\
  f_flux f = fluxSpec (spectrumOf frame) (prevSpectrum initState) /\
  (prevSpectrum initState = None -> f_flux f = 0) /\
  prevSpectrum initState = None.
Proof.
  apply (frame_analysis_formulas nanSamples 44100 0 initState).
  - vm_compute. discriminate.
  - vm_compute. reflexivity.
Defined.

(** C7 as worded fails where a sample is not a number: the code makes the
    entry of the profile 0, [abs(frame[j*4])] is NaN. *)
Lemma nan_sample_profile :
  let frame := slice nanSamples 0 (0 + windowSize) in
  prevSpectrum (snd (measure nanSamples 44100 0 initState)) = Some (spectrumOf frame) /\
  nth 0 (spectrumOf frame) nan = 0 /\
  abs (nth (0 * 4) frame nan) = nan /\
  spectrumOf frame <> profileSpec frame.
Proof.
  repeat split; try (vm_compute; reflexivity).
  intros H.
  apply (f_equal (fun l => is_nan (nth 0 l 0))) in H.
  vm_compute in H. discriminate H.
Qed.

Lemma accepted_note_follows_table_witness :
  let st := stateAt demoSamples 8000 30 in
  let f := fst (measure demoSamples 8000 (hopSize * Z.of_nat 30) st) in
  accepted f (lastNoteTime st) = true /\
  exists n,
    notes (stateAt demoSamples 8000 31) = notes st ++ [n] /\
    time n = f_time f /\
    followsTable (f_time f - lastNoteTime st) (f_rms f / f_avgEnergy f)
      (lastHand st) n /\
    tierApplies (f_rms f / f_avgEnergy f).
Proof.
  split; [vm_compute; reflexivity|].
  apply (accepted_note_follows_table demoSamples 8000 30).
  vm_compute. reflexivity.
Defined.

Lemma accepted_avgEnergy_positive_witness :
  let st := stateAt demoSamples 8000 30 in
  let f := fst (measure demoSamples 8000 (hopSize * Z.of_nat 30) st) in
  accepted f (lastNoteTime st) = true /\
  gtb (f_avgEnergy f) 0 = true /\
  is_zero (f_avgEnergy f) = false /\
  isNum (f_rms f / f_avgEnergy f) = true.
Proof.
  split; [vm_compute; reflexivity|].
  apply (accepted_avgEnergy_positive demoSamples 8000 30).
  vm_compute. reflexivity.
Defined.

(** * More about the analysis pass *)

Lemma classify_hand (isStream : bool) (intensity : float) (h : HandType) :
  fst (fst (fst (classify isStream intensity h))) = opposite h.
Proof.
  unfold classify.
  destruct isStream, h, (gtb intensity 1.4), (gtb intensity 2.0),
    (gtb intensity 1.3); reflexivity.
Qed.

Lemma classify_placed (isStream : bool) (intensity : float) (h : HandType) :
  let '(ty, dir, li, ll) := classify isStream intensity h in
  ((dir = DOWN /\ li = innerLane ty /\ ll = 0%Z) \/
   (dir = UP /\ li = innerLane ty /\ ll = 0%Z) \/
   (dir = ANY /\ li = outerLane ty /\ ll = 1%Z)) /\
  (dir <> DOWN -> isStream = false).
Proof.
  unfold classify.
  destruct isStream; [split; [left; auto | intros H; contradiction H; reflexivity]|].
  destruct (gtb intensity 2.0); [split; auto|].
  destruct (gtb intensity 1.3); split; auto.
Qed.

(** One iteration of the loop: the measurements enter the histories, and the
    notes stay as they are or grow by one. *)
Lemma step_cases (data : list float) (rate : float) (i : Z) (st : LoopState) :
  let f := fst (measure data rate i st) in
  let st' := step data rate i st in
  energyHistory st' = pushHistory (energyHistory st) (f_rms f) /\
  fluxHistory st' = pushHistory (fluxHistory st) (f_flux f) /\
  prevSpectrum st' = Some (spectrumOf (slice data i (i + windowSize))) /\
  f_time f = num i / rate /\
  ((accepted f (lastNoteTime st) = false /\ skips st st') \/
   (accepted f (lastNoteTime st) = true /\ exists n, pushes f st st' n)).
Proof.
  unfold step, measure. cbn [fst lastNoteTime].
  set (f := mkFrame _ _ _ _ _).
  destruct (accepted f (lastNoteTime st)) eqn:A.
  - unfold emit. cbn [lastNoteTime lastHand nextId notes energyHistory fluxHistory
                        prevSpectrum].
    pose proof (classify_hand (f_time f - lastNoteTime st <? 0.22)
                  (f_rms f / f_avgEnergy f) (lastHand st)) as Hh.
    pose proof (classify_placed (f_time f - lastNoteTime st <? 0.22)
                  (f_rms f / f_avgEnergy f) (lastHand st)) as Hp.
    destruct (classify _ _ _) as [[[ty dir] li] ll]. cbn [fst] in Hh.
    destruct Hp as [Hp Hs].
    cbn [energyHistory fluxHistory prevSpectrum].
    repeat split; try reflexivity.
    right. split; [reflexivity|]. eexists. unfold pushes, placed.
    cbn [notes id time type cutDirection lineIndex lineLayer lastHand
           lastNoteTime nextId].
    repeat split; try reflexivity; assumption.
  - cbn [energyHistory fluxHistory prevSpectrum].
    repeat split; try reflexivity. left. split; [reflexivity|].
    unfold skips. cbn. auto.
Qed.

Lemma handOfIndex_S (j : nat) : handOfIndex (S j) = opposite (handOfIndex j).
Proof.
  unfold handOfIndex. rewrite Nat.even_succ, <- Nat.negb_even.
  destruct (Nat.even j); reflexivity.
Qed.

Lemma opposite_involutive (h : HandType) : opposite (opposite h) = h.
Proof. destruct h; reflexivity. Qed.

Lemma PassInv_init (rate : float) : PassInv rate 0 initState.
Proof.
  split; cbn [initState notes nextId lastHand lastNoteTime length].
  - reflexivity.
  - reflexivity.
  - intros [|? ?] a H; discriminate.
  - intros [|j] n H; discriminate.
  - intros [|i] a b H; discriminate.
  - lia.
Qed.

Lemma PassInv_step (data : list float) (rate : float) (k : nat) (st : LoopState) :
  PassInv rate k st ->
  PassInv rate (S k) (step data rate (hopSize * Z.of_nat k) st).
Proof.
  intros [Hn Hh Hl Hs Hi Hlen].
  destruct (step_cases data rate (hopSize * Z.of_nat k) st)
    as (_ & _ & _ & Ht & [[_ (E1 & E2 & E3 & E4)] | [_ (n & P)]]).
  - split; rewrite ?E1, ?E2, ?E3, ?E4; auto.
    intros j n H. destruct (Hs j n H) as (A & B & C & m & Hm & D).
    repeat split; auto. exists m. split; [lia | exact D].
  - destruct P as (E1 & Pid & Ptime & Ptype & Pplaced & Piso & E2 & E3 & E4).
    assert (Hty : type n = handOfIndex (length (notes st))).
    { rewrite Ptype, Hh. apply opposite_involutive. }
    split; rewrite ?E1, ?E2, ?E3, ?E4.
    + rewrite length_app, Nat.add_1_r. congruence.
    + rewrite length_app, Nat.add_1_r, handOfIndex_S, opposite_involutive. exact Hty.
    + intros l a H. apply app_inj_tail in H. destruct H as [_ <-]. reflexivity.
    + intros j x H. destruct (Nat.lt_ge_cases j (length (notes st))) as [L | G].
      * rewrite nth_error_app1 in H by exact L.
        destruct (Hs j x H) as (A & B & C & m & Hm & D).
        repeat split; auto. exists m. split; [lia | exact D].
      * assert (Hj : j = length (notes st)).
        { assert (j < length (notes st ++ [n]))%nat
            by (apply nth_error_Some; rewrite H; discriminate).
          rewrite length_app in *. cbn in *. lia. }
        subst j. rewrite nth_error_app2, Nat.sub_diag in H by lia.
        injection H as <-. rewrite Pid, Hn. repeat split; auto.
        exists k. split; [lia|]. rewrite Ptime. exact Ht.
    + apply adjacent_snoc; [exact Hi|]. intros l a H D.
      rewrite Ptime, <- (Hl l a H). exact (Piso D).
    + rewrite length_app, Nat.add_1_r. lia.
Qed.

Lemma stateAt_PassInv (data : list float) (rate : float) (k : nat) :
  PassInv rate k (stateAt data rate k).
Proof.
  induction k as [| k IH]; [apply PassInv_init|].
  rewrite stateAt_S. apply PassInv_step, IH.
Qed.

Lemma nth_error_skipn_add {A : Type} (k j : nat) (l : list A) :
  nth_error (skipn k l) j = nth_error l (k + j).
Proof.
  revert l. induction k as [| k IH]; intros l; [reflexivity|].
  destruct l as [| a l]; [destruct j; reflexivity | apply IH].
Qed.

(** A returned chart is empty, or the notes of the pass over the decoded
    recording from some number on. *)
Lemma chart_from_pass (env : Browser) (audioUrl : string) (chart : list NoteData)
  (log : list string) :
  analyzeAudioAndGenerateChart env audioUrl = Some (chart, log) ->
  (chart = [] /\ forall audio, loadAudio env audioUrl <> Normal audio) \/
  exists audio k,
    loadAudio env audioUrl = Normal audio /\
    chart = skipn k (notes (stateAt (channelData0 audio) (sampleRate audio)
                              (frameCount (channelData0 audio)))).
Proof.
  intros H.
  destruct (analyze_returns env _ _ _ H)
    as [(e & L & -> & _) | (audio & st & L & R & -> & _)].
  - left. split; [reflexivity|]. intros audio. rewrite L. discriminate.
  - right. destruct (leadInFilter_suffix (notes st)) as [k Hk].
    + eapply adjacent_impl; [|exact (inv_adjacent _ (runLoop_Inv _ _ _ R))].
      intros a b [G _]. exact (gapOk_timeLt _ _ G).
    + exists audio, k. split; [exact L|]. rewrite Hk.
      rewrite runLoop_stateAt in R. injection R as <-. reflexivity.
Qed.

Lemma to_uint_nonnil (n : nat) : Nat.to_uint n <> Decimal.Nil.
Proof.
  rewrite <- (DecimalNat.Unsigned.of_to n) at 1.
  rewrite DecimalNat.Unsigned.to_of.
  apply DecimalFacts.unorm_nonnil.
Qed.

Lemma noteId_inj (i j : nat) : noteId i = noteId j -> i = j.
Proof.
  unfold noteId. intros H.
  assert (E : NilZero.string_of_uint (Nat.to_uint i) =
              NilZero.string_of_uint (Nat.to_uint j)).
  { cbn [String.append] in H. congruence. }
  apply DecimalNat.Unsigned.to_uint_inj.
  assert (S : Some (Nat.to_uint i) = Some (Nat.to_uint j)).
  { rewrite <- (NilZero.usu (Nat.to_uint i)), <- (NilZero.usu (Nat.to_uint j)).
    - rewrite E. reflexivity.
    - apply to_uint_nonnil.
    - apply to_uint_nonnil. }
  congruence.
Qed.

(** The notes of a returned chart carry the numbers [k], [k + 1], ... of the
    pass, each with the hand and the placement of its number. *)
Lemma chart_notes (env : Browser) (audioUrl : string) (chart : list NoteData)
  (log : list string) :
  analyzeAudioAndGenerateChart env audioUrl = Some (chart, log) ->
  exists k, forall j n, nth_error chart j = Some n ->
    id n = noteId (k + j) /\ type n = handOfIndex (k + j) /\ placed n.
Proof.
  intros H.
  destruct (chart_from_pass env _ _ _ H) as [[-> _] | (audio & k & _ & ->)].
  - exists 0%nat. intros [|j] n E; discriminate.
  - exists k. intros j n E. rewrite nth_error_skipn_add in E.
    destruct (pi_notes _ _ _ (stateAt_PassInv _ _ _) _ _ E) as (A & B & C & _).
    auto.
Qed.

Lemma chart_frames (env : Browser) (audioUrl : string) (audio : AudioBuffer)
  (chart : list NoteData) (log : list string) :
  loadAudio env audioUrl = Normal audio ->
  analyzeAudioAndGenerateChart env audioUrl = Some (chart, log) ->
  exists k, chart = skipn k (notes (stateAt (channelData0 audio) (sampleRate audio)
                                      (frameCount (channelData0 audio)))).
Proof.
  intros L H.
  destruct (chart_from_pass env _ _ _ H) as [[_ N] | (audio' & k & L' & ->)].
  - destruct (N audio L).
  - rewrite L in L'. injection L' as <-. eauto.
Qed.

Lemma placed_domain (n : NoteData) :
  placed n ->
  (0 <= lineIndex n <= 3)%Z /\ (0 <= lineLayer n <= 1)%Z /\
  cutDirection n <> LEFT /\ cutDirection n <> RIGHT /\
  (type n = Left -> (lineIndex n <= 1)%Z) /\
  (type n = Right -> (2 <= lineIndex n)%Z) /\
  (lineLayer n = 1%Z <-> cutDirection n = ANY) /\
  (cutDirection n = ANY <-> lineIndex n = 0%Z \/ lineIndex n = 3%Z).
Proof.
  unfold placed, innerLane, outerLane.
  intros [(D & I & L) | [(D & I & L) | (D & I & L)]]; rewrite D, I, L;
    destruct (type n); repeat split; try lia; try discriminate; try congruence;
    try (intros [? | ?]; lia); auto.
Qed.

Lemma placed_lookups (n : NoteData) :
  placed n ->
  exists noteX noteY,
    readAt LANE_X_POSITIONS (lineIndex n) = Some noteX /\
    readAt LAYER_Y_POSITIONS (lineLayer n) = Some noteY /\
    (noteX <? 0) = HandType_eqb (type n) Left /\
    (0 <? noteX) = HandType_eqb (type n) Right /\
    (0 <? noteY) = true.
Proof.
  unfold placed, innerLane, outerLane.
  intros [(D & I & L) | [(D & I & L) | (D & I & L)]]; rewrite I, L;
    destruct (type n); do 2 eexists; repeat split; vm_compute; reflexivity.
Qed.

(** X1. The ids of a returned chart are numbered consecutively: when the
    first note is [note-k], the note at position [j] is [note-(k+j)]. *)
Theorem chart_ids_consecutive (env : Browser) (audioUrl : string)
  (chart : list NoteData) (log : list string) :
  analyzeAudioAndGenerateChart env audioUrl = Some (chart, log) ->
  exists k, forall j n, nth_error chart j = Some n -> id n = noteId (k + j).
Proof.
  intros H. destruct (chart_notes env _ _ _ H) as [k Hk].
  exists k. intros j n E. apply (Hk j n E).
Qed.

(** X2. No two notes of a returned chart have the same id. *)
Theorem chart_ids_distinct (env : Browser) (audioUrl : string)
  (chart : list NoteData) (log : list string) :
  analyzeAudioAndGenerateChart env audioUrl = Some (chart, log) ->
  NoDup (map id chart).
Proof.
  intros H. destruct (chart_notes env _ _ _ H) as [k Hk].
  apply NoDup_nth_error. intros i j Hi E.
  rewrite length_map in Hi. rewrite !nth_error_map in E.
  destruct (nth_error chart i) as [a |] eqn:Ea.
  2: { apply nth_error_None in Ea. lia. }
  destruct (nth_error chart j) as [b |] eqn:Eb; [|discriminate].
  injection E as E.
  destruct (Hk i a Ea) as (Ia & _), (Hk j b Eb) as (Ib & _).
  rewrite Ia, Ib in E. apply noteId_inj in E. lia.
Qed.

(** X3. Every note of a returned chart lies in one of the four lanes and in
    the bottom or middle layer, never in the top one; its cut direction is
    never LEFT or RIGHT; a left-hand note is in lane 0 or 1 and a right-hand
    note in lane 2 or 3; the middle layer, the direction ANY and the outer
    lanes go together. *)
Theorem chart_placement_domain (env : Browser) (audioUrl : string)
  (chart : list NoteData) (log : list string) :
  analyzeAudioAndGenerateChart env audioUrl = Some (chart, log) ->
  Forall (fun n =>
    (0 <= lineIndex n <= 3)%Z /\ (0 <= lineLayer n <= 1)%Z /\
    cutDirection n <> LEFT /\ cutDirection n <> RIGHT /\
    (type n = Left -> (lineIndex n <= 1)%Z) /\
    (type n = Right -> (2 <= lineIndex n)%Z) /\
    (lineLayer n = 1%Z <-> cutDirection n = ANY) /\
    (cutDirection n = ANY <-> lineIndex n = 0%Z \/ lineIndex n = 3%Z)) chart.
Proof.
  intros H. destruct (chart_notes env _ _ _ H) as [k Hk].
  apply Forall_forall. intros n Hn.
  apply In_nth_error in Hn. destruct Hn as [j Hj].
  apply placed_domain. apply (Hk j n Hj).
Qed.

(** X4. For every note of a returned chart the reads
    [LANE_X_POSITIONS[note.lineIndex]] and [LAYER_Y_POSITIONS[note.lineLayer]]
    of the scene are defined; the lane position is negative for a left-hand
    note and positive for a right-hand one, and the layer height is
    positive. *)
Theorem chart_positions_defined (env : Browser) (audioUrl : string)
  (chart : list NoteData) (log : list string) :
  analyzeAudioAndGenerateChart env audioUrl = Some (chart, log) ->
  Forall (fun n => exists noteX noteY,
    readAt LANE_X_POSITIONS (lineIndex n) = Some noteX /\
    readAt LAYER_Y_POSITIONS (lineLayer n) = Some noteY /\
    (noteX <? 0) = HandType_eqb (type n) Left /\
    (0 <? noteX) = HandType_eqb (type n) Right /\
    (0 <? noteY) = true) chart.
Proof.
  intros H. destruct (chart_notes env _ _ _ H) as [k Hk].
  apply Forall_forall. intros n Hn.
  apply In_nth_error in Hn. destruct Hn as [j Hj].
  apply placed_lookups. apply (Hk j n Hj).
Qed.

(** X5. The hand of a note follows from its number: [note-j] is a left-hand
    note when [j] is even and a right-hand note when [j] is odd. *)
Theorem chart_hand_parity (env : Browser) (audioUrl : string)
  (chart : list NoteData) (log : list string) :
  analyzeAudioAndGenerateChart env audioUrl = Some (chart, log) ->
  Forall (fun n => exists j, id n = noteId j /\
                             type n = if Nat.even j then Left else Right) chart.
Proof.
  intros H. destruct (chart_notes env _ _ _ H) as [k Hk].
  apply Forall_forall. intros n Hn.
  apply In_nth_error in Hn. destruct Hn as [j Hj].
  exists (k + j)%nat. destruct (Hk j n Hj) as (A & B & _). auto.
Qed.

(** X6. A note of a returned chart whose cut direction is UP or ANY lies at
    least 0.22 s after the note before it: within 0.22 s of a note the
    generator only places DOWN notes. *)
Theorem chart_isolated_gap (env : Browser) (audioUrl : string)
  (chart : list NoteData) (log : list string) (i : nat) (a b : NoteData) :
  analyzeAudioAndGenerateChart env audioUrl = Some (chart, log) ->
  nth_error chart i = Some a -> nth_error chart (S i) = Some b ->
  cutDirection b <> DOWN ->
  (0.22 <=? time b - time a) = true.
Proof.
  intros H Ha Hb D.
  destruct (chart_adjacent env _ _ _ H i a b Ha Hb) as [G _].
  unfold gapOk, gtb in G. apply ltb_iff in G. destruct G as (_ & N & _).
  assert (L : (time b - time a <? 0.22) = false).
  { destruct (chart_from_pass env _ _ _ H) as [[-> _] | (audio & k & _ & ->)].
    - destruct i; discriminate.
    - exact (adjacent_skipn _ k _ (pi_isolated _ _ _ (stateAt_PassInv _ _ _))
               i a b Ha Hb D). }
  apply leb_iff. split; [reflexivity|]. split; [exact N|].
  apply not_ltb_key; [exact N | reflexivity | exact L].
Qed.

(** X7. The time of every note of a returned chart is the start of an
    analysis frame of the decoded recording: [512 * m / sampleRate] for a
    frame number [m] below the number of frames. *)
Theorem chart_times_frame_starts (env : Browser) (audioUrl : string)
  (audio : AudioBuffer) (chart : list NoteData) (log : list string) :
  loadAudio env audioUrl = Normal audio ->
  analyzeAudioAndGenerateChart env audioUrl = Some (chart, log) ->
  Forall (fun n => exists m, (m < frameCount (channelData0 audio))%nat /\
                    time n = num (512 * Z.of_nat m) / sampleRate audio) chart.
Proof.
  intros L H. destruct (chart_frames env _ _ _ _ L H) as [k ->].
  apply Forall_forall. intros n Hn.
  apply In_nth_error in Hn. destruct Hn as [j Hj].
  rewrite nth_error_skipn_add in Hj.
  destruct (pi_notes _ _ _ (stateAt_PassInv _ _ _) _ _ Hj) as (_ & _ & _ & M).
  exact M.
Qed.

(** X8. A returned chart has at most one note per analysis frame of the
    decoded recording. *)
Theorem chart_length_bound (env : Browser) (audioUrl : string)
  (audio : AudioBuffer) (chart : list NoteData) (log : list string) :
  loadAudio env audioUrl = Normal audio ->
  analyzeAudioAndGenerateChart env audioUrl = Some (chart, log) ->
  (length chart <= frameCount (channelData0 audio))%nat.
Proof.
  intros L H. destruct (chart_frames env _ _ _ _ L H) as [k ->].
  rewrite length_skipn.
  pose proof (pi_length _ _ _ (stateAt_PassInv (channelData0 audio)
                                 (sampleRate audio)
                                 (frameCount (channelData0 audio)))).
  lia.
Qed.

(** ** Sums of numbers that are not negative *)

Lemma plusNum_plus (x : spec_float) : plusNum x -> plusOrNaN x.
Proof. destruct x; cbn; auto. Qed.

Lemma plusNum_num (x : spec_float) : plusNum x -> is_nanSF x = false.
Proof. destruct x; cbn; auto. contradiction. Qed.

Lemma plusNum_leb (x : float) : plusNum (Prim2SF x) -> (0 <=? x) = true.
Proof.
  intros H. apply leb_iff. split; [reflexivity|]. split.
  - unfold isNum. rewrite (plusNum_num _ H). reflexivity.
  - change (fkey 0) with 0%Z. apply plus_key, plusNum_plus, H.
Qed.

Lemma binary_round_aux_plusNum (m e : Z) (l : location) :
  (0 <= m)%Z -> plusNum (binary_round_aux prec emax false m e l).
Proof.
  intros Hm.
  pose proof (binary_round_aux_sign false m e l) as S.
  pose proof (binary_round_aux_num false m e l Hm) as N.
  destruct (binary_round_aux prec emax false m e l); cbn in *; auto. discriminate.
Qed.

Lemma SFadd_plusNum (x y : spec_float) :
  plusNum x -> plusNum y -> plusNum (SF64add x y).
Proof.
  destruct x as [sx | sx | | sx mx ex], y as [sy | sy | | sy my ey];
    cbn [plusNum]; intros Hx Hy; subst; try contradiction; cbn; auto.
  unfold binary_round.
  destruct (shl_align _ _ _) as [mz ez].
  apply binary_round_aux_plusNum. lia.
Qed.

Lemma gtb_zero_plusNum (d : float) : gtb d 0 = true -> plusNum (Prim2SF d).
Proof.
  unfold gtb. rewrite ltb_spec. change (Prim2SF 0) with (S754_zero false).
  destruct (Prim2SF d) as [s | [] | | [] m e]; cbn; congruence.
Qed.

Lemma sum_plusNum (h : list float) (acc : float) :
  Forall (fun x => plusNum (Prim2SF x)) h -> plusNum (Prim2SF acc) ->
  plusNum (Prim2SF (fold_left add h acc)).
Proof.
  intros H. revert acc. induction H as [| r h Hr _ IH]; intros acc Hacc; cbn [fold_left].
  - exact Hacc.
  - apply IH. rewrite add_spec. apply SFadd_plusNum; assumption.
Qed.

Lemma flux_fold_plusNum (diff : nat -> float) (js : list nat) (acc : float) :
  plusNum (Prim2SF acc) ->
  plusNum (Prim2SF (fold_left (fun flux j => if gtb (diff j) 0 then flux + diff j
                                             else flux) js acc)).
Proof.
  revert acc. induction js as [| j js IH]; intros acc Hacc; cbn [fold_left];
    [exact Hacc|].
  apply IH. destruct (gtb (diff j) 0) eqn:G; [|exact Hacc].
  rewrite add_spec. apply SFadd_plusNum; [exact Hacc | apply gtb_zero_plusNum, G].
Qed.

Lemma fluxOf_plusNum (spectrum : list float) (prev : option (list float)) :
  plusNum (Prim2SF (fluxOf spectrum prev)).
Proof.
  unfold fluxOf. destruct prev as [prev |]; [|reflexivity].
  apply (flux_fold_plusNum (fun j => nth j spectrum nan - nth j prev nan)).
  reflexivity.
Qed.

Lemma SFdiv_plusNum (x : spec_float) (m : positive) (e : Z) :
  plusNum x -> plusNum (SF64div x (S754_finite false m e)).
Proof.
  destruct x as [sx | sx | | sx mx ex]; cbn [plusNum]; intros Hx; subst;
    try contradiction; try reflexivity.
  pose proof (SFdiv_finite_num false false mx m ex e) as N.
  unfold SF64div, SFdiv in *. cbn [xorb] in *.
  destruct (SFdiv_core_binary _ _ _ _ _ _) as [[mz ez] lz].
  pose proof (binary_round_aux_sign false mz ez lz) as S.
  destruct (binary_round_aux prec emax false mz ez lz); cbn in *; auto. discriminate.
Qed.

Lemma SFmul_plusNum (x : spec_float) (m : positive) (e : Z) :
  plusNum x -> plusOrNaN (SF64mul x (S754_finite false m e)).
Proof.
  destruct x as [sx | sx | | sx mx ex]; cbn [plusNum]; intros Hx; subst;
    try contradiction; try reflexivity.
  unfold SF64mul, SFmul. cbn [xorb].
  pose proof (binary_round_aux_sign false (Z.pos (mx * m)) (ex + e) loc_Exact) as S.
  destruct (binary_round_aux _ _ _ _ _ _); cbn in *; auto.
Qed.

(** The mean of a flux history is not negative, and neither is the threshold
    the beat decision derives from it. *)
Lemma average_flux_threshold (h : list float) :
  Forall (fun x => plusNum (Prim2SF x)) h -> (1 <= length h <= 50)%nat ->
  forall flux, (0 <? flux) = false -> gtb flux (average h * 2.2) = false.
Proof.
  intros Hh Hlen flux Hflux. unfold gtb.
  apply not_true_is_false. intros L.
  apply ltb_iff in L. destruct L as (_ & Nf & K).
  assert (P : plusOrNaN (Prim2SF (average h * 2.2))).
  { rewrite mul_spec. change (Prim2SF 2.2) with
      (S754_finite false 4953959590107546 (-51)).
    apply SFmul_plusNum. unfold average. rewrite div_spec.
    pose proof (num_small _ Hlen) as Hn. unfold smallCount in Hn.
    destruct (Prim2SF (num (Z.of_nat (length h)))) as [| | | [] m e];
      try discriminate.
    apply SFdiv_plusNum. apply sum_plusNum; [exact Hh | reflexivity]. }
  apply plus_key in P. fold (fkey (average h * 2.2)) in P.
  assert ((0 <? flux) = true); [|congruence].
  apply ltb_iff. split; [reflexivity|]. split; [exact Nf|].
  change (fkey 0) with 0%Z. lia.
Qed.

(** ** The histories are sliding windows *)

Lemma pushHistory_window (g : nat -> float) (k : nat) :
  pushHistory (map g (window k)) (g k) = map g (window (S k)).
Proof.
  unfold pushHistory, window, historySize.
  rewrite length_app, length_map, length_seq. cbn [length].
  destruct (Nat.ltb_spec 50 (Nat.min k 50 + 1)) as [L | L].
  - assert (Hk : (50 <= k)%nat) by lia.
    rewrite (Nat.min_r k 50), (Nat.min_r (S k) 50) by lia.
    replace (S k - 50)%nat with (S (k - 50)) by lia.
    assert (E1 : seq (k - 50) 50 = (k - 50)%nat :: seq (S (k - 50)) 49)
      by reflexivity.
    assert (E2 : seq (S (k - 50)) 50 = seq (S (k - 50)) 49 ++ [k]).
    { rewrite (seq_S 49 (S (k - 50))). f_equal. f_equal. lia. }
    rewrite E1, E2, map_app. reflexivity.
  - rewrite (Nat.min_l k 50), (Nat.min_l (S k) 50) by lia.
    rewrite !Nat.sub_diag, seq_S, map_app. reflexivity.
Qed.

Lemma stateAt_histories (data : list float) (rate : float) (k : nat) :
  energyHistory (stateAt data rate k) = map (rmsAt data) (window k) /\
  fluxHistory (stateAt data rate k) = map (fluxAt data) (window k) /\
  prevSpectrum (stateAt data rate k) = prevSpectrumAt data k.
Proof.
  induction k as [| k (IHe & IHf & IHp)]; [repeat split|].
  rewrite stateAt_S.
  destruct (step_cases data rate (hopSize * Z.of_nat k) (stateAt data rate k))
    as (E & F & P & _).
  rewrite E, F, P, IHe, IHf. unfold measure. cbn [fst f_rms f_flux].
  rewrite IHp.
  split; [|split].
  - apply (pushHistory_window (rmsAt data)).
  - apply (pushHistory_window (fluxAt data)).
  - reflexivity.
Qed.

(** The measurements of iteration [k] in terms of the recording alone. *)
Lemma measure_at (data : list float) (rate : float) (k : nat) :
  fst (measure data rate (hopSize * Z.of_nat k) (stateAt data rate k)) =
  {| f_rms := rmsAt data k; f_flux := fluxAt data k;
     f_avgEnergy := average (map (rmsAt data) (window (S k)));
     f_avgFlux := average (map (fluxAt data) (window (S k)));
     f_time := num (hopSize * Z.of_nat k) / rate |}.
Proof.
  destruct (stateAt_histories data rate k) as (E & F & P).
  unfold measure. cbn [fst]. rewrite E, F, P.
  rewrite <- !pushHistory_window. reflexivity.
Qed.

Lemma window_length (k : nat) : (1 <= length (window (S k)) <= 50)%nat.
Proof. unfold window, historySize. rewrite length_seq. lia. Qed.

(** Whether iteration [k] adds a note is decided by [accepted] on the
    measurements of the frame. *)
Lemma stateAt_rejected (data : list float) (rate : float) (k : nat) :
  accepted (fst (measure data rate (hopSize * Z.of_nat k) (stateAt data rate k)))
    (lastNoteTime (stateAt data rate k)) = false ->
  notes (stateAt data rate (S k)) = notes (stateAt data rate k).
Proof.
  intros A. rewrite stateAt_S.
  destruct (step_cases data rate (hopSize * Z.of_nat k) (stateAt data rate k))
    as (_ & _ & _ & _ & [[_ (E & _)] | [A' _]]); [exact E | congruence].
Qed.

Lemma fluxOf_no_rise (spectrum prev : list float) :
  (forall j, (j < length spectrum)%nat ->
             (nth j prev nan <? nth j spectrum nan) = false) ->
  fluxOf spectrum (Some prev) = 0.
Proof.
  intros H. unfold fluxOf.
  assert (In_seq : forall j, In j (seq 0 (length spectrum)) ->
                             (j < length spectrum)%nat)
    by (intros j Hj; apply in_seq in Hj; lia).
  revert In_seq. generalize (seq 0 (length spectrum)). intros js Hjs.
  induction js as [| j js IH]; cbn [fold_left]; [reflexivity|].
  destruct (gtb _ 0) eqn:G.
  - unfold gtb in G. apply sub_gtb_ltb in G; [|vm_compute; discriminate].
    rewrite H in G by (apply Hjs; left; reflexivity). discriminate.
  - apply IH. intros j' Hj'. apply Hjs. right. exact Hj'.
Qed.

Lemma spectrumOf_length (frame : list float) : length (spectrumOf frame) = 40%nat.
Proof. unfold spectrumOf. rewrite length_map, length_seq. reflexivity. Qed.

Lemma no_flux_rejected (data : list float) (rate : float) (k : nat) :
  (0 <? fluxAt data k) = false ->
  notes (stateAt data rate (S k)) = notes (stateAt data rate k).
Proof.
  intros Z. apply stateAt_rejected. rewrite measure_at.
  unfold accepted. cbn [f_rms f_flux f_avgEnergy f_avgFlux f_time].
  destruct (rmsAt data k <? 0.06); [reflexivity|].
  destruct (fluxAt data k <? rmsAt data k * 0.6); [reflexivity|].
  rewrite (average_flux_threshold (map (fluxAt data) (window (S k)))).
  - rewrite andb_false_r. reflexivity.
  - apply Forall_forall. intros x Hx. apply in_map_iff in Hx.
    destruct Hx as (j & <- & _). apply fluxOf_plusNum.
  - rewrite length_map. apply window_length.
  - exact Z.
Qed.

(** ** Values that are not numbers *)

Lemma fold_add_isNum (l : list float) (acc : float) :
  isNum (fold_left add l acc) = true ->
  isNum acc = true /\ Forall (fun x => isNum x = true) l.
Proof.
  revert acc. induction l as [| x l IH]; intros acc H; cbn [fold_left] in H.
  - auto.
  - destruct (IH _ H) as [A F]. apply add_isNum in A. destruct A. auto.
Qed.

Lemma fold_squares_isNum (l : list float) (acc : float) :
  isNum (fold_left (fun s v => s + v * v) l acc) = true ->
  isNum acc = true /\ Forall (fun x => isNum x = true) l.
Proof.
  revert acc. induction l as [| x l IH]; intros acc H; cbn [fold_left] in H.
  - auto.
  - destruct (IH _ H) as [A F]. apply add_isNum in A. destruct A as [A M].
    apply mul_isNum in M. destruct M. auto.
Qed.

Lemma sqrt_isNum (x : float) : isNum (sqrt x) = true -> isNum x = true.
Proof.
  unfold isNum. rewrite sqrt_spec. unfold SF64sqrt.
  destruct (Prim2SF x) as [[]|[]| |? ? ?]; cbn [SFsqrt is_nanSF negb]; auto.
Qed.

Lemma rmsOf_isNum (frame : list float) :
  isNum (rmsOf frame) = true -> Forall (fun x => isNum x = true) frame.
Proof.
  unfold rmsOf. intros H. apply sqrt_isNum, div_isNum in H.
  apply (fold_squares_isNum frame 0), H.
Qed.

Lemma average_isNum (h : list float) :
  isNum (average h) = true -> Forall (fun x => isNum x = true) h.
Proof.
  unfold average, sum. intros H. apply div_isNum in H.
  apply (fold_add_isNum h 0), H.
Qed.

(** No beat is accepted when the mean of the energy history is not a
    number. *)
Lemma accepted_isNum (f : Frame) (t : float) :
  accepted f t = true -> isNum (f_avgEnergy f) = true /\ isNum (f_rms f) = true.
Proof.
  unfold accepted.
  destruct (f_rms f <? 0.06); [discriminate|].
  destruct (f_flux f <? f_rms f * 0.6); [discriminate|].
  intros H. apply andb_prop in H. destruct H as [H _].
  apply andb_prop in H. destruct H as [H _].
  unfold gtb in H. apply ltb_iff in H. destruct H as (A & B & _).
  apply mul_isNum in A. destruct A. auto.
Qed.

Lemma abs_orZero_plusNum (v : option float) : plusNum (Prim2SF (abs (orZero v))).
Proof.
  rewrite abs_spec. unfold orZero.
  destruct v as [x |]; [|reflexivity].
  unfold truthy. destruct (is_nan x) eqn:N; cbn [orb negb]; [reflexivity|].
  destruct (is_zero x); cbn [negb]; [reflexivity|].
  pose proof (isNum_is_nan x) as I. rewrite N in I. unfold isNum in I.
  destruct (Prim2SF x); cbn in *; auto. discriminate.
Qed.

(** X9. The spectral flux the loop computes is a number and is not negative,
    whatever the two magnitude arrays hold (numbers, infinities or NaN) and
    whatever their lengths. *)
Theorem flux_nonnegative (spectrum : list float) (prev : option (list float)) :
  (0 <=? fluxOf spectrum prev) = true /\ is_nan (fluxOf spectrum prev) = false.
Proof.
  pose proof (fluxOf_plusNum spectrum prev) as P. split.
  - apply plusNum_leb, P.
  - pose proof (isNum_is_nan (fluxOf spectrum prev)) as I.
    unfold isNum in I. rewrite (plusNum_num _ P) in I.
    destruct (is_nan _); [discriminate | reflexivity].
Qed.

(** X10. The magnitude array of a frame has 40 entries, each a number that
    is not negative, also when the frame is shorter than 160 samples or holds
    samples that are not numbers. *)
Theorem spectrum_entries_nonnegative (frame : list float) :
  length (spectrumOf frame) = 40%nat /\
  Forall (fun x => (0 <=? x) = true) (spectrumOf frame).
Proof.
  split; [apply spectrumOf_length|].
  unfold spectrumOf. apply Forall_forall. intros x Hx.
  apply in_map_iff in Hx. destruct Hx as (j & <- & _).
  apply plusNum_leb, abs_orZero_plusNum.
Qed.

(** X11. When no entry of the magnitude array is larger than the entry of
    the previous array, the flux is exactly 0. *)
Theorem flux_zero_without_rise (spectrum prev : list float) :
  (forall j, (j < length spectrum)%nat ->
             (nth j prev nan <? nth j spectrum nan) = false) ->
  fluxOf spectrum (Some prev) = 0.
Proof. apply fluxOf_no_rise. Qed.

(** X12. An iteration whose frame has no positive flux adds no note,
    whatever the energy of the frame. *)
Theorem zero_flux_no_note (data : list float) (rate : float) (k : nat) :
  (0 <? fluxAt data k) = false ->
  notes (stateAt data rate (S k)) = notes (stateAt data rate k).
Proof. apply no_flux_rejected. Qed.

(** X13. When iteration [k] starts, the energy history holds the rms values
    and the flux history the flux values of the last 50 frames before frame
    [k], oldest first (of all of them while there are fewer), and
    [prevSpectrum] is the magnitude array of frame [k - 1]; so the two means
    of iteration [k] run over frame [k] and the up to 49 frames before it. *)
Theorem histories_are_windows (data : list float) (rate : float) (k : nat) :
  let st := stateAt data rate k in
  let f := fst (measure data rate (hopSize * Z.of_nat k) st) in
  energyHistory st = map (rmsAt data) (seq (k - Nat.min k 50) (Nat.min k 50)) /\
  fluxHistory st = map (fluxAt data) (seq (k - Nat.min k 50) (Nat.min k 50)) /\
  prevSpectrum st = prevSpectrumAt data k /\
  f_avgEnergy f =
    average (map (rmsAt data) (seq (S k - Nat.min (S k) 50) (Nat.min (S k) 50))) /\
  f_avgFlux f =
    average (map (fluxAt data) (seq (S k - Nat.min (S k) 50) (Nat.min (S k) 50))).
Proof.
  cbv zeta. destruct (stateAt_histories data rate k) as (E & F & P).
  rewrite measure_at. auto.
Qed.

(** X14. A sample that is not a number silences the detector: when frame [k]
    holds a NaN, iteration [k] and the 49 iterations after it add no note. *)
Theorem nan_sample_silences (data : list float) (rate : float) (k d : nat) :
  Exists (fun v => is_nan v = true) (frameAt data k) ->
  (d < 50)%nat ->
  notes (stateAt data rate (S (k + d))) = notes (stateAt data rate (k + d)).
Proof.
  intros Hnan Hd. apply stateAt_rejected.
  apply not_true_is_false. intros A. apply accepted_isNum in A.
  destruct A as [A _]. rewrite measure_at in A. cbn [f_avgEnergy] in A.
  apply average_isNum in A. rewrite Forall_forall in A.
  assert (R : isNum (rmsAt data k) = true).
  { apply A. apply in_map. unfold window, historySize. apply in_seq. lia. }
  apply rmsOf_isNum in R. rewrite Forall_forall in R.
  apply Exists_exists in Hnan. destruct Hnan as (v & Hv & N).
  specialize (R v Hv). rewrite isNum_is_nan, N in R. discriminate.
Qed.

(** ** Recordings of one value *)

Lemma skipn_repeat {A : Type} (v : A) (i n : nat) :
  skipn i (repeat v n) = repeat v (n - i).
Proof.
  revert n. induction i as [| i IH]; intros n.
  - rewrite Nat.sub_0_r. reflexivity.
  - destruct n as [| n]; [reflexivity | apply IH].
Qed.

Lemma firstn_repeat {A : Type} (v : A) (m n : nat) :
  (m <= n)%nat -> firstn m (repeat v n) = repeat v m.
Proof.
  revert n. induction m as [| m IH]; intros n H; [reflexivity|].
  destruct n as [| n]; [lia|]. cbn. f_equal. apply IH. lia.
Qed.

Lemma frameCount_inside (data : list float) (k : nat) :
  (k < frameCount data)%nat ->
  (hopSize * Z.of_nat k + windowSize < Z.of_nat (length data))%Z.
Proof.
  unfold frameCount, hopSize, windowSize. intros H.
  set (n := Z.of_nat (length data)) in *.
  assert (Hq : (Z.of_nat k < (n - 2048 + 512 - 1) / 512)%Z) by lia.
  pose proof (Z.mul_div_le (n - 2048 + 512 - 1) 512 eq_refl). lia.
Qed.

Lemma frameAt_repeat (v : float) (n k : nat) :
  (k < frameCount (repeat v n))%nat -> frameAt (repeat v n) k = repeat v 2048.
Proof.
  intros H. apply frameCount_inside in H. rewrite repeat_length in H.
  unfold frameAt, slice, hopSize, windowSize in *.
  rewrite skipn_repeat.
  replace (512 * Z.of_nat k + 2048 - 512 * Z.of_nat k)%Z with 2048%Z by lia.
  apply firstn_repeat. lia.
Qed.

Lemma ltb_irrefl (x : float) : (x <? x) = false.
Proof.
  apply not_true_is_false. intros H. apply ltb_iff in H. lia.
Qed.

Lemma repeat_no_flux (v : float) (n k : nat) :
  (k < frameCount (repeat v n))%nat -> fluxAt (repeat v n) k = 0.
Proof.
  intros H. unfold fluxAt. destruct k as [| k]; [reflexivity|].
  cbn [prevSpectrumAt]. apply fluxOf_no_rise. intros j _.
  unfold spectrumAt. rewrite !frameAt_repeat by lia. apply ltb_irrefl.
Qed.

Lemma repeat_no_notes (v : float) (n : nat) (rate : float) (k : nat) :
  (k <= frameCount (repeat v n))%nat -> notes (stateAt (repeat v n) rate k) = [].
Proof.
  induction k as [| k IH]; intros H; [reflexivity|].
  rewrite no_flux_rejected; [apply IH; lia|].
  rewrite repeat_no_flux by lia. reflexivity.
Qed.

(** X15. A recording whose samples all have the same value, silence or not,
    yields the empty chart, whatever the value, the length and the sample
    rate are. *)
Theorem constant_recording_empty_chart (env : Browser) (audioUrl : string)
  (audio : AudioBuffer) (v : float) (n : nat) :
  loadAudio env audioUrl = Normal audio ->
  channelData0 audio = repeat v n ->
  analyzeAudioAndGenerateChart env audioUrl = Some ([], []).
Proof.
  intros L D. unfold analyzeAudioAndGenerateChart, generateChart.
  rewrite L, D, runLoop_stateAt, repeat_no_notes by lia. reflexivity.
Qed.

(** ** The recording enters the pass through its frames only *)

Lemma measure_ext (d1 d2 : list float) (rate : float) (i : Z) (st : LoopState) :
  slice d1 i (i + windowSize) = slice d2 i (i + windowSize) ->
  measure d1 rate i st = measure d2 rate i st.
Proof. intros E. unfold measure. rewrite E. reflexivity. Qed.

Lemma step_ext (d1 d2 : list float) (rate : float) (i : Z) (st : LoopState) :
  slice d1 i (i + windowSize) = slice d2 i (i + windowSize) ->
  step d1 rate i st = step d2 rate i st.
Proof. intros E. unfold step. rewrite (measure_ext d1 d2 rate i st E). reflexivity. Qed.

Lemma stateAt_ext (d1 d2 : list float) (rate : float) (k : nat) :
  (forall j, (j < k)%nat -> frameAt d1 j = frameAt d2 j) ->
  stateAt d1 rate k = stateAt d2 rate k.
Proof.
  induction k as [| k IH]; intros H; [reflexivity|].
  rewrite !stateAt_S, IH by (intros j Hj; apply H; lia).
  apply step_ext. apply (H k). lia.
Qed.

(** The notes only grow. *)
Lemma stateAt_notes_prefix (data : list float) (rate : float) (k d : nat) :
  exists rest, notes (stateAt data rate (k + d)) = notes (stateAt data rate k) ++ rest.
Proof.
  induction d as [| d (rest & IH)].
  - exists []. rewrite Nat.add_0_r, app_nil_r. reflexivity.
  - rewrite Nat.add_succ_r, stateAt_S.
    destruct (step_cases data rate (hopSize * Z.of_nat (k + d))
                (stateAt data rate (k + d)))
      as (_ & _ & _ & _ & [[_ (E & _)] | [_ (n & E & _)]]); rewrite E, IH.
    + exists rest. reflexivity.
    + exists (rest ++ [n]). rewrite app_assoc. reflexivity.
Qed.

Lemma frameAt_app (data more : list float) (k : nat) :
  (hopSize * Z.of_nat k + windowSize <= Z.of_nat (length data))%Z ->
  frameAt (data ++ more) k = frameAt data k.
Proof.
  unfold frameAt, slice, hopSize, windowSize. intros H.
  replace (512 * Z.of_nat k + 2048 - 512 * Z.of_nat k)%Z with 2048%Z by lia.
  rewrite skipn_app, firstn_app, length_skipn.
  replace (Z.to_nat 2048 - (length data - Z.to_nat (512 * Z.of_nat k)))%nat
    with 0%nat by lia.
  cbn [firstn]. apply app_nil_r.
Qed.

Lemma frameCount_app (data more : list float) :
  (frameCount data <= frameCount (data ++ more))%nat.
Proof.
  unfold frameCount, hopSize, windowSize. rewrite length_app.
  assert (H : ((Z.of_nat (length data) - 2048 + 512 - 1) / 512 <=
               (Z.of_nat (length data + length more) - 2048 + 512 - 1) / 512)%Z)
    by (apply Z.div_le_mono; lia).
  lia.
Qed.

(** ** The samples enter the measurements through their magnitudes only *)

Lemma mul_abs (x : float) : abs x * abs x = x * x.
Proof.
  apply Prim2SF_inj. rewrite !mul_spec, abs_spec.
  destruct (Prim2SF x) as [[] | [] | | [] m e]; reflexivity.
Qed.

Lemma abs_abs (x : float) : abs (abs x) = abs x.
Proof.
  apply Prim2SF_inj. rewrite !abs_spec.
  destruct (Prim2SF x) as [[] | [] | | [] m e]; reflexivity.
Qed.

Lemma is_nan_abs (x : float) : is_nan (abs x) = is_nan x.
Proof.
  pose proof (isNum_is_nan x) as A. pose proof (isNum_is_nan (abs x)) as B.
  assert (E : isNum (abs x) = isNum x).
  { unfold isNum. rewrite abs_spec.
    destruct (Prim2SF x) as [[] | [] | | [] m e]; reflexivity. }
  rewrite E, A in B. destruct (is_nan x), (is_nan (abs x)); cbn in *; congruence.
Qed.

Lemma is_zero_abs_eq (x : float) : is_zero (abs x) = is_zero x.
Proof.
  unfold is_zero. rewrite !eqb_spec, abs_spec.
  change (Prim2SF zero) with (S754_zero false).
  destruct (Prim2SF x) as [[] | [] | | [] m e]; reflexivity.
Qed.

Lemma abs_orZero_abs (v : option float) :
  abs (orZero (option_map abs v)) = abs (orZero v).
Proof.
  destruct v as [x |]; [|reflexivity]. cbn [option_map orZero].
  unfold truthy. rewrite is_nan_abs, is_zero_abs_eq.
  destruct (negb _); [apply abs_abs | reflexivity].
Qed.

Lemma fold_squares_abs (frame : list float) (acc : float) :
  fold_left (fun s v => s + v * v) (map abs frame) acc =
  fold_left (fun s v => s + v * v) frame acc.
Proof.
  revert acc. induction frame as [| v frame IH]; intros acc; cbn [map fold_left].
  - reflexivity.
  - rewrite mul_abs. apply IH.
Qed.

Lemma rmsOf_abs (frame : list float) : rmsOf (map abs frame) = rmsOf frame.
Proof. unfold rmsOf. rewrite length_map, fold_squares_abs. reflexivity. Qed.

Lemma spectrumOf_abs (frame : list float) :
  spectrumOf (map abs frame) = spectrumOf frame.
Proof.
  unfold spectrumOf. apply map_ext. intros j.
  rewrite nth_error_map. apply abs_orZero_abs.
Qed.

Lemma slice_map {A B : Type} (g : A -> B) (l : list A) (i j : Z) :
  slice (map g l) i j = map g (slice l i j).
Proof. unfold slice. rewrite skipn_map, firstn_map. reflexivity. Qed.

Lemma step_abs (data : list float) (rate : float) (i : Z) (st : LoopState) :
  step (map abs data) rate i st = step data rate i st.
Proof.
  unfold step, measure. rewrite slice_map, rmsOf_abs, spectrumOf_abs. reflexivity.
Qed.

Lemma stateAt_abs (data : list float) (rate : float) (k : nat) :
  stateAt (map abs data) rate k = stateAt data rate k.
Proof.
  induction k as [| k IH]; [reflexivity|].
  rewrite !stateAt_S, IH. apply step_abs.
Qed.

Lemma generateChart_stateAt (data : list float) (rate : float) :
  generateChart {| channelData0 := data; sampleRate := rate |} =
  Some (leadInFilter (notes (stateAt data rate (frameCount data)))).
Proof.
  unfold generateChart. cbn [channelData0 sampleRate].
  rewrite runLoop_stateAt. reflexivity.
Qed.

Lemma generateChart_abs (data : list float) (rate : float) :
  generateChart {| channelData0 := map abs data; sampleRate := rate |} =
  generateChart {| channelData0 := data; sampleRate := rate |}.
Proof.
  rewrite !generateChart_stateAt, stateAt_abs.
  unfold frameCount. rewrite length_map. reflexivity.
Qed.

(** X16. The chart depends on the magnitudes of the samples only: two
    recordings whose samples agree up to sign, such as a recording and its
    polarity-inverted copy, get the same chart. *)
Theorem chart_depends_on_magnitudes (data1 data2 : list float) (rate : float) :
  map abs data1 = map abs data2 ->
  generateChart {| channelData0 := data1; sampleRate := rate |} =
  generateChart {| channelData0 := data2; sampleRate := rate |}.
Proof.
  intros E. rewrite <- (generateChart_abs data1), <- (generateChart_abs data2), E.
  reflexivity.
Qed.

(** X17. The pass is causal: appending samples to a recording never changes
    the notes already in its chart; the chart of the longer recording is the
    chart of the shorter one followed by further notes. *)
Theorem longer_recording_extends_chart (data more : list float) (rate : float) :
  exists chart rest,
    generateChart {| channelData0 := data; sampleRate := rate |} = Some chart /\
    generateChart {| channelData0 := data ++ more; sampleRate := rate |} =
      Some (chart ++ rest).
Proof.
  rewrite !generateChart_stateAt.
  pose proof (frameCount_app data more) as M.
  destruct (stateAt_notes_prefix (data ++ more) rate (frameCount data)
              (frameCount (data ++ more) - frameCount data)) as [rest R].
  replace (frameCount data + (frameCount (data ++ more) - frameCount data))%nat
    with (frameCount (data ++ more)) in R by lia.
  rewrite (stateAt_ext (data ++ more) data rate (frameCount data)) in R.
  - exists (leadInFilter (notes (stateAt data rate (frameCount data)))),
      (leadInFilter rest).
    split; [reflexivity|]. rewrite R. unfold leadInFilter.
    rewrite filter_app. reflexivity.
  - intros j Hj. apply frameAt_app. apply frameCount_inside in Hj. lia.
Qed.

(** * The scene *)

Lemma updateAt_length {A : Type} (f : A -> A) (ref : nat) (l : list A) :
  length (updateAt f ref l) = length l.
Proof.
  revert ref. induction l as [| a l IH]; intros [| ref]; cbn; auto.
Qed.

Lemma updateAt_same {A : Type} (f : A -> A) (ref : nat) (l : list A) :
  nth_error (updateAt f ref l) ref = option_map f (nth_error l ref).
Proof.
  revert ref. induction l as [| a l IH]; intros [| ref]; cbn; auto.
Qed.

Lemma updateAt_other {A : Type} (f : A -> A) (ref j : nat) (l : list A) :
  j <> ref -> nth_error (updateAt f ref l) j = nth_error l j.
Proof.
  revert ref j. induction l as [| a l IH]; intros [| ref] [| j] H; cbn; auto;
    contradiction.
Qed.

Lemma removeAt_perm {A : Type} (i : nat) (l : list A) (x : A) :
  nth_error l i = Some x -> Permutation (x :: removeAt i l) l.
Proof.
  revert l. induction i as [| i IH]; intros [| a l] H; try discriminate.
  - injection H as ->. reflexivity.
  - cbn in H. unfold removeAt in *. cbn [firstn skipn app].
    etransitivity; [apply perm_swap|]. apply perm_skip. apply IH, H.
Qed.

Lemma noteRefs_app (cs ds : list SceneCall) :
  noteRefs (cs ++ ds) = noteRefs cs ++ noteRefs ds.
Proof. unfold noteRefs. apply flat_map_app. Qed.

Lemma In_noteRefs (ref : nat) (cs : list SceneCall) :
  In ref (noteRefs cs) <->
  In (NoteMiss ref) cs \/ exists goodCut, In (NoteHit ref goodCut) cs.
Proof.
  unfold noteRefs. rewrite in_flat_map. split.
  - intros (c & Hc & Hr). destruct c as [r g | r |]; cbn in Hr;
      try contradiction; destruct Hr as [-> | []]; eauto.
  - intros [H | (g & H)]; eexists; (split; [exact H | left; reflexivity]).
Qed.

Lemma visit_cases (pow : float -> float -> float) (now : float)
  (hands : HandPositions) (i : nat) (sc : SceneState) :
  visit pow now hands i sc = sc \/
  exists ref note call change,
    resolves now hands i ref note call change sc (visit pow now hands i sc).
Proof.
  unfold visit.
  destruct (nth_error (activeNotes sc) i) as [ref |] eqn:Ea; [|auto].
  destruct (nth_error (notesState sc) ref) as [note |] eqn:En; [|auto].
  destruct (resolved note) eqn:R; [auto|].
  destruct (gtb (currentZ note now) MISS_Z) eqn:M.
  { right. exists ref, note, (NoteMiss ref), setMissed.
    unfold resolves. cbn. repeat split; auto. }
  destruct (_ && _); [|auto].
  destruct (handOf hands (type note)) as [handPos |] eqn:Eh; [|auto].
  destruct (_ <? 1.5); [|auto].
  right. exists ref, note, (NoteHit ref true), (setHit now).
  unfold resolves. cbn. rewrite Eh. repeat split; auto. right.
  repeat split; auto. discriminate.
Qed.

Lemma resolved_false (n : NoteData) :
  resolved n = false -> flagSet (hit n) = false /\ flagSet (missed n) = false.
Proof. unfold resolved. apply orb_false_elim. Qed.

Lemma removeAt_moved (i ref : nat) (active refs : list nat) :
  nth_error active i = Some ref ->
  Permutation (removeAt i active ++ refs ++ [ref]) (active ++ refs).
Proof.
  intros H. rewrite app_assoc.
  etransitivity; [symmetry; apply Permutation_cons_append|].
  rewrite app_comm_cons. apply Permutation_app_tail, removeAt_perm, H.
Qed.

Lemma SceneInv_resolves (now : float) (hands : HandPositions) (i ref : nat)
  (note : NoteData) (call : SceneCall) (change : NoteData -> NoteData)
  (sc sc' : SceneState) :
  SceneInv sc -> resolves now hands i ref note call change sc sc' -> SceneInv sc'.
Proof.
  intros [Hnext Hnodup Hspawned Hflags]
    (Ea & En & R & Es & Eact & Enext & Ecalls & Hcase).
  assert (Hrefs : noteRefs [call] = [ref])
    by (destruct Hcase as [(-> & _) | (-> & _)]; reflexivity).
  pose proof (removeAt_moved i ref _ (noteRefs (calls sc)) Ea) as P.
  destruct (resolved_false _ R) as [Rh Rm].
  destruct (Hflags ref note En) as (Fm & Fh & _).
  split.
  - rewrite Es, updateAt_length, Enext. exact Hnext.
  - rewrite Eact, Ecalls, noteRefs_app, Hrefs.
    apply (Permutation_NoDup (Permutation_sym P)), Hnodup.
  - intros r. rewrite Eact, Ecalls, noteRefs_app, Hrefs, Enext, Hspawned. split.
    + apply Permutation_in, Permutation_sym, P.
    + apply Permutation_in, P.
  - intros r n Hn. rewrite Es in Hn. rewrite Ecalls.
    destruct (Nat.eq_dec r ref) as [-> | Hr].
    + rewrite updateAt_same, En in Hn. injection Hn as <-.
      destruct Hcase as [(-> & -> & _) | (-> & -> & _)]; cbn [setMissed setHit hit missed flagSet].
      * split; [|split].
        -- split; [intros _; apply in_or_app; right; left; reflexivity | reflexivity].
        -- rewrite Rh. split; [discriminate|].
           intros (g & Hg). apply in_app_or in Hg. destruct Hg as [Hg | [Hg | []]];
             [|discriminate].
           assert (flagSet (hit note) = true) by (apply Fh; eauto). congruence.
        -- rewrite Rh. reflexivity.
      * split; [|split].
        -- rewrite Rm. split; [discriminate|].
           intros Hg. apply in_app_or in Hg. destruct Hg as [Hg | [Hg | []]];
             [|discriminate].
           assert (flagSet (missed note) = true) by (apply Fm; exact Hg). congruence.
        -- split; [|reflexivity]. intros _. exists true.
           apply in_or_app. right. left. reflexivity.
        -- rewrite Rm. reflexivity.
    + rewrite updateAt_other in Hn by exact Hr.
      destruct (Hflags r n Hn) as (Gm & Gh & Gb). split; [|split]; [| |exact Gb].
      * rewrite Gm. split; [intros H; apply in_or_app; auto|].
        intros H. apply in_app_or in H. destruct H as [H | [H | []]]; [exact H|].
        destruct Hcase as [(-> & _) | (-> & _)]; congruence.
      * rewrite Gh. split; intros (g & H); exists g.
        -- apply in_or_app; auto.
        -- apply in_app_or in H. destruct H as [H | [H | []]]; [exact H|].
           destruct Hcase as [(-> & _) | (-> & _)]; congruence.
Qed.

Lemma SceneInv_visit (pow : float -> float -> float) (now : float)
  (hands : HandPositions) (i : nat) (sc : SceneState) :
  SceneInv sc -> SceneInv (visit pow now hands i sc).
Proof.
  intros H. destruct (visit_cases pow now hands i sc)
    as [-> | (ref & note & call & change & R)]; [exact H|].
  exact (SceneInv_resolves _ _ _ _ _ _ _ _ _ H R).
Qed.

Lemma SceneInv_collide (pow : float -> float -> float) (now : float)
  (hands : HandPositions) (count : nat) (sc : SceneState) :
  SceneInv sc -> SceneInv (collide pow now hands count sc).
Proof.
  revert sc. induction count as [| i IH]; intros sc H; cbn [collide]; [exact H|].
  apply IH, SceneInv_visit, H.
Qed.

(** The spawn loop makes the next [m] notes active, in their order. *)
Lemma spawnFrom_spec (rest : list NoteData) (now : float) (active : list nat)
  (next : nat) :
  exists m, (m <= length rest)%nat /\
    spawnFrom rest now active next = (active ++ seq next m, (next + m)%nat) /\
    (forall j n, (j < m)%nat -> nth_error rest j = Some n ->
                 (time n - spawnAheadTime <=? now) = true) /\
    (forall n, nth_error rest m = Some n ->
               (time n - spawnAheadTime <=? now) = false).
Proof.
  revert active next. induction rest as [| a rest IH]; intros active next.
  - exists 0%nat. cbn. rewrite app_nil_r, Nat.add_0_r.
    repeat split; try lia. discriminate.
  - cbn [spawnFrom]. destruct (time a - spawnAheadTime <=? now) eqn:D.
    + destruct (IH (active ++ [next]) (S next)) as (m & Hm & E & Hdue & Hstop).
      exists (S m). rewrite E, <- app_assoc. cbn [length seq app nth_error].
      repeat split; try lia.
      * f_equal. lia.
      * intros [| j] n Hj Hn; [injection Hn as <-; exact D|].
        apply (Hdue j n); [lia | exact Hn].
      * exact Hstop.
    + exists 0%nat. cbn [seq nth_error]. rewrite app_nil_r, Nat.add_0_r.
      repeat split; try lia. intros n [= <-]. exact D.
Qed.

Lemma spawn_spec (now : float) (sc : SceneState) :
  exists m, (nextNoteIndex sc + m <= Nat.max (nextNoteIndex sc) (length (notesState sc)))%nat /\
    spawn now sc =
    {| notesState := notesState sc;
       activeNotes := activeNotes sc ++ seq (nextNoteIndex sc) m;
       nextNoteIndex := (nextNoteIndex sc + m)%nat; calls := calls sc |}.
Proof.
  unfold spawn.
  destruct (spawnFrom_spec (skipn (nextNoteIndex sc) (notesState sc)) now
              (activeNotes sc) (nextNoteIndex sc)) as (m & Hm & E & _).
  rewrite E. exists m. split; [|reflexivity].
  rewrite length_skipn in Hm. lia.
Qed.

Lemma SceneInv_spawn (now : float) (sc : SceneState) :
  SceneInv sc -> SceneInv (spawn now sc).
Proof.
  intros [Hnext Hnodup Hspawned Hflags].
  destruct (spawn_spec now sc) as (m & Hm & ->). split; cbn.
  - lia.
  - rewrite <- app_assoc.
    apply (Permutation_NoDup (Permutation_app_swap_app _ _ _)).
    apply NoDup_app; [apply seq_NoDup | exact Hnodup |].
    intros r Hr Hin. apply in_seq in Hr. apply Hspawned in Hin. lia.
  - intros r. rewrite <- app_assoc, in_app_iff, in_app_iff, in_seq.
    specialize (Hspawned r). rewrite in_app_iff in Hspawned. split.
    + intros H. destruct (Nat.lt_ge_cases r (nextNoteIndex sc)) as [L | G].
      * apply Hspawned in L. tauto.
      * right. left. lia.
    + intros [H | [H | H]]; try lia.
      * assert (r < nextNoteIndex sc)%nat by (apply Hspawned; auto). lia.
      * assert (r < nextNoteIndex sc)%nat by (apply Hspawned; auto). lia.
  - exact Hflags.
Qed.

Lemma SceneInv_onFrame (pow : float -> float -> float) (playing ended : bool)
  (now : float) (hands : HandPositions) (sc : SceneState) :
  SceneInv sc -> SceneInv (onFrame pow playing ended now hands sc).
Proof.
  intros H. unfold onFrame. destruct playing; cbn [negb]; [|exact H].
  destruct ended.
  - destruct H as [Hnext Hnodup Hspawned Hflags]. split; cbn.
    + exact Hnext.
    + rewrite noteRefs_app. cbn. rewrite app_nil_r. exact Hnodup.
    + intros r. rewrite noteRefs_app. cbn. rewrite app_nil_r. apply Hspawned.
    + intros r n Hn. destruct (Hflags r n Hn) as (Gm & Gh & Gb).
      split; [|split]; [| |exact Gb].
      * rewrite Gm. split; [intros H; apply in_or_app; auto|].
        intros H. apply in_app_or in H. destruct H as [H | [H | []]];
          [exact H | discriminate].
      * rewrite Gh. split; intros (g & H); exists g.
        -- apply in_or_app; auto.
        -- apply in_app_or in H. destruct H as [H | [H | []]];
             [exact H | discriminate].
  - apply SceneInv_collide, SceneInv_spawn, H.
Qed.

Lemma SceneInv_init (chart : list NoteData) :
  Forall (fun n => resolved n = false) chart -> SceneInv (sceneOf chart).
Proof.
  intros H. split; cbn.
  - lia.
  - constructor.
  - intros r. split; [lia | contradiction].
  - intros r n Hn. rewrite Forall_forall in H.
    destruct (resolved_false n (H n (nth_error_In _ _ Hn))) as [Rh Rm].
    rewrite Rh, Rm. repeat split; try discriminate; try contradiction.
    intros (g & []).
Qed.

Lemma SceneInv_runFrames (pow : float -> float -> float) (frames : list FrameInput)
  (sc : SceneState) :
  SceneInv sc -> SceneInv (runFrames pow frames sc).
Proof.
  revert sc. induction frames as [| f frames IH]; intros sc H; [exact H|].
  apply IH, SceneInv_onFrame, H.
Qed.

(** ** Differences and products that are negative *)

Lemma binary_normalize_key_neg (m e : Z) :
  (key (binary_normalize prec emax m e false) < 0)%Z -> (m < 0)%Z.
Proof.
  unfold binary_normalize, binary_round.
  destruct m as [| p | p]; cbn zeta.
  - cbn. lia.
  - destruct (shl_align p e _) as [mz ez]. intros K.
    pose proof (binary_round_aux_sign false (Z.pos mz) ez loc_Exact) as S.
    assert (P : plusOrNaN (binary_round_aux prec emax false (Z.pos mz) ez loc_Exact))
      by (destruct (binary_round_aux _ _ _ _ _ _); cbn in *; auto).
    apply plus_key in P. lia.
  - lia.
Qed.

(** A difference that rounds to a negative number is a difference of a
    lesser and a greater number. *)
Lemma SFsub_key_neg (x y : spec_float) :
  valid_binary x = true -> valid_binary y = true ->
  (key (SF64sub x y) < 0)%Z ->
  is_nanSF x = false /\ is_nanSF y = false /\ (key x < key y)%Z.
Proof.
  intros Vx Vy. pose proof infKey_pos as Hinf.
  destruct x as [sx | sx | | sx mx ex]; destruct y as [sy | sy | | sy my ey];
    simpl in Vx, Vy; unfold SF64sub; cbn [SFsub is_nanSF].
  16: { (* two finite numbers *)
    intros K. apply binary_normalize_key_neg in K.
    apply bounded_inv in Vx, Vy.
    rewrite (aligned_key sx mx ex (Z.min ex ey)) by lia.
    rewrite (aligned_key sy my ey (Z.min ex ey)) by lia.
    assert (0 < 2 ^ (Z.min ex ey + 1074))%Z by (apply Z.pow_pos_nonneg; lia).
    repeat split. apply Z.mul_lt_mono_pos_r; [assumption | lia]. }
  all: try pose proof (finite_key_bounds _ _ Vx) as Bx;
    try pose proof (finite_key_bounds _ _ Vy) as By_; cbn [key].
  all: try (generalize dependent (Z.pos mx * 2 ^ (ex + 1074))%Z; intros kx Bx).
  all: try (generalize dependent (Z.pos my * 2 ^ (ey + 1074))%Z; intros ky By_).
  all: try (destruct sx; try destruct sy;
            cbn [key cond_Zopp negb]; intros; repeat split; lia).
  all: try (destruct sy;
            cbn [key cond_Zopp negb]; intros; repeat split; lia).
  intros K. lia.
Qed.

Lemma sub_ltb_neg (x y : float) : (x - y <? 0) = true -> (x <? y) = true.
Proof.
  intros H. apply ltb_iff in H. destruct H as (_ & _ & K).
  unfold fkey in *. rewrite sub_spec in K. change (key (Prim2SF 0)) with 0%Z in K.
  destruct (SFsub_key_neg _ _ (Prim2SF_valid x) (Prim2SF_valid y) K) as (Nx & Ny & L).
  apply ltb_iff. unfold isNum, fkey. rewrite Nx, Ny. auto.
Qed.

Lemma mul_ltb_neg (d c : float) (m : positive) (e : Z) :
  Prim2SF c = S754_finite false m e -> (d * c <? 0) = true -> (d <? 0) = true.
Proof.
  intros Hc H. apply ltb_iff in H. destruct H as (N & _ & K).
  unfold isNum, fkey in *. rewrite mul_spec, Hc in *.
  change (key (Prim2SF 0)) with 0%Z in K.
  apply ltb_iff. unfold isNum, fkey. change (key (Prim2SF 0)) with 0%Z.
  pose proof infKey_pos as Hinf. pose proof (Prim2SF_valid d) as V.
  destruct (Prim2SF d) as [s | s | | s md ed]; unfold SF64mul in *;
    cbn [SFmul xorb is_nanSF negb key] in *.
  - destruct s; cbn in K; lia.
  - destruct s; cbn [xorb cond_Zopp] in *; repeat split; lia.
  - discriminate.
  - simpl in V. apply finite_key_bounds in V.
    destruct s; cbn [xorb cond_Zopp] in *.
    + repeat split. lia.
    + pose proof (binary_round_aux_sign false (Z.pos (md * m)) (ed + e) loc_Exact) as S.
      assert (P : plusOrNaN (binary_round_aux prec emax false (Z.pos (md * m))
                               (ed + e) loc_Exact))
        by (destruct (binary_round_aux _ _ _ _ _ _); cbn in *; auto).
      apply plus_key in P. lia.
Qed.

(** A note is beyond the miss line only when the playback time is past the
    time of the note. *)
Lemma beyond_miss_line (n : NoteData) (now : float) :
  gtb (currentZ n now) MISS_Z = true -> (time n <? now) = true.
Proof.
  unfold gtb, currentZ, PLAYER_Z, MISS_Z, NOTE_SPEED. intros H.
  apply sub_gtb_ltb in H; [|vm_compute; discriminate].
  apply (mul_ltb_neg _ 12 6755399441055744 (-49)) in H; [|reflexivity].
  apply sub_ltb_neg, H.
Qed.

(** A property that the resolution of a note keeps is kept by the collision
    loop. *)
Lemma collide_keeps (P : SceneState -> Prop) (pow : float -> float -> float)
  (now : float) (hands : HandPositions) :
  (forall i ref note call change sc sc',
     P sc -> resolves now hands i ref note call change sc sc' -> P sc') ->
  forall count sc, P sc -> P (collide pow now hands count sc).
Proof.
  intros Hres. induction count as [| i IH]; intros sc H; cbn [collide]; [exact H|].
  apply IH. destruct (visit_cases pow now hands i sc)
    as [-> | (ref & note & call & change & R)]; [exact H|].
  exact (Hres _ _ _ _ _ _ _ H R).
Qed.

Lemma updateAt_core (f : NoteData -> NoteData) (ref : nat) (l : list NoteData) :
  (forall n, core (f n) = core n) ->
  map core (updateAt f ref l) = map core l.
Proof.
  intros Hf. revert ref. induction l as [| a l IH]; intros [| ref]; cbn;
    rewrite ?Hf, ?IH; reflexivity.
Qed.

Lemma core_nth (l l' : list NoteData) (ref : nat) (n' : NoteData) :
  map core l' = map core l -> nth_error l' ref = Some n' ->
  exists n, nth_error l ref = Some n /\ core n = core n'.
Proof.
  intros E H. apply (map_nth_error core) in H. rewrite E, nth_error_map in H.
  destruct (nth_error l ref) as [n |]; [|discriminate].
  exists n. split; [reflexivity|]. cbn [option_map] in H. congruence.
Qed.

(** The calls of one frame: the notes keep what the generator chose, and
    every new call is one the frame accounts for. *)
Lemma onFrame_calls (pow : float -> float -> float) (chart : list NoteData)
  (f : FrameInput) (sc : SceneState) :
  map core (notesState sc) = map core chart ->
  let sc' := onFrame pow (in_playing f) (in_ended f) (in_currentTime f)
               (in_hands f) sc in
  map core (notesState sc') = map core chart /\
  forall call, In call (calls sc') -> In call (calls sc) \/ reportedIn chart f call.
Proof.
  intros Hcore. unfold onFrame, reportedIn. fold (frameTime f).
  destruct (in_playing f); cbn [negb]; [|auto].
  destruct (in_ended f) eqn:Ended; cbn zeta.
  - cbn [notesState calls]. split; [exact Hcore|]. intros call H.
    apply in_app_or in H. destruct H as [H | [<- | []]]; auto.
  - destruct (spawn_spec (frameTime f) sc) as (m & _ & E).
    assert (Hs : notesState (spawn (frameTime f) sc) = notesState sc)
      by (rewrite E; reflexivity).
    assert (Hc : calls (spawn (frameTime f) sc) = calls sc) by (rewrite E; reflexivity).
    rewrite <- Hs in Hcore. rewrite <- Hc.
    apply (collide_keeps
             (fun s => map core (notesState s) = map core chart /\
                forall call, In call (calls s) ->
                  In call (calls (spawn (frameTime f) sc)) \/
                  (true = true /\
                   match call with
                   | NoteHit ref goodCut =>
                       false = false /\ goodCut = true /\
                       exists n, nth_error chart ref = Some n /\
                                 handOf (in_hands f) (type n) <> None
                   | NoteMiss ref =>
                       false = false /\
                       exists n, nth_error chart ref = Some n /\
                                 (time n <? frameTime f) = true
                   | SongEnd => false = true
                   end))).
    + intros i ref note call change s s' [Hk Hm]
        (Ea & En & R & Es & Eact & Enext & Ecalls & Hcase).
      split.
      * rewrite Es, updateAt_core; [exact Hk|].
        destruct Hcase as [(_ & -> & _) | (_ & -> & _)]; reflexivity.
      * intros c Hr. rewrite Ecalls in Hr. apply in_app_or in Hr.
        destruct Hr as [Hr | [<- | []]]; [auto|].
        destruct (core_nth _ _ _ _ Hk En) as (n & Hn & Ec).
        assert (Et : time n = time note /\ type n = type note)
          by (unfold core in Ec; split; congruence).
        destruct Et as [Et Ety]. right.
        destruct Hcase as [(-> & _ & Z) | (-> & _ & _ & Hh)].
        -- repeat split. exists n. split; [exact Hn|].
           rewrite Et. apply beyond_miss_line, Z.
        -- repeat split. exists n. split; [exact Hn|]. rewrite Ety. exact Hh.
    + split; [exact Hcore | auto].
Qed.

Lemma runFrames_snoc (pow : float -> float -> float) (frames : list FrameInput)
  (f : FrameInput) (sc : SceneState) :
  runFrames pow (frames ++ [f]) sc =
  onFrame pow (in_playing f) (in_ended f) (in_currentTime f) (in_hands f)
    (runFrames pow frames sc).
Proof. unfold runFrames. rewrite fold_left_app. reflexivity. Qed.

Lemma runFrames_calls (pow : float -> float -> float) (chart : list NoteData)
  (frames : list FrameInput) :
  let sc := runFrames pow frames (sceneOf chart) in
  map core (notesState sc) = map core chart /\
  forall call, In call (calls sc) ->
    exists f, In f frames /\ reportedIn chart f call.
Proof.
  induction frames as [| f frames IH] using rev_ind; cbn zeta.
  - split; [reflexivity | contradiction].
  - destruct IH as [Hcore Hm]. rewrite runFrames_snoc.
    destruct (onFrame_calls pow chart f _ Hcore) as [Hcore' Hm'].
    split; [exact Hcore'|]. intros call H.
    destruct (Hm' call H) as [Hold | Hnew].
    + destruct (Hm call Hold) as (f0 & Hin & Hrest).
      exists f0. split; [apply in_or_app; auto | exact Hrest].
    + exists f. split; [apply in_or_app; right; left; reflexivity | exact Hnew].
Qed.

Lemma NoDup_app_disjoint {A : Type} (a b : list A) (x : A) :
  NoDup (a ++ b) -> In x a -> In x b -> False.
Proof.
  intros H Ha Hb. apply in_split in Ha. destruct Ha as (a1 & a2 & ->).
  rewrite <- app_assoc in H. cbn in H. apply NoDup_remove_2 in H.
  apply H. apply in_or_app. right. apply in_or_app. right. exact Hb.
Qed.

(** X18. In a run of frames over a chart whose notes are not resolved, the
    scene reports every note at most once, as hit or as missed; a note
    carries [missed] exactly when the miss callback was called for it and
    [hit] exactly when the hit callback was, and never both. *)
Theorem scene_reports_each_note_once (pow : float -> float -> float)
  (chart : list NoteData) (frames : list FrameInput) :
  Forall (fun n => resolved n = false) chart ->
  let sc := runFrames pow frames (sceneOf chart) in
  NoDup (noteRefs (calls sc)) /\
  forall ref n, nth_error (notesState sc) ref = Some n ->
    (flagSet (missed n) = true <-> In (NoteMiss ref) (calls sc)) /\
    (flagSet (hit n) = true <-> exists goodCut, In (NoteHit ref goodCut) (calls sc)) /\
    flagSet (hit n) && flagSet (missed n) = false.
Proof.
  intros H sc.
  destruct (SceneInv_runFrames pow frames _ (SceneInv_init chart H))
    as [_ Hnodup _ Hflags].
  split; [exact (NoDup_app_remove_l _ _ Hnodup) | exact Hflags].
Qed.

(** X19. In such a run the notes below [nextNoteIndex] are the spawned ones,
    and each of them is either still active or has been reported, not both;
    no note is active twice, and [nextNoteIndex] never passes the end of the
    chart. *)
Theorem scene_spawned_active_or_reported (pow : float -> float -> float)
  (chart : list NoteData) (frames : list FrameInput) :
  Forall (fun n => resolved n = false) chart ->
  let sc := runFrames pow frames (sceneOf chart) in
  (nextNoteIndex sc <= length chart)%nat /\
  NoDup (activeNotes sc) /\
  forall ref,
    ((ref < nextNoteIndex sc)%nat <->
     In ref (activeNotes sc) \/ In ref (noteRefs (calls sc))) /\
    ~ (In ref (activeNotes sc) /\ In ref (noteRefs (calls sc))).
Proof.
  intros H sc.
  destruct (SceneInv_runFrames pow frames _ (SceneInv_init chart H))
    as [Hnext Hnodup Hspawned _].
  destruct (runFrames_calls pow chart frames) as [Hcore _].
  fold sc in Hnext, Hnodup, Hspawned, Hcore.
  split; [|split].
  - apply (f_equal (@length _)) in Hcore. rewrite !length_map in Hcore. lia.
  - exact (NoDup_app_remove_r _ _ Hnodup).
  - intros ref. split.
    + rewrite Hspawned. apply in_app_iff.
    + intros [Ha Hr]. exact (NoDup_app_disjoint _ _ _ Hnodup Ha Hr).
Qed.

(** X20. The scene never changes the id, time, lane, layer, hand or cut
    direction of a note, and it reports a note as missed only in a frame,
    with the game playing and the song not ended, whose playback time is
    past the time of the note. *)
Theorem scene_miss_only_after_time (pow : float -> float -> float)
  (chart : list NoteData) (frames : list FrameInput) :
  let sc := runFrames pow frames (sceneOf chart) in
  map core (notesState sc) = map core chart /\
  forall ref, In (NoteMiss ref) (calls sc) ->
    exists n f, nth_error chart ref = Some n /\ In f frames /\
      in_playing f = true /\ in_ended f = false /\
      (time n <? orZero (Some (in_currentTime f))) = true.
Proof.
  destruct (runFrames_calls pow chart frames) as [Hcore Hcalls].
  split; [exact Hcore|]. intros ref H.
  destruct (Hcalls _ H) as (f & Hin & Hp & He & n & Hn & Ht).
  exists n, f. auto.
Qed.

(** X21. Every hit the scene reports is a good cut, reported in a frame in
    which the hand of the note's colour is tracked; the scene never reports
    a hit with [goodCut] false. *)
Theorem scene_hits_are_good_cuts (pow : float -> float -> float)
  (chart : list NoteData) (frames : list FrameInput) (ref : nat) (goodCut : bool) :
  In (NoteHit ref goodCut) (calls (runFrames pow frames (sceneOf chart))) ->
  goodCut = true /\
  exists n f handPos, nth_error chart ref = Some n /\ In f frames /\
    in_playing f = true /\ in_ended f = false /\
    handOf (in_hands f) (type n) = Some handPos.
Proof.
  intros H. destruct (runFrames_calls pow chart frames) as [_ Hcalls].
  destruct (Hcalls _ H) as (f & Hin & Hp & He & -> & n & Hn & Hh).
  split; [reflexivity|].
  destruct (handOf (in_hands f) (type n)) as [handPos |] eqn:E; [|contradiction].
  exists n, f, handPos. auto.
Qed.

(** * Health *)

(** On the whole numbers from 0 to 100 the two updaters compute
    [min(100, h + 2)] and [max(0, h - 15)] without rounding. *)
Lemma health_updaters_exact (z : Z) :
  (0 <= z <= 100)%Z ->
  healthAfterHit (num z) = num (Z.min 100 (z + 2)) /\
  healthAfterMiss (num z) = (num (Z.max 0 (z - 15)), (z <=? 15)%Z).
Proof.
  intros H.
  assert (A : forallb (fun k =>
                let z := Z.of_nat k in
                Leibniz.eqb (healthAfterHit (num z)) (num (Z.min 100 (z + 2))) &&
                Leibniz.eqb (fst (healthAfterMiss (num z))) (num (Z.max 0 (z - 15))) &&
                Bool.eqb (snd (healthAfterMiss (num z))) (z <=? 15)%Z)
              (seq 0 101) = true) by (vm_compute; reflexivity).
  rewrite forallb_forall in A.
  specialize (A (Z.to_nat z)). rewrite Z2Nat.id in A by lia.
  cbv zeta in A.
  assert (I : In (Z.to_nat z) (seq 0 101)) by (apply in_seq; lia).
  apply A in I. apply andb_prop in I. destruct I as [I C].
  apply andb_prop in I. destruct I as [I B].
  apply Leibniz.eqb_spec in I, B. apply Bool.eqb_prop in C.
  split; [exact I|]. destruct (healthAfterMiss (num z)) as [h o].
  cbn [fst snd] in *. congruence.
Qed.

(** X22. From the [setHealth(100)] of [startGame] on, whatever hits and
    misses follow, the health is a whole number from 0 to 100; and the next
    miss schedules the end of the game exactly when it leaves the health
    at 0. *)
Theorem health_stays_in_range (updates : list HealthUpdate) :
  let h := fst (healthAfter updates) in
  (exists z, (0 <= z <= 100)%Z /\ h = num z) /\
  (snd (healthAfterMiss h) = true <-> fst (healthAfterMiss h) = 0).
Proof.
  cbv zeta. unfold healthAfter.
  assert (G : forall s, (exists z, (0 <= z <= 100)%Z /\ fst s = num z) ->
              exists z, (0 <= z <= 100)%Z /\
                        fst (fold_left applyHealth updates s) = num z).
  { induction updates as [| u updates IH]; intros s Hs; [exact Hs|].
    cbn [fold_left]. apply IH. destruct Hs as (z & Hz & E).
    destruct (health_updaters_exact z Hz) as [Hh Hm].
    destruct u; cbn [applyHealth].
    - exists (Z.min 100 (z + 2)). rewrite E, Hh. cbn [fst].
      split; [lia | reflexivity].
    - rewrite E, Hm. exists (Z.max 0 (z - 15)). cbn [fst].
      split; [lia | reflexivity]. }
  destruct (G (100, 0%nat)) as (z & Hz & E).
  { exists 100%Z. split; [lia | reflexivity]. }
  split; [exists z; auto|]. rewrite E.
  destruct (health_updaters_exact z Hz) as [_ Hm]. rewrite Hm. cbn [fst snd].
  destruct (Z.leb_spec z 15) as [L | L].
  - replace (Z.max 0 (z - 15)) with 0%Z by lia. split; reflexivity.
  - split; [discriminate|]. intros Hnum. exfalso.
    assert (Hmax : Z.max 0 (z - 15) = (z - 15)%Z) by lia.
    rewrite Hmax in Hnum.
    assert (Hk : forallb (fun k => negb (Leibniz.eqb (num (Z.of_nat k)) 0))
                   (seq 1 100) = true) by (vm_compute; reflexivity).
    rewrite forallb_forall in Hk.
    specialize (Hk (Z.to_nat (z - 15))). rewrite Z2Nat.id in Hk by lia.
    assert (I : In (Z.to_nat (z - 15)) (seq 1 100)) by (apply in_seq; lia).
    apply Hk in I. rewrite Hnum in I. vm_compute in I. discriminate.
Qed.

(** * The energy of a frame *)

Lemma mul_self_plusNum (v : float) :
  isNum v = true -> plusNum (Prim2SF (v * v)).
Proof.
  unfold isNum. rewrite mul_spec. unfold SF64mul.
  destruct (Prim2SF v) as [[] | [] | | [] m e]; cbn [SFmul xorb is_nanSF negb plusNum];
    intros H; try reflexivity; try discriminate;
    apply binary_round_aux_plusNum; lia.
Qed.

Lemma fold_squares_plusNum (frame : list float) (acc : float) :
  Forall (fun v => isNum v = true) frame -> plusNum (Prim2SF acc) ->
  plusNum (Prim2SF (fold_left (fun s v => s + v * v) frame acc)).
Proof.
  intros H. revert acc. induction H as [| v frame Hv _ IH]; intros acc Hacc;
    cbn [fold_left]; [exact Hacc|].
  apply IH. rewrite add_spec. apply SFadd_plusNum; [exact Hacc|].
  apply mul_self_plusNum, Hv.
Qed.

Lemma SFsqrt_plusNum (x : spec_float) : plusNum x -> plusNum (SF64sqrt x).
Proof.
  unfold SF64sqrt, SFsqrt.
  destruct x as [s | s | | s m e]; cbn [plusNum]; intros H; subst;
    try contradiction; try reflexivity.
  unfold SFsqrt_core_binary.
  set (m' := match (_ - _)%Z with Z0 => _ | Z.pos _ => _ | Z.neg _ => _ end).
  pose proof (Z.sqrtrem_sqrt m') as Q. pose proof (Z.sqrt_nonneg m') as P.
  destruct (Z.sqrtrem m') as [q r]. cbn [fst] in Q.
  apply binary_round_aux_plusNum. lia.
Qed.

(** The rms of a frame of the loop is a number when the samples are. *)
Lemma rmsOf_plusNum (frame : list float) :
  length frame = 2048%nat -> Forall (fun v => isNum v = true) frame ->
  plusNum (Prim2SF (rmsOf frame)).
Proof.
  intros L H. unfold rmsOf. rewrite L, sqrt_spec, div_spec.
  change (Prim2SF (num (Z.of_nat 2048))) with (S754_finite false 4503599627370496 (-41)).
  apply SFsqrt_plusNum, SFdiv_plusNum.
  apply fold_squares_plusNum; [exact H | reflexivity].
Qed.

Lemma numbers_or_nan (l : list float) :
  Forall (fun v => isNum v = true) l \/ Exists (fun v => is_nan v = true) l.
Proof.
  induction l as [| v l IH]; [left; constructor|].
  destruct (is_nan v) eqn:N; [right; left; exact N|].
  destruct IH as [IH | IH]; [left | right; right; exact IH].
  constructor; [rewrite isNum_is_nan, N; reflexivity | exact IH].
Qed.

(** X23. The rms of a frame of the loop is NaN exactly when the frame holds
    a sample that is NaN; otherwise it is a number that is not negative,
    also when samples are infinite or their squares overflow. *)
Theorem rms_nan_iff_nan_sample (data : list float) (k : nat) :
  (k < frameCount data)%nat ->
  (is_nan (rmsAt data k) = true <->
   Exists (fun v => is_nan v = true) (frameAt data k)) /\
  (is_nan (rmsAt data k) = false -> (0 <=? rmsAt data k) = true).
Proof.
  intros Hk. apply frameCount_inside in Hk.
  assert (L : length (frameAt data k) = 2048%nat).
  { apply slice_length; unfold hopSize, windowSize in *; lia. }
  unfold rmsAt. destruct (numbers_or_nan (frameAt data k)) as [D | D].
  - pose proof (rmsOf_plusNum _ L D) as P.
    assert (N : is_nan (rmsOf (frameAt data k)) = false).
    { pose proof (isNum_is_nan (rmsOf (frameAt data k))) as I.
      unfold isNum in I. rewrite (plusNum_num _ P) in I.
      destruct (is_nan _); [discriminate | reflexivity]. }
    split; [|intros _; apply plusNum_leb, P].
    rewrite N. split; [discriminate|]. intros E.
    apply Exists_exists in E. destruct E as (v & Hv & Nv).
    rewrite Forall_forall in D. specialize (D v Hv).
    rewrite isNum_is_nan, Nv in D. discriminate.
  - assert (N : is_nan (rmsOf (frameAt data k)) = true).
    { destruct (is_nan (rmsOf (frameAt data k))) eqn:N; [reflexivity|].
      assert (I : isNum (rmsOf (frameAt data k)) = true)
        by (rewrite isNum_is_nan, N; reflexivity).
      apply rmsOf_isNum in I. rewrite Forall_forall in I.
      apply Exists_exists in D. destruct D as (v & Hv & Nv).
      specialize (I v Hv). rewrite isNum_is_nan, Nv in I. discriminate. }
    rewrite N. split; [tauto | discriminate].
Qed.

(** * The properties on the sample recordings *)

Lemma chart_ids_consecutive_witness :
  exists k, forall j n, nth_error demoChart j = Some n -> id n = noteId (k + j).
Proof.
  apply (chart_ids_consecutive (demoBrowser demoAudio) demoUrl demoChart []).
  exact demoRun_chart.
Defined.

Lemma chart_ids_distinct_witness : NoDup (map id demoChart).
Proof.
  apply (chart_ids_distinct (demoBrowser demoAudio) demoUrl demoChart []).
  exact demoRun_chart.
Defined.

Lemma chart_placement_domain_witness :
  Forall (fun n =>
    (0 <= lineIndex n <= 3)%Z /\ (0 <= lineLayer n <= 1)%Z /\
    cutDirection n <> LEFT /\ cutDirection n <> RIGHT /\
    (type n = Left -> (lineIndex n <= 1)%Z) /\
    (type n = Right -> (2 <= lineIndex n)%Z) /\
    (lineLayer n = 1%Z <-> cutDirection n = ANY) /\
    (cutDirection n = ANY <-> lineIndex n = 0%Z \/ lineIndex n = 3%Z)) demoChart.
Proof.
  apply (chart_placement_domain (demoBrowser demoAudio) demoUrl demoChart []).
  exact demoRun_chart.
Defined.

Lemma chart_positions_defined_witness :
  Forall (fun n => exists noteX noteY,
    readAt LANE_X_POSITIONS (lineIndex n) = Some noteX /\
    readAt LAYER_Y_POSITIONS (lineLayer n) = Some noteY /\
    (noteX <? 0) = HandType_eqb (type n) Left /\
    (0 <? noteX) = HandType_eqb (type n) Right /\
    (0 <? noteY) = true) demoChart.
Proof.
  apply (chart_positions_defined (demoBrowser demoAudio) demoUrl demoChart []).
  exact demoRun_chart.
Defined.

Lemma chart_hand_parity_witness :
  Forall (fun n => exists j, id n = noteId j /\
                             type n = if Nat.even j then Left else Right) demoChart.
Proof.
  apply (chart_hand_parity (demoBrowser demoAudio) demoUrl demoChart []).
  exact demoRun_chart.
Defined.

(** The chart of the second sample recording. *)
Lemma stairRun_chart :
  analyzeAudioAndGenerateChart (demoBrowser stairAudio) demoUrl =
    Some (stairChart, []).
Proof. vm_compute. reflexivity. Qed.

Lemma chart_isolated_gap_witness :
  (0.22 <=? num 17408 / 8000 - num 15360 / 8000) = true.
Proof.
  apply (chart_isolated_gap (demoBrowser stairAudio) demoUrl stairChart [] 0
           {| id := "note-0"; time := num 15360 / 8000; lineIndex := 0;
              lineLayer := 1; type := Left; cutDirection := ANY;
              hit := None; missed := None; hitTime := None |}
           {| id := "note-1"; time := num 17408 / 8000; lineIndex := 2;
              lineLayer := 0; type := Right; cutDirection := UP;
              hit := None; missed := None; hitTime := None |}).
  - exact stairRun_chart.
  - reflexivity.
  - reflexivity.
  - discriminate.
Defined.

Lemma chart_times_frame_starts_witness :
  Forall (fun n => exists m, (m < frameCount stairSamples)%nat /\
                    time n = num (512 * Z.of_nat m) / 8000) stairChart.
Proof.
  apply (chart_times_frame_starts (demoBrowser stairAudio) demoUrl stairAudio
           stairChart []).
  - reflexivity.
  - exact stairRun_chart.
Defined.

Lemma chart_length_bound_witness :
  (length stairChart <= frameCount stairSamples)%nat.
Proof.
  apply (chart_length_bound (demoBrowser stairAudio) demoUrl stairAudio
           stairChart []).
  - reflexivity.
  - exact stairRun_chart.
Defined.

Lemma flux_zero_without_rise_witness :
  fluxOf [infinity; 0.25] (Some [infinity; nan]) = 0.
Proof.
  apply (flux_zero_without_rise [infinity; 0.25] [infinity; nan]).
  intros [| [| j]] H; [reflexivity | reflexivity | simpl in H; lia].
Defined.

Lemma zero_flux_no_note_witness :
  (0.06 <? rmsAt demoSamples 11) = true /\
  notes (stateAt demoSamples 8000 12) = notes (stateAt demoSamples 8000 11).
Proof.
  split; [vm_compute; reflexivity|].
  apply (zero_flux_no_note demoSamples 8000 11). vm_compute. reflexivity.
Defined.

Lemma nan_sample_silences_witness :
  notes (stateAt nanSamples 44100 (S (0 + 0))) =
  notes (stateAt nanSamples 44100 (0 + 0)).
Proof.
  apply (nan_sample_silences nanSamples 44100 0 0).
  - apply Exists_cons_hd. reflexivity.
  - lia.
Defined.

Lemma constant_recording_empty_chart_witness :
  analyzeAudioAndGenerateChart
    (demoBrowser {| channelData0 := burst 4096; sampleRate := 44100 |}) demoUrl =
    Some ([], []).
Proof.
  apply (constant_recording_empty_chart
           (demoBrowser {| channelData0 := burst 4096; sampleRate := 44100 |})
           demoUrl {| channelData0 := burst 4096; sampleRate := 44100 |}
           0.5 4096).
  - reflexivity.
  - reflexivity.
Defined.

Lemma chart_depends_on_magnitudes_witness :
  generateChart {| channelData0 := repeat 0.1 1536 ++ repeat 0.2 3072;
                   sampleRate := 800 |} =
  generateChart {| channelData0 := repeat (-0.1) 1536 ++ repeat 0.2 3072;
                   sampleRate := 800 |}.
Proof.
  apply (chart_depends_on_magnitudes (repeat 0.1 1536 ++ repeat 0.2 3072)
           (repeat (-0.1) 1536 ++ repeat 0.2 3072) 800).
  vm_compute. reflexivity.
Defined.

Lemma scene_reports_each_note_once_witness :
  let sc := runFrames (fun x _ => x * x)
              [ mkInput true false 2 (mkHands None (Some (mkVector3 0.4 0.8 0)));
                mkInput true false 5 (mkHands None None) ]
              (sceneOf demoChart) in
  calls sc = [NoteHit 0 true; NoteMiss 2; NoteMiss 1] /\
  NoDup (noteRefs (calls sc)) /\
  forall ref n, nth_error (notesState sc) ref = Some n ->
    (flagSet (missed n) = true <-> In (NoteMiss ref) (calls sc)) /\
    (flagSet (hit n) = true <-> exists goodCut, In (NoteHit ref goodCut) (calls sc)) /\
    flagSet (hit n) && flagSet (missed n) = false.
Proof.
  split; [vm_compute; reflexivity|].
  apply (scene_reports_each_note_once (fun x _ => x * x) demoChart
           [ mkInput true false 2 (mkHands None (Some (mkVector3 0.4 0.8 0)));
             mkInput true false 5 (mkHands None None) ]).
  repeat constructor.
Defined.

Lemma scene_spawned_active_or_reported_witness :
  let sc := runFrames (fun x _ => x * x)
              [ mkInput true false 0 (mkHands None None) ] (sceneOf demoChart) in
  activeNotes sc = [0; 1]%nat /\
  (nextNoteIndex sc <= length demoChart)%nat /\
  NoDup (activeNotes sc) /\
  forall ref,
    ((ref < nextNoteIndex sc)%nat <->
     In ref (activeNotes sc) \/ In ref (noteRefs (calls sc))) /\
    ~ (In ref (activeNotes sc) /\ In ref (noteRefs (calls sc))).
Proof.
  split; [vm_compute; reflexivity|].
  apply (scene_spawned_active_or_reported (fun x _ => x * x) demoChart
           [ mkInput true false 0 (mkHands None None) ]).
  repeat constructor.
Defined.

Lemma scene_miss_only_after_time_witness :
  exists n f, nth_error demoChart 1 = Some n /\
    In f [ mkInput true false 2 (mkHands None (Some (mkVector3 0.4 0.8 0)));
           mkInput true false 5 (mkHands None None) ] /\
    in_playing f = true /\ in_ended f = false /\
    (time n <? orZero (Some (in_currentTime f))) = true.
Proof.
  apply (proj2 (scene_miss_only_after_time (fun x _ => x * x) demoChart
                  [ mkInput true false 2 (mkHands None (Some (mkVector3 0.4 0.8 0)));
                    mkInput true false 5 (mkHands None None) ]) 1%nat).
  vm_compute. auto.
Defined.

Lemma scene_hits_are_good_cuts_witness :
  true = true /\
  exists n f handPos, nth_error demoChart 0 = Some n /\
    In f [ mkInput true false 2 (mkHands None (Some (mkVector3 0.4 0.8 0)));
           mkInput true false 5 (mkHands None None) ] /\
    in_playing f = true /\ in_ended f = false /\
    handOf (in_hands f) (type n) = Some handPos.
Proof.
  apply (scene_hits_are_good_cuts (fun x _ => x * x) demoChart
           [ mkInput true false 2 (mkHands None (Some (mkVector3 0.4 0.8 0)));
             mkInput true false 5 (mkHands None None) ] 0 true).
  vm_compute. auto.
Defined.

Lemma rms_nan_iff_nan_sample_witness :
  (is_nan (rmsAt nanSamples 0) = true <->
   Exists (fun v => is_nan v = true) (frameAt nanSamples 0)) /\
  (is_nan (rmsAt nanSamples 0) = false -> (0 <=? rmsAt nanSamples 0) = true).
Proof.
  apply (rms_nan_iff_nan_sample nanSamples 0). vm_compute. lia.
Defined.
